(** * Rubik's-cube solver: a shallow embedding of [cube_solver]

    The development follows the Python sources file by file:
    - [Py]        : the fragment of Python's run-time behaviour the code
                    relies on (unbounded integers, list indexing with
                    negative indices and [IndexError], exceptions);
    - [Bitcube]   : [bitcube.py] and the [MOVE_DELTA] loop of [bit_tables.py];
    - [Coordcube] : the pruning-table helpers and allocations of [coordcube.py];
    - [Search]    : [search.py], the two-phase search driver;
    - [SearchNodes] : the main loop of [solution] cut at the node the
                    generator yields, and the nodes a search explores;
    - [CoordcubeCache], [CoordcubeFill], [CoordcubeMoves] : the index cache,
                    the run-length coding and the cache files, the fill of a
                    pruning table, the moves on coordinates and the inverse
                    move tables of [coordcube.py];
    - [SearchCompress] : the delta coding of move tables of [search.py];
    - [BitTables] : the binomial and factorial tables of [bit_tables.py];
    - [Solve]     : [verify] of [tools.py] and [solve] of [__init__.py].
*)

From Stdlib Require Import ZArith Lia List Bool Ascii String.
From stdpp Require Import base option list gmap strings pretty.

Local Open Scope Z_scope.

(** ** Python run-time fragment *)
Module Py.

Inductive exn : Type :=
  | IndexError
  | KeyError
  | TypeError
  | AttributeError
  | AssertionError.

(** A computation either raises or returns. *)
Inductive res (A : Type) : Type :=
  | Raise (e : exn)
  | Ret (a : A).
Arguments Raise {A} e.
Arguments Ret {A} a.

#[global] Instance res_bind : MBind res := fun A B k m =>
  match m with
  | Raise e => Raise e
  | Ret a => k a
  end.
#[global] Instance res_ret : MRet res := fun A a => Ret a.

(** [l[i]]: a negative index counts from the end; anything outside
    [-len, len) raises [IndexError]. *)
Definition norm_index {A} (l : list A) (i : Z) : option nat :=
  let n := Z.of_nat (length l) in
  if (0 <=? i) && (i <? n) then Some (Z.to_nat i)
  else if (- n <=? i) && (i <? 0) then Some (Z.to_nat (n + i))
  else None.

Definition getitem {A} (l : list A) (i : Z) : res A :=
  match norm_index l i with
  | Some k => match l !! k with Some x => Ret x | None => Raise IndexError end
  | None => Raise IndexError
  end.

(** [l[i] = v] *)
Definition setitem {A} (l : list A) (i : Z) (v : A) : res (list A) :=
  match norm_index l i with
  | Some k => Ret (<[k := v]> l)
  | None => Raise IndexError
  end.

(** [l.pop(i)] returns the element and the shortened list. *)
Definition pop {A} (l : list A) (i : Z) : res (A * list A) :=
  match norm_index l i with
  | Some k => match l !! k with
              | Some x => Ret (x, take k l ++ drop (S k) l)
              | None => Raise IndexError
              end
  | None => Raise IndexError
  end.

(** [list(range(n))] *)
Definition range (n : Z) : list Z := map Z.of_nat (seq 0 (Z.to_nat n)).

(** [[x] * n] *)
Definition repeat_list {A} (x : A) (n : Z) : list A := replicate (Z.to_nat n) x.

(** Monadic left fold: the body of a [for] loop threaded through [res]. *)
Fixpoint foldM {A S : Type} (f : S -> A -> res S) (l : list A) (s : S) : res S :=
  match l with
  | [] => Ret s
  | x :: l' => s' ← f s x; foldM f l' s'
  end.

End Py.

(** ** [bitcube.py] and the [MOVE_DELTA] table of [bit_tables.py] *)
Module Bitcube.
Import Py.

(** [_factorial]: built by the module-level loop, thirteen entries. *)
Definition _factorial : list Z :=
  [1; 1; 2; 6; 24; 120; 720; 5040; 40320; 362880; 3628800; 39916800; 479001600].

(** [sum(1 for x in range(pi) if not used[x])] *)
Definition count_unused (used : list bool) (pi : Z) : res Z :=
  foldM (fun acc x => u ← getitem used x;
                      Ret (if u : bool then acc else acc + 1))
        (range pi) 0.

(** [perm_to_int(p)] *)
Definition perm_to_int (p : list Z) : res Z :=
  let n := Z.of_nat (length p) in
  '(code, _) ← foldM (fun '(code, used) i =>
      pi ← getitem p i;
      smaller ← count_unused used pi;
      f ← getitem _factorial (n - 1 - i);
      used' ← setitem used pi true;
      Ret (code + smaller * f, used'))
    (range n) (0, repeat_list false n);
  Ret code.

(** [int_to_perm(code, n)] *)
Definition int_to_perm (code n : Z) : res (list Z) :=
  '(_, _, perm) ← foldM (fun '(code, elems, perm) i =>
      fact ← getitem _factorial i;
      let idx := code `div` fact in
      let code' := code `mod` fact in
      '(x, elems') ← pop elems idx;
      Ret (code', elems', perm ++ [x]))
    (rev (range n)) (code, range n, []);
  Ret (rev perm).

(** The classic cubie-level cube, as [CubieCube(cp=, co=, ep=, eo=)] builds it. *)
Record CubieCube := mkCubie {
  cp : list Z;
  co : list Z;
  ep : list Z;
  eo : list Z
}.

(** Modelled from the spec: [CubieCube.multiply] of cubiecube.py (absent
    from the sources); section 4.1 gives the composition A∘B as
    [cp[i] = A.cp[B.cp[i]]], [co[i] = (A.co[B.cp[i]] + B.co[i]) mod 3],
    and the same on edges with orientations added modulo 2. *)
Definition multiply (a b : CubieCube) : res CubieCube :=
  cp' ← foldM (fun acc i => j ← getitem (cp b) i; x ← getitem (cp a) j;
                            Ret (acc ++ [x])) (range 8) [];
  co' ← foldM (fun acc i => j ← getitem (cp b) i; x ← getitem (co a) j;
                            y ← getitem (co b) i;
                            Ret (acc ++ [(x + y) `mod` 3])) (range 8) [];
  ep' ← foldM (fun acc i => j ← getitem (ep b) i; x ← getitem (ep a) j;
                            Ret (acc ++ [x])) (range 12) [];
  eo' ← foldM (fun acc i => j ← getitem (ep b) i; x ← getitem (eo a) j;
                            y ← getitem (eo b) i;
                            Ret (acc ++ [(x + y) `mod` 2])) (range 12) [];
  Ret (mkCubie cp' co' ep' eo').

(** Modelled from the spec: [edge_values] of edge.py (absent from the
    sources), the twelve edge slots UR, UF, UL, UB, DR, DF, DL, DB, FR, FL,
    BL, BR numbered in that order, as corner.py numbers the corners. *)
Definition edge_values : list Z := range 12.

Record BitPackedCubieCube := mkBit {
  pc : Z;
  pe : Z;
  orie : Z
}.

(** The corner half of both encoders: [for i in range(7): coro = coro*3 + co[i]]. *)
Definition pack_coro (co : list Z) : res Z :=
  foldM (fun coro i => c ← getitem co i; Ret (coro * 3 + c)) (range 7) 0.

(** [BitPackedCubieCube.from_cubiecube(cc)] *)
Definition from_cubiecube (cc : CubieCube) : res BitPackedCubieCube :=
  pc ← perm_to_int (cp cc);
  pe ← perm_to_int (ep cc);
  coro ← pack_coro (co cc);
  eoro ← foldM (fun eoro idx => b ← getitem (eo cc) idx;
                                Ret (Z.lor (Z.shiftl eoro 1) (Z.land b 1)))
               (rev edge_values) 0;
  Ret (mkBit pc pe (Z.lor (Z.shiftl coro 12) eoro)).

(** [_decode_orientations]: returns [(co, eo)]. *)
Definition _decode_orientations (b : BitPackedCubieCube) : res (list Z * list Z) :=
  let eoro := Z.land (orie b) 0xFFF in
  let coro := Z.shiftr (orie b) 12 in
  let eo := rev (map (fun i => Z.land (Z.shiftr eoro i) 1) (range 12)) in
  '(_, co) ← foldM (fun '(tmp, co) i =>
      co' ← setitem co i (tmp `mod` 3);
      Ret (tmp `div` 3, co'))
    (rev (range 7)) (coro, repeat_list 0 8);
  co7 ← setitem co 7 ((- fold_right Z.add 0 co) `mod` 3);
  Ret (co7, eo).

(** [to_cubiecube] *)
Definition to_cubiecube (b : BitPackedCubieCube) : res CubieCube :=
  cp ← int_to_perm (pc b) 8;
  ep ← int_to_perm (pe b) 12;
  '(co, eo) ← _decode_orientations b;
  Ret (mkCubie cp co ep eo).

(** [_encode_orientations(co, eo)] *)
Definition _encode_orientations (co eo : list Z) : res Z :=
  coro ← pack_coro co;
  let eoro := fold_left (fun eoro bit => Z.lor (Z.shiftl eoro 1) (Z.land bit 1))
                        (rev eo) 0 in
  Ret (Z.lor (Z.shiftl coro 12) eoro).

(** [multiply_fallback(move_cc)]: the new [(pc, pe, orie)]. *)
Definition multiply_fallback (b : BitPackedCubieCube) (move_cc : CubieCube)
  : res BitPackedCubieCube :=
  cc ← to_cubiecube b;
  cc' ← multiply cc move_cc;
  from_cubiecube cc'.

(** [multiply_native(axis, power)] over a given [MOVE_DELTA] table. *)
Definition multiply_native (MOVE_DELTA : list BitPackedCubieCube)
    (b : BitPackedCubieCube) (axis power : Z) : res BitPackedCubieCube :=
  delta ← getitem MOVE_DELTA (axis * 3 + (power `mod` 3) - 1);
  perm_c ← int_to_perm (pc b) 8;
  perm_e ← int_to_perm (pe b) 12;
  d_perm_c ← int_to_perm (pc delta) 8;
  d_perm_e ← int_to_perm (pe delta) 12;
  new_perm_c ← foldM (fun acc i => j ← getitem d_perm_c i; x ← getitem perm_c j;
                                   Ret (acc ++ [x])) (range 8) [];
  new_perm_e ← foldM (fun acc i => j ← getitem d_perm_e i; x ← getitem perm_e j;
                                   Ret (acc ++ [x])) (range 12) [];
  new_pc ← perm_to_int new_perm_c;
  new_pe ← perm_to_int new_perm_e;
  '(co, eo) ← _decode_orientations b;
  '(d_co, d_eo) ← _decode_orientations delta;
  new_co ← foldM (fun new_co i =>
      d ← getitem d_co i; j ← getitem d_perm_c i; c ← getitem co j;
      setitem new_co i ((d + c) `mod` 3)) (range 8) (repeat_list 0 8);
  new_co ← setitem new_co 7 ((- fold_right Z.add 0 (take 7 new_co)) `mod` 3);
  new_eo ← foldM (fun new_eo i =>
      d ← getitem d_eo i; j ← getitem d_perm_e i; e ← getitem eo j;
      setitem new_eo i (Z.lxor d e)) (range 12) (repeat_list 0 12);
  new_orie ← _encode_orientations new_co new_eo;
  Ret (mkBit new_pc new_pe new_orie).

(** Modelled from the spec: [moveCube] of cubiecube.py (absent from the
    sources), the six basic move cubies: the cubie representation of a 90
    degree clockwise turn of U, R, F, D, L, B over the corner slots URF, UFL,
    ULB, UBR, DFR, DLF, DBL, DRB and the edge slots UR .. BR, where
    [cp[i] = j] says that slot [i] holds the cubie whose home is [j] and
    corner orientation counts clockwise twists relative to the U/D axis. *)
Definition moveCube : list CubieCube := [
  mkCubie [3;0;1;2;4;5;6;7] [0;0;0;0;0;0;0;0]
          [3;0;1;2;4;5;6;7;8;9;10;11] [0;0;0;0;0;0;0;0;0;0;0;0];
  mkCubie [4;1;2;0;7;5;6;3] [2;0;0;1;1;0;0;2]
          [8;1;2;3;11;5;6;7;4;9;10;0] [0;0;0;0;0;0;0;0;0;0;0;0];
  mkCubie [1;5;2;3;0;4;6;7] [1;2;0;0;2;1;0;0]
          [0;9;2;3;4;8;6;7;1;5;10;11] [0;1;0;0;0;1;0;0;1;1;0;0];
  mkCubie [0;1;2;3;5;6;7;4] [0;0;0;0;0;0;0;0]
          [0;1;2;3;5;6;7;4;8;9;10;11] [0;0;0;0;0;0;0;0;0;0;0;0];
  mkCubie [0;2;6;3;4;1;5;7] [0;1;2;0;0;2;1;0]
          [0;1;10;3;4;5;9;7;8;2;6;11] [0;0;0;0;0;0;0;0;0;0;0;0];
  mkCubie [0;1;3;7;4;5;2;6] [0;0;1;2;0;0;2;1]
          [0;1;2;11;4;5;6;10;8;9;3;7] [0;0;0;1;0;0;0;1;0;0;1;1]
].

(** The module-level loop of bit_tables.py that fills [MOVE_DELTA]: for each
    axis the quarter, half and three-quarter turn, each packed. *)
Definition build_MOVE_DELTA (moveCube : list CubieCube)
  : res (list BitPackedCubieCube) :=
  foldM (fun acc axis =>
      cc90 ← getitem moveCube axis;
      cc180 ← multiply cc90 cc90;
      cc270 ← multiply cc180 cc90;
      d1 ← from_cubiecube cc90;
      d2 ← from_cubiecube cc180;
      d3 ← from_cubiecube cc270;
      Ret (acc ++ [d1; d2; d3]))
    (range 6) [].

(** The cube a face turn of the given power stands for in the reference
    multiply: [moveCube[axis]] composed with itself [power] times. *)
Definition power_cube (moveCube : list CubieCube) (axis power : Z) : res CubieCube :=
  cc90 ← getitem moveCube axis;
  foldM (fun acc _ => multiply acc cc90) (range (power - 1)) cc90.

End Bitcube.

(** ** [coordcube.py]: packed pruning tables *)
Module Coordcube.
Import Py.

Definition N_TWIST : Z := 2187.
Definition N_FLIP : Z := 2048.
Definition N_SLICE1 : Z := 495.
Definition N_SLICE2 : Z := 24.
Definition N_PARITY : Z := 2.
Definition N_URFtoDLF : Z := 20160.
Definition N_FRtoBR : Z := 11880.
Definition N_URtoUL : Z := 1320.
Definition N_UBtoDF : Z := 1320.
Definition N_URtoDF : Z := 20160.
Definition N_MOVE : Z := 18.

(** A Python list object: its identity [id(table)] and its items. *)
Record pylist := mkList {
  obj_id : Z;
  items : list Z
}.

(** [_pruning_byte_cache]: keyed by [(id(table), byte_index)]. *)
Abbreviation byte_cache := (gmap (Z * Z) Z).

(** [setPruning(table, index, value)]: the updated table and cache. *)
Definition setPruning (cache : byte_cache) (table : pylist) (index value : Z)
  : res (pylist * byte_cache) :=
  let byte_index := Z.shiftr index 1 in
  old ← getitem (items table) byte_index;
  let new := if Z.land index 1 =? 0
             then Z.lor (Z.land old 0xF0) value
             else Z.lor (Z.land old 0x0F) (Z.shiftl value 4) in
  items' ← setitem (items table) byte_index new;
  Ret (mkList (obj_id table) items', delete (obj_id table, byte_index) cache).

(** [getPruning(table, index)]: the value and the updated cache. *)
Definition getPruning (cache : byte_cache) (table : pylist) (index : Z)
  : res (Z * byte_cache) :=
  let byte_index := Z.shiftr index 1 in
  let key := (obj_id table, byte_index) in
  '(byte_val, cache') ←
    match cache !! key with
    | Some b => Ret (b, cache)
    | None =>
        b ← getitem (items table) byte_index;
        Ret (b, if Z.of_nat (size cache) <? 200000
                then <[key := b]> cache else cache)
    end;
  Ret (if Z.land index 1 =? 0 then Z.land byte_val 0x0F else Z.shiftr byte_val 4,
       cache').

(** What [getPruning] computes when the byte is read from the table: the
    search reads the tables but never writes them, so every cached byte
    equals the table's byte (see [getPruning_coherent]). *)
Definition read_nibble (table : list Z) (index : Z) : res Z :=
  byte_val ← getitem table (Z.shiftr index 1);
  Ret (if Z.land index 1 =? 0 then Z.land byte_val 0x0F else Z.shiftr byte_val 4).

(** The cache holds only bytes that the tables hold. *)
Definition coherent (cache : byte_cache) (table : pylist) : Prop :=
  forall b v, cache !! (obj_id table, b) = Some v -> getitem (items table) b = Ret v.

(** The four allocations made when no cached table is found. *)
Definition alloc_Slice_URFtoDLF_Parity_Prun : list Z :=
  repeat_list (-1) (N_SLICE2 * N_URFtoDLF * N_PARITY `div` 2).
Definition alloc_Slice_URtoDF_Parity_Prun : list Z :=
  repeat_list (-1) (N_SLICE2 * N_URtoDF * N_PARITY `div` 2).
Definition alloc_Slice_Twist_Prun : list Z :=
  repeat_list 0 ((N_SLICE1 * N_TWIST + 3) `div` 4).
Definition alloc_Slice_Flip_Prun : list Z :=
  repeat_list (-1) (N_SLICE1 * N_FLIP `div` 2).

(** [parityMove] *)
Definition parityMove : list (list Z) := [
  [1; 0; 1; 1; 0; 1; 1; 0; 1; 1; 0; 1; 1; 0; 1; 1; 0; 1];
  [0; 1; 0; 0; 1; 0; 0; 1; 0; 0; 1; 0; 0; 1; 0; 0; 1; 0]
].

(** The move tables and pruning tables that the class body loads from the
    cache directory (or builds with cubiecube.py, absent from the sources):
    they are data to the search. *)
Record Tables := mkTables {
  twistMove : list (list Z);
  flipMove : list (list Z);
  FRtoBR_Move : list (list Z);
  URFtoDLF_Move : list (list Z);
  URtoDF_Move : list (list Z);
  URtoUL_Move : list (list Z);
  UBtoDF_Move : list (list Z);
  MergeURtoULandUBtoDF : list (list Z);
  Slice_URFtoDLF_Parity_Prun : list Z;
  Slice_URtoDF_Parity_Prun : list Z;
  Slice_Twist_Prun : list Z;
  Slice_Flip_Prun : list Z
}.

(** [table[i][j]] *)
Definition getitem2 (t : list (list Z)) (i j : Z) : res Z :=
  row ← getitem t i; getitem row j.

(** The coordinates [CoordCube.__init__] reads off a cubie cube. *)
Record CoordCube := mkCoord {
  c_twist : Z;
  c_flip : Z;
  c_parity : Z;
  c_FRtoBR : Z;
  c_URFtoDLF : Z;
  c_URtoUL : Z;
  c_UBtoDF : Z;
  c_URtoDF : Z
}.

End Coordcube.

(** ** [search.py]: the two-phase search *)
Module Search.
Import Py Coordcube.

(** The depth-indexed arrays of a [Search] object. *)
Record Search := mkSearch {
  ax : list Z;
  po : list Z;
  flip : list Z;
  twist : list Z;
  slice : list Z;
  parity : list Z;
  URFtoDLF : list Z;
  FRtoBR : list Z;
  URtoUL : list Z;
  UBtoDF : list Z;
  URtoDF : list Z;
  minDistPhase1 : list Z;
  minDistPhase2 : list Z
}.

Definition set_ax (s : Search) (v : list Z) : Search :=
  mkSearch v (po s) (flip s) (twist s) (slice s) (parity s) (URFtoDLF s) (FRtoBR s) (URtoUL s) (UBtoDF s) (URtoDF s) (minDistPhase1 s) (minDistPhase2 s).
Definition set_po (s : Search) (v : list Z) : Search :=
  mkSearch (ax s) v (flip s) (twist s) (slice s) (parity s) (URFtoDLF s) (FRtoBR s) (URtoUL s) (UBtoDF s) (URtoDF s) (minDistPhase1 s) (minDistPhase2 s).
Definition set_flip (s : Search) (v : list Z) : Search :=
  mkSearch (ax s) (po s) v (twist s) (slice s) (parity s) (URFtoDLF s) (FRtoBR s) (URtoUL s) (UBtoDF s) (URtoDF s) (minDistPhase1 s) (minDistPhase2 s).
Definition set_twist (s : Search) (v : list Z) : Search :=
  mkSearch (ax s) (po s) (flip s) v (slice s) (parity s) (URFtoDLF s) (FRtoBR s) (URtoUL s) (UBtoDF s) (URtoDF s) (minDistPhase1 s) (minDistPhase2 s).
Definition set_slice (s : Search) (v : list Z) : Search :=
  mkSearch (ax s) (po s) (flip s) (twist s) v (parity s) (URFtoDLF s) (FRtoBR s) (URtoUL s) (UBtoDF s) (URtoDF s) (minDistPhase1 s) (minDistPhase2 s).
Definition set_parity (s : Search) (v : list Z) : Search :=
  mkSearch (ax s) (po s) (flip s) (twist s) (slice s) v (URFtoDLF s) (FRtoBR s) (URtoUL s) (UBtoDF s) (URtoDF s) (minDistPhase1 s) (minDistPhase2 s).
Definition set_URFtoDLF (s : Search) (v : list Z) : Search :=
  mkSearch (ax s) (po s) (flip s) (twist s) (slice s) (parity s) v (FRtoBR s) (URtoUL s) (UBtoDF s) (URtoDF s) (minDistPhase1 s) (minDistPhase2 s).
Definition set_FRtoBR (s : Search) (v : list Z) : Search :=
  mkSearch (ax s) (po s) (flip s) (twist s) (slice s) (parity s) (URFtoDLF s) v (URtoUL s) (UBtoDF s) (URtoDF s) (minDistPhase1 s) (minDistPhase2 s).
Definition set_URtoUL (s : Search) (v : list Z) : Search :=
  mkSearch (ax s) (po s) (flip s) (twist s) (slice s) (parity s) (URFtoDLF s) (FRtoBR s) v (UBtoDF s) (URtoDF s) (minDistPhase1 s) (minDistPhase2 s).
Definition set_UBtoDF (s : Search) (v : list Z) : Search :=
  mkSearch (ax s) (po s) (flip s) (twist s) (slice s) (parity s) (URFtoDLF s) (FRtoBR s) (URtoUL s) v (URtoDF s) (minDistPhase1 s) (minDistPhase2 s).
Definition set_URtoDF (s : Search) (v : list Z) : Search :=
  mkSearch (ax s) (po s) (flip s) (twist s) (slice s) (parity s) (URFtoDLF s) (FRtoBR s) (URtoUL s) (UBtoDF s) v (minDistPhase1 s) (minDistPhase2 s).
Definition set_minDistPhase1 (s : Search) (v : list Z) : Search :=
  mkSearch (ax s) (po s) (flip s) (twist s) (slice s) (parity s) (URFtoDLF s) (FRtoBR s) (URtoUL s) (UBtoDF s) (URtoDF s) v (minDistPhase2 s).
Definition set_minDistPhase2 (s : Search) (v : list Z) : Search :=
  mkSearch (ax s) (po s) (flip s) (twist s) (slice s) (parity s) (URFtoDLF s) (FRtoBR s) (URtoUL s) (UBtoDF s) (URtoDF s) (minDistPhase1 s) v.

(** [Search.__init__] *)
Definition init : Search :=
  let z := repeat_list 0 31 in
  mkSearch z z z z z z z z z z z z z.

Definition ax_to_s : list string := ["U"; "R"; "F"; "D"; "L"; "B"]%string.
Definition po_to_s : list (option string) :=
  [None; Some " "; Some "2 "; Some "' "]%string.

(** Control flow of a loop body inside a function: an exception, a [return],
    falling through to the next statement, or an exhausted iteration budget
    (the [while True] loops are unrolled [fuel] times). *)
Inductive ctl (R A : Type) : Type :=
  | Exn (e : exn)
  | Return (r : R)
  | Next (a : A)
  | OutOfFuel.
Arguments Exn {R A} e.
Arguments Return {R A} r.
Arguments Next {R A} a.
Arguments OutOfFuel {R A}.

#[global] Instance ctl_bind {R} : MBind (ctl R) := fun A B k m =>
  match m with
  | Exn e => Exn e
  | Return r => Return r
  | Next a => k a
  | OutOfFuel => OutOfFuel
  end.

Definition lift {R A} (m : res A) : ctl R A :=
  match m with
  | Raise e => Exn e
  | Ret a => Next a
  end.

(** A call: the callee's [return] value is the caller's next value. *)
Definition call {R R'} (m : ctl R R) : ctl R' R :=
  match m with
  | Exn e => Exn e
  | Return r => Next r
  | Next r => Next r
  | OutOfFuel => OutOfFuel
  end.

(** A [for] loop whose body may [return]. *)
Fixpoint forC {R A S : Type} (f : S -> A -> ctl R S) (l : list A) (s : S) : ctl R S :=
  match l with
  | [] => Next s
  | x :: l' => s' ← f s x; forC f l' s'
  end.

(** Modelled from the spec: [colors] of color.py (absent from the sources),
    the six face colours U, R, F, D, L, B numbered 0 to 5 in that order. *)
Definition colors (c : ascii) : option Z :=
  if Ascii.eqb c "U" then Some 0
  else if Ascii.eqb c "R" then Some 1
  else if Ascii.eqb c "F" then Some 2
  else if Ascii.eqb c "D" then Some 3
  else if Ascii.eqb c "L" then Some 4
  else if Ascii.eqb c "B" then Some 5
  else None.

(** [facelets[i]] for [i] in [range(54)] *)
Definition str_getitem (s : string) (i : Z) : res ascii :=
  match String.get (Z.to_nat i) s with
  | Some c => Ret c
  | None => Raise IndexError
  end.

(** The body of the [try] block of [solution]: the colour counts. *)
Definition count_colors (facelets : string) : res (list Z) :=
  foldM (fun count i =>
      c ← str_getitem facelets i;
      match colors c with
      | None => Raise AssertionError
      | Some k => old ← getitem count k; setitem count k (old + 1)
      end)
    (range 54) (repeat_list 0 6).

(** The whole input check: [true] when [solution] goes on past it, [false]
    when it returns ["Error 1"]. *)
Definition check_input (facelets : string) : bool :=
  match count_colors facelets with
  | Raise _ => false
  | Ret count => forallb (fun i => match getitem count i with
                                   | Ret c => c =? 9
                                   | Raise _ => false
                                   end) (range 6)
  end.

(** [solutionToString(length, depthPhase1)] *)
Definition solutionToString (sr : Search) (len : Z) (depthPhase1 : option Z)
  : res string :=
  foldM (fun s i =>
      a ← getitem (ax sr) i;
      face ← getitem ax_to_s a;
      p ← getitem (po sr) i;
      suffix ← getitem po_to_s p;
      match suffix with
      | None => Raise TypeError
      | Some t =>
          let s := (s ++ face ++ t)%string in
          Ret (match depthPhase1 with
               | Some d => if i =? d - 1 then (s ++ ". ")%string else s
               | None => s
               end)
      end)
    (range len) ""%string.

Section Solver.

(** The tables loaded by [CoordCube]; the wall clock, as the time elapsed
    since [tStart] at the k-th evaluation of [time.time() - tStart]. *)
Variable T : Tables.
Variable elapsed : nat -> Z.

(** [get_enhanced_heuristic(flip, twist, slice_coord, phase)] *)
Definition get_enhanced_heuristic (flip twist slice_coord phase : Z) : res Z :=
  if phase =? 1 then
    h1 ← read_nibble (Slice_Flip_Prun T) (N_SLICE1 * flip + slice_coord);
    h2 ← read_nibble (Slice_Twist_Prun T) (N_SLICE1 * twist + slice_coord);
    let base_heuristic := Z.max h1 h2 in
    Ret (if (flip <? 100) && (twist <? 100)
         then Z.max 0 (base_heuristic - 1)
         else base_heuristic)
  else Ret 0.

(** [is_move_redundant(prev_axis, curr_axis, depth)] *)
Definition is_move_redundant (prev_axis curr_axis depth : Z) : bool :=
  if depth =? 0 then false
  else if prev_axis =? curr_axis then true
  else if (depth >? 1) && (prev_axis + 3 =? curr_axis) then true
  else false.

(** The state of the loops of [solution] besides the arrays. *)
Record loop1 := mkLoop1 {
  l_sr : Search;
  l_n : Z;
  l_depthPhase1 : Z;
  l_busy : bool;
  l_ticks : nat
}.

Section Phase1.
Variable maxDepth timeOut : Z.

(** The innermost [while True] of [solution]: increment the axis. *)
Fixpoint next_axis1 (fuel : nat) (sr : Search) (n depthPhase1 : Z) (ticks : nat)
  : ctl string loop1 :=
  match fuel with
  | O => OutOfFuel
  | S fuel =>
      a ← lift (getitem (ax sr) n);
      ax' ← lift (setitem (ax sr) n (a + 1));
      let sr := set_ax sr ax' in
      if a + 1 >? 5 then
        if elapsed ticks >? timeOut then Return "Error 8"%string
        else if n =? 0 then
          if depthPhase1 >=? maxDepth then Return "Error 7"%string
          else
            ax' ← lift (setitem (ax sr) n 0);
            po' ← lift (setitem (po sr) n 1);
            Next (mkLoop1 (set_po (set_ax sr ax') po') n (depthPhase1 + 1)
                          false (S ticks))
        else Next (mkLoop1 sr (n - 1) depthPhase1 true (S ticks))
      else
        po' ← lift (setitem (po sr) n 1);
        let sr := set_po sr po' in
        again ← (if n =? 0 then Next false
                 else prev ← lift (getitem (ax sr) (n - 1));
                      cur ← lift (getitem (ax sr) n);
                      Next ((prev =? cur) || (prev - 3 =? cur)));
        if again : bool then next_axis1 fuel sr n depthPhase1 ticks
        else Next (mkLoop1 sr n depthPhase1 false ticks)
  end.

(** The inner [while True] of [solution]: find the next phase-1 node. *)
Fixpoint next_node1 (fuel : nat) (st : loop1) : ctl string loop1 :=
  match fuel with
  | O => OutOfFuel
  | S fuel =>
      let sr := l_sr st in
      let n := l_n st in
      let depthPhase1 := l_depthPhase1 st in
      md ← lift (getitem (minDistPhase1 sr) (n + 1));
      if (depthPhase1 - n >? md) && negb (l_busy st) then
        a ← lift (getitem (ax sr) n);
        let n := n + 1 in
        ax' ← lift (setitem (ax sr) n (if (a =? 0) || (a =? 3) then 1 else 0));
        po' ← lift (setitem (po sr) n 1);
        Next (mkLoop1 (set_po (set_ax sr ax') po') n depthPhase1 (l_busy st)
                      (l_ticks st))
      else
        p ← lift (getitem (po sr) n);
        po' ← lift (setitem (po sr) n (p + 1));
        let sr := set_po sr po' in
        if p + 1 >? 3 then
          st' ← next_axis1 fuel sr n depthPhase1 (l_ticks st);
          if l_busy st' then next_node1 fuel st' else Next st'
        else Next (mkLoop1 sr n depthPhase1 false (l_ticks st))
  end.

End Phase1.

(** The state of the loops of [totalDepth] besides the arrays. *)
Record loop2 := mkLoop2 {
  m_sr : Search;
  m_n : Z;
  m_depthPhase2 : Z;
  m_busy : bool
}.

Section Phase2.
Variable depthPhase1 maxDepthPhase2 : Z.

(** The innermost [while True] of [totalDepth]. *)
Fixpoint next_axis2 (fuel : nat) (sr : Search) (n depthPhase2 : Z)
  : ctl (Z * Search) loop2 :=
  match fuel with
  | O => OutOfFuel
  | S fuel =>
      a ← lift (getitem (ax sr) n);
      ax' ← lift (setitem (ax sr) n (a + 1));
      let sr := set_ax sr ax' in
      if a + 1 >? 5 then
        if n =? depthPhase1 then
          if depthPhase2 >=? maxDepthPhase2 then Return (-1, sr)
          else
            ax' ← lift (setitem (ax sr) n 0);
            po' ← lift (setitem (po sr) n 1);
            Next (mkLoop2 (set_po (set_ax sr ax') po') n (depthPhase2 + 1) false)
        else Next (mkLoop2 sr (n - 1) depthPhase2 true)
      else
        po' ← lift (setitem (po sr) n
                      (if (a + 1 =? 0) || (a + 1 =? 3) then 1 else 2));
        let sr := set_po sr po' in
        again ← (if n =? depthPhase1 then Next false
                 else prev ← lift (getitem (ax sr) (n - 1));
                      cur ← lift (getitem (ax sr) n);
                      Next ((prev =? cur) || (prev - 3 =? cur)));
        if again : bool then next_axis2 fuel sr n depthPhase2
        else Next (mkLoop2 sr n depthPhase2 false)
  end.

(** The inner [while True] of [totalDepth]: find the next phase-2 node. *)
Fixpoint next_node2 (fuel : nat) (st : loop2) : ctl (Z * Search) loop2 :=
  match fuel with
  | O => OutOfFuel
  | S fuel =>
      let sr := m_sr st in
      let n := m_n st in
      let depthPhase2 := m_depthPhase2 st in
      md ← lift (getitem (minDistPhase2 sr) (n + 1));
      if (depthPhase1 + depthPhase2 - n >? md) && negb (m_busy st) then
        a ← lift (getitem (ax sr) n);
        let n := n + 1 in
        if (a =? 0) || (a =? 3) then
          ax' ← lift (setitem (ax sr) n 1);
          po' ← lift (setitem (po sr) n 2);
          Next (mkLoop2 (set_po (set_ax sr ax') po') n depthPhase2 (m_busy st))
        else
          ax' ← lift (setitem (ax sr) n 0);
          po' ← lift (setitem (po sr) n 1);
          Next (mkLoop2 (set_po (set_ax sr ax') po') n depthPhase2 (m_busy st))
      else
        a ← lift (getitem (ax sr) n);
        p ← lift (getitem (po sr) n);
        let p' := if (a =? 0) || (a =? 3) then p + 1 else p + 2 in
        po' ← lift (setitem (po sr) n p');
        let sr := set_po sr po' in
        if p' >? 3 then
          st' ← next_axis2 fuel sr n depthPhase2;
          if m_busy st' then next_node2 fuel st' else Next st'
        else Next (mkLoop2 sr n depthPhase2 false)
  end.

End Phase2.

(** The phase-2 heuristic lookups of [totalDepth]. *)
Definition prun2 (table : list Z) (coord frtobr par : Z) : res Z :=
  read_nibble table ((N_SLICE2 * coord + frtobr) * 2 + par).

(** The outer [while True] of [totalDepth]; leaving it by [break] is [Next]. *)
Fixpoint phase2_loop (depthPhase1 maxDepthPhase2 : Z) (fuel : nat) (st : loop2)
  : ctl (Z * Search) loop2 :=
  match fuel with
  | O => OutOfFuel
  | S fuel =>
      st ← next_node2 depthPhase1 maxDepthPhase2 fuel st;
      let sr := m_sr st in
      let n := m_n st in
      a ← lift (getitem (ax sr) n);
      p ← lift (getitem (po sr) n);
      let mv := 3 * a + p - 1 in
      c ← lift (getitem (URFtoDLF sr) n);
      v ← lift (getitem2 (URFtoDLF_Move T) c mv);
      l ← lift (setitem (URFtoDLF sr) (n + 1) v);
      let sr := set_URFtoDLF sr l in
      c ← lift (getitem (FRtoBR sr) n);
      v ← lift (getitem2 (FRtoBR_Move T) c mv);
      l ← lift (setitem (FRtoBR sr) (n + 1) v);
      let sr := set_FRtoBR sr l in
      c ← lift (getitem (parity sr) n);
      v ← lift (getitem2 parityMove c mv);
      l ← lift (setitem (parity sr) (n + 1) v);
      let sr := set_parity sr l in
      c ← lift (getitem (URtoDF sr) n);
      v ← lift (getitem2 (URtoDF_Move T) c mv);
      l ← lift (setitem (URtoDF sr) (n + 1) v);
      let sr := set_URtoDF sr l in
      urdf ← lift (getitem (URtoDF sr) (n + 1));
      frbr ← lift (getitem (FRtoBR sr) (n + 1));
      par ← lift (getitem (parity sr) (n + 1));
      e1 ← lift (prun2 (Slice_URtoDF_Parity_Prun T) urdf frbr par);
      urf ← lift (getitem (URFtoDLF sr) (n + 1));
      e2 ← lift (prun2 (Slice_URFtoDLF_Parity_Prun T) urf frbr par);
      l ← lift (setitem (minDistPhase2 sr) (n + 1) (Z.max e1 e2));
      let sr := set_minDistPhase2 sr l in
      let st := mkLoop2 sr n (m_depthPhase2 st) (m_busy st) in
      if Z.max e1 e2 =? 0 then Next st
      else phase2_loop depthPhase1 maxDepthPhase2 fuel st
  end.

(** [totalDepth(depthPhase1, maxDepth)]: the value returned and the arrays. *)
Definition totalDepth (fuel : nat) (sr : Search) (depthPhase1 maxDepth : Z)
  : ctl (Z * Search) (Z * Search) :=
  let maxDepthPhase2 := Z.min 10 (maxDepth - depthPhase1) in
  sr ← lift (foldM (fun sr i =>
      a ← getitem (ax sr) i;
      p ← getitem (po sr) i;
      let mv := 3 * a + p - 1 in
      c ← getitem (URFtoDLF sr) i;
      v ← getitem2 (URFtoDLF_Move T) c mv;
      l ← setitem (URFtoDLF sr) (i + 1) v;
      let sr := set_URFtoDLF sr l in
      c ← getitem (FRtoBR sr) i;
      v ← getitem2 (FRtoBR_Move T) c mv;
      l ← setitem (FRtoBR sr) (i + 1) v;
      let sr := set_FRtoBR sr l in
      c ← getitem (parity sr) i;
      v ← getitem2 parityMove c mv;
      l ← setitem (parity sr) (i + 1) v;
      Ret (set_parity sr l))
    (range depthPhase1) sr);
  urf ← lift (getitem (URFtoDLF sr) depthPhase1);
  frbr ← lift (getitem (FRtoBR sr) depthPhase1);
  par ← lift (getitem (parity sr) depthPhase1);
  d1 ← lift (prun2 (Slice_URFtoDLF_Parity_Prun T) urf frbr par);
  if d1 >? maxDepthPhase2 then Return (-1, sr)
  else
  sr ← lift (foldM (fun sr i =>
      a ← getitem (ax sr) i;
      p ← getitem (po sr) i;
      let mv := 3 * a + p - 1 in
      c ← getitem (URtoUL sr) i;
      v ← getitem2 (URtoUL_Move T) c mv;
      l ← setitem (URtoUL sr) (i + 1) v;
      let sr := set_URtoUL sr l in
      c ← getitem (UBtoDF sr) i;
      v ← getitem2 (UBtoDF_Move T) c mv;
      l ← setitem (UBtoDF sr) (i + 1) v;
      Ret (set_UBtoDF sr l))
    (range depthPhase1) sr);
  u1 ← lift (getitem (URtoUL sr) depthPhase1);
  u2 ← lift (getitem (UBtoDF sr) depthPhase1);
  v ← lift (getitem2 (MergeURtoULandUBtoDF T) u1 u2);
  l ← lift (setitem (URtoDF sr) depthPhase1 v);
  let sr := set_URtoDF sr l in
  urdf ← lift (getitem (URtoDF sr) depthPhase1);
  frbr ← lift (getitem (FRtoBR sr) depthPhase1);
  par ← lift (getitem (parity sr) depthPhase1);
  d2 ← lift (prun2 (Slice_URtoDF_Parity_Prun T) urdf frbr par);
  if d2 >? maxDepthPhase2 then Return (-1, sr)
  else
  l ← lift (setitem (minDistPhase2 sr) depthPhase1 (Z.max d1 d2));
  let sr := set_minDistPhase2 sr l in
  if Z.max d1 d2 =? 0 then Return (depthPhase1, sr)
  else
  let n := depthPhase1 in
  l ← lift (setitem (po sr) depthPhase1 0);
  let sr := set_po sr l in
  l ← lift (setitem (ax sr) depthPhase1 0);
  let sr := set_ax sr l in
  l ← lift (setitem (minDistPhase2 sr) (n + 1) 1);
  let sr := set_minDistPhase2 sr l in
  st ← phase2_loop depthPhase1 maxDepthPhase2 fuel (mkLoop2 sr n 1 false);
  Return (depthPhase1 + m_depthPhase2 st, m_sr st).

(** [get_phase2_hash(depth)] *)
Definition get_phase2_hash (sr : Search) (depth : Z) : res Z :=
  a ← getitem (URFtoDLF sr) depth;
  b ← getitem (FRtoBR sr) depth;
  c ← getitem (parity sr) depth;
  d ← getitem (URtoDF sr) depth;
  Ret (Z.lor (Z.lor (Z.lor (Z.shiftl a 24) (Z.shiftl b 12)) (Z.shiftl c 8)) d).

(** [apply_phase2_move(state_hash, mv)] *)
Definition apply_phase2_move (state_hash mv : Z) : res Z :=
  let urf := Z.land (Z.shiftr state_hash 24) 0xFFFF in
  let frbr := Z.land (Z.shiftr state_hash 12) 0xFFF in
  let par := Z.land (Z.shiftr state_hash 8) 1 in
  let urdf := Z.land state_hash 0xFF in
  a ← getitem2 (URFtoDLF_Move T) urf mv;
  b ← getitem2 (FRtoBR_Move T) frbr mv;
  c ← getitem2 parityMove par mv;
  d ← getitem2 (URtoDF_Move T) urdf mv;
  Ret (Z.lor (Z.lor (Z.lor (Z.shiftl a 24) (Z.shiftl b 12)) (Z.shiftl c 8)) d).

(** [apply_phase2_move_inverse(state_hash, mv)]: its first table reference,
    [CoordCube.URFtoDLF_Move_inv], names an attribute the class does not
    have (the inverse tables are module-level names of coordcube.py). *)
Definition apply_phase2_move_inverse (state_hash mv : Z) : res Z :=
  Raise AttributeError.

(** [append_phase2_moves(depthPhase1, path)] *)
Definition append_phase2_moves (sr : Search) (depthPhase1 : Z) (path : list (Z * Z))
  : res Search :=
  '(_, sr) ← foldM (fun '(i, sr) '(a, p) =>
      ax' ← setitem (ax sr) i a;
      po' ← setitem (po sr) i p;
      Ret (i + 1, set_po (set_ax sr ax') po'))
    path (depthPhase1, sr);
  Ret sr.

(** A dict from packed state to [(depth, path)], in insertion order. *)
Definition pdict := list (Z * (Z * list (Z * Z))).

Fixpoint dict_get (d : pdict) (k : Z) : option (Z * list (Z * Z)) :=
  match d with
  | [] => None
  | (k', v) :: d' => if k' =? k then Some v else dict_get d' k
  end.

Fixpoint dict_set (d : pdict) (k : Z) (v : Z * list (Z * Z)) : pdict :=
  match d with
  | [] => [(k, v)]
  | (k', v') :: d' => if k' =? k then (k, v) :: d' else (k', v') :: dict_set d' k v
  end.

Definition dict_update (d new : pdict) : pdict :=
  fold_left (fun d '(k, v) => dict_set d k v) new d.

(** [min(d for d, p in dict.values())] of a non-empty dict. *)
Definition min_depth (d : pdict) : Z :=
  match d with
  | [] => 0
  | (_, (d0, _)) :: rest => fold_left (fun m '(_, (dd, _)) => Z.min m dd) rest d0
  end.

Definition inverse_path (path : list (Z * Z)) : list (Z * Z) :=
  map (fun '(a, p) => (a, if negb (p =? 2) then 4 - p else 2)) (rev path).

Definition last_axis (path : list (Z * Z)) : Z :=
  match last path with
  | Some (a, _) => a
  | None => -1
  end.

Section Bidirectional.
Variable depthPhase1 : Z.

(** One pass of "expand forward": the [for] nest over the frontier. *)
Definition expand_forward (sr : Search) (forward backward : pdict)
    (f_visited : gset Z) : ctl (Z * Search) (pdict * gset Z) :=
  '(f_visited, new_forward) ←
    forC (fun acc '(state, (d, path)) =>
      forC (fun acc mv =>
        forC (fun '(f_visited, new_forward) p =>
          let full_mv := mv + p - 1 in
          if is_move_redundant (last_axis path) (mv `div` 3) d
          then Next (f_visited, new_forward)
          else
            new_state ← lift (apply_phase2_move state full_mv);
            if decide (new_state ∈ f_visited) then Next (f_visited, new_forward)
            else
              let f_visited := {[ new_state ]} ∪ f_visited in
              let new_path := path ++ [(mv `div` 3, p)] in
              let new_forward := dict_set new_forward new_state (d + 1, new_path) in
              match dict_get backward new_state with
              | Some (b_d, b_path) =>
                  let full_path := path ++ inverse_path b_path in
                  sr' ← lift (append_phase2_moves sr depthPhase1 full_path);
                  Return (depthPhase1 + d + 1 + b_d, sr')
              | None => Next (f_visited, new_forward)
              end)
          [1; 2; 3] acc)
        [0; 3; 6; 9; 12; 15] acc)
      forward (f_visited, []);
  Next (dict_update forward new_forward, f_visited).

(** One pass of "expand backward". *)
Definition expand_backward (sr : Search) (forward backward : pdict)
    (b_visited : gset Z) : ctl (Z * Search) (pdict * gset Z) :=
  '(b_visited, new_backward) ←
    forC (fun acc '(state, (d, path)) =>
      forC (fun acc mv =>
        forC (fun '(b_visited, new_backward) p =>
          let full_mv := mv + p - 1 in
          new_state ← lift (apply_phase2_move_inverse state full_mv);
          if decide (new_state ∈ b_visited) then Next (b_visited, new_backward)
          else
            let b_visited := {[ new_state ]} ∪ b_visited in
            let new_path := path ++ [(mv `div` 3, p)] in
            let new_backward := dict_set new_backward new_state (d + 1, new_path) in
            match dict_get forward new_state with
            | Some (f_d, f_path) =>
                let full_path := f_path ++ inverse_path new_path in
                sr' ← lift (append_phase2_moves sr depthPhase1 full_path);
                Return (depthPhase1 + f_d + d + 1, sr')
            | None => Next (b_visited, new_backward)
            end)
          [1; 2; 3] acc)
        [0; 3; 6; 9; 12; 15] acc)
      backward (b_visited, []);
  Next (dict_update backward new_backward, b_visited).

Definition nonempty (d : pdict) : bool :=
  match d with [] => false | _ => true end.

(** The [while True] of [bidirectional_totalDepth]. *)
Fixpoint bidirectional_loop (maxDepthPhase2 : Z) (fuel : nat) (sr : Search)
    (forward backward : pdict) (f_visited b_visited : gset Z)
  : ctl (Z * Search) (Z * Search) :=
  match fuel with
  | O => OutOfFuel
  | S fuel =>
      '(forward, f_visited) ←
        (if nonempty forward && (min_depth forward <? maxDepthPhase2)
         then expand_forward sr forward backward f_visited
         else Next (forward, f_visited));
      '(backward, b_visited) ←
        (if nonempty backward && (min_depth backward <? maxDepthPhase2)
         then expand_backward sr forward backward b_visited
         else Next (backward, b_visited));
      if negb (nonempty forward) && negb (nonempty backward)
      then Return (-1, sr)
      else bidirectional_loop maxDepthPhase2 fuel sr forward backward
                              f_visited b_visited
  end.

End Bidirectional.

(** [bidirectional_totalDepth(depthPhase1, maxDepth)] *)
Definition bidirectional_totalDepth (fuel : nat) (sr : Search)
    (depthPhase1 maxDepth : Z) : ctl (Z * Search) (Z * Search) :=
  let maxDepthPhase2 := Z.min 10 (maxDepth - depthPhase1) in
  h ← lift (get_phase2_hash sr depthPhase1);
  h' ← lift (get_phase2_hash sr depthPhase1);
  bidirectional_loop depthPhase1 maxDepthPhase2 fuel sr
    [(h, (0, []))] [(0, (0, []))] {[ h' ]} {[ 0 ]}.

(** What [solution] runs before the search and the sources do not hold:
    [FaceCube(facelets).toCubieCube()] followed by [verify()], and by the
    coordinate getters of [CoordCube.__init__] (facecube.py and cubiecube.py
    are absent from the sources). *)
Record Frontend := mkFrontend {
  fe_verify : string -> res Z;
  fe_coord : string -> res CoordCube
}.
Variable fe : Frontend.

(** What the search hands to the [return] statements of [solution]: an error
    string, or the arrays with the total length and the phase-1 length, which
    [solutionToString] then prints. *)
Inductive verdict : Type :=
  | Error (msg : string)
  | Found (sr : Search) (s depthPhase1 : Z).

(** The outer [while True] of [solution]. *)
Fixpoint solve_loop (maxDepth timeOut : Z) (fuel : nat) (st : loop1)
  : ctl verdict Empty_set :=
  match fuel with
  | O => OutOfFuel
  | S fuel =>
      st ← match next_node1 maxDepth timeOut fuel st with
           | Exn e => Exn e
           | Return msg => Return (Error msg)
           | Next st => Next st
           | OutOfFuel => OutOfFuel
           end;
      let sr := l_sr st in
      let n := l_n st in
      let depthPhase1 := l_depthPhase1 st in
      a ← lift (getitem (ax sr) n);
      p ← lift (getitem (po sr) n);
      let mv := 3 * a + p - 1 in
      c ← lift (getitem (flip sr) n);
      fl ← lift (getitem2 (flipMove T) c mv);
      l ← lift (setitem (flip sr) (n + 1) fl);
      let sr := set_flip sr l in
      c ← lift (getitem (twist sr) n);
      tw ← lift (getitem2 (twistMove T) c mv);
      l ← lift (setitem (twist sr) (n + 1) tw);
      let sr := set_twist sr l in
      c ← lift (getitem (slice sr) n);
      v ← lift (getitem2 (FRtoBR_Move T) (c * 24) mv);
      let sl := v `div` 24 in
      l ← lift (setitem (slice sr) (n + 1) sl);
      let sr := set_slice sr l in
      h ← lift (get_enhanced_heuristic fl tw sl 1);
      l ← lift (setitem (minDistPhase1 sr) (n + 1) h);
      let sr := set_minDistPhase1 sr l in
      let continue sr :=
        solve_loop maxDepth timeOut fuel
          (mkLoop1 sr n depthPhase1 (l_busy st) (l_ticks st)) in
      if (h =? 0) && (n >=? depthPhase1 - 5) then
        l ← lift (setitem (minDistPhase1 sr) (n + 1) 10);
        let sr := set_minDistPhase1 sr l in
        if n =? depthPhase1 - 1 then
          '(s, sr) ← call (totalDepth fuel sr depthPhase1 maxDepth);
          '(s, sr) ← (if (s <? 0) && (maxDepth - depthPhase1 <=? 8)
                      then call (bidirectional_totalDepth fuel sr depthPhase1 maxDepth)
                      else Next (s, sr));
          if s >=? 0 then
            accept ← (if s =? depthPhase1 then Next true
                      else a1 ← lift (getitem (ax sr) (depthPhase1 - 1));
                           a2 ← lift (getitem (ax sr) depthPhase1);
                           Next (negb (a1 =? a2) && negb (a1 =? a2 + 3)));
            if accept : bool then Return (Found sr s depthPhase1)
            else continue sr
          else continue sr
        else continue sr
      else continue sr
  end.

(** [solution] up to its [return] statements, on the [Search] object [self]. *)
Definition solution_search (fuel : nat) (self : Search) (facelets : string)
    (maxDepth timeOut : Z) : ctl verdict Empty_set :=
  if negb (check_input facelets) then Return (Error "Error 1")
  else
    s ← lift (fe_verify fe facelets);
    if negb (s =? 0) then Return (Error ("Error " ++ pretty (Z.abs s)))
    else
      c ← lift (fe_coord fe facelets);
      l ← lift (setitem (po self) 0 0);
      let sr := set_po self l in
      l ← lift (setitem (ax sr) 0 0);
      let sr := set_ax sr l in
      l ← lift (setitem (flip sr) 0 (c_flip c));
      let sr := set_flip sr l in
      l ← lift (setitem (twist sr) 0 (c_twist c));
      let sr := set_twist sr l in
      l ← lift (setitem (parity sr) 0 (c_parity c));
      let sr := set_parity sr l in
      l ← lift (setitem (slice sr) 0 (c_FRtoBR c `div` 24));
      let sr := set_slice sr l in
      l ← lift (setitem (URFtoDLF sr) 0 (c_URFtoDLF c));
      let sr := set_URFtoDLF sr l in
      l ← lift (setitem (FRtoBR sr) 0 (c_FRtoBR c));
      let sr := set_FRtoBR sr l in
      l ← lift (setitem (URtoUL sr) 0 (c_URtoUL c));
      let sr := set_URtoUL sr l in
      l ← lift (setitem (UBtoDF sr) 0 (c_UBtoDF c));
      let sr := set_UBtoDF sr l in
      l ← lift (setitem (minDistPhase1 sr) 1 1);
      let sr := set_minDistPhase1 sr l in
      solve_loop maxDepth timeOut fuel (mkLoop1 sr 0 1 false 0).

(** [solution(facelets, maxDepth, timeOut, useSeparator)]: the string
    returned, an exception, or no answer within [fuel] iterations. *)
Definition solution (fuel : nat) (self : Search) (facelets : string)
    (maxDepth timeOut : Z) (useSeparator : bool) : ctl string Empty_set :=
  match solution_search fuel self facelets maxDepth timeOut with
  | Exn e => Exn e
  | Return (Error msg) => Return msg
  | Return (Found sr s depthPhase1) =>
      match solutionToString sr s
              (if useSeparator then Some depthPhase1 else None) with
      | Raise e => Exn e
      | Ret str => Return str
      end
  | Next v => match v with end
  | OutOfFuel => OutOfFuel
  end.

(** The moves [solutionToString] prints: [(ax[i], po[i])] for [i < len]. *)
Definition moves (sr : Search) (len : Z) : res (list (Z * Z)) :=
  foldM (fun acc i => a ← getitem (ax sr) i; p ← getitem (po sr) i;
                      Ret (acc ++ [(a, p)])) (range len) [].

End Solver.

End Search.

(** ** [search.py]: the main loop of [solution], node by node *)

(** The same statements as [solution_search] and [solve_loop], cut where
    the move generator yields a node, so that a property can speak of each
    node the search passes through: [search_start] runs up to the loop,
    and a round of the loop is [next_node1], then [store_node], then
    [after_node].  [solve_loop_nodes] and [solution_search_start] prove
    that the pieces put together are [solve_loop] and [solution_search]. *)
Module SearchNodes.
Import Py Coordcube Search.

Section Nodes.
Variable T : Tables.
Variable elapsed : nat -> Z.
Variable maxDepth timeOut : Z.

(** The statements of the main loop that follow the move generator, up to
    the call of [get_enhanced_heuristic] and the assignment of its value:
    the coordinates of the node and its heuristic, all stored at [n + 1].
    Returns the object and the value stored in [minDistPhase1[n + 1]]. *)
Definition store_node (st : loop1) : res (Search * Z) :=
  let sr := l_sr st in
  let n := l_n st in
  a ← getitem (ax sr) n;
  p ← getitem (po sr) n;
  let mv := 3 * a + p - 1 in
  c ← getitem (flip sr) n;
  fl ← getitem2 (flipMove T) c mv;
  l ← setitem (flip sr) (n + 1) fl;
  let sr := set_flip sr l in
  c ← getitem (twist sr) n;
  tw ← getitem2 (twistMove T) c mv;
  l ← setitem (twist sr) (n + 1) tw;
  let sr := set_twist sr l in
  c ← getitem (slice sr) n;
  v ← getitem2 (FRtoBR_Move T) (c * 24) mv;
  let sl := v `div` 24 in
  l ← setitem (slice sr) (n + 1) sl;
  let sr := set_slice sr l in
  h ← get_enhanced_heuristic T fl tw sl 1;
  l ← setitem (minDistPhase1 sr) (n + 1) h;
  Ret (set_minDistPhase1 sr l, h).

(** The rest of the loop body, from [if self.minDistPhase1[n + 1] == 0 and
    n >= depthPhase1 - 5] on: a [return] of [solution], or the object the
    loop goes round again with. *)
Definition after_node (fuel : nat) (st : loop1) (sr : Search) (h : Z)
  : ctl verdict Search :=
  let n := l_n st in
  let depthPhase1 := l_depthPhase1 st in
  if (h =? 0) && (n >=? depthPhase1 - 5) then
    l ← lift (setitem (minDistPhase1 sr) (n + 1) 10);
    let sr := set_minDistPhase1 sr l in
    if n =? depthPhase1 - 1 then
      '(s, sr) ← call (totalDepth T fuel sr depthPhase1 maxDepth);
      '(s, sr) ← (if (s <? 0) && (maxDepth - depthPhase1 <=? 8)
                  then call (bidirectional_totalDepth T fuel sr depthPhase1 maxDepth)
                  else Next (s, sr));
      if s >=? 0 then
        accept ← (if s =? depthPhase1 then Next true
                  else a1 ← lift (getitem (ax sr) (depthPhase1 - 1));
                       a2 ← lift (getitem (ax sr) depthPhase1);
                       Next (negb (a1 =? a2) && negb (a1 =? a2 + 3)));
        if accept : bool then Return (Found sr s depthPhase1)
        else Next sr
      else Next sr
    else Next sr
  else Next sr.

(** The body of the main loop after the node is stored: the state the loop
    goes round with, when it does. *)
Definition next_round (fuel : nat) (st1 : loop1) : option loop1 :=
  match store_node st1 with
  | Ret (sr, h) =>
      match after_node fuel st1 sr h with
      | Next sr' =>
          Some (mkLoop1 sr' (l_n st1) (l_depthPhase1 st1) (l_busy st1)
                        (l_ticks st1))
      | _ => None
      end
  | Raise _ => None
  end.

(** The nodes that the generator yields to the main loop, in order, in
    [fuel] iterations from the state [st]: the nodes the search explores,
    however the loop ends. *)
Fixpoint explored (fuel : nat) (st : loop1) : list loop1 :=
  match fuel with
  | O => []
  | S fuel =>
      match next_node1 elapsed maxDepth timeOut fuel st with
      | Next st1 =>
          st1 :: match next_round fuel st1 with
                 | Some st' => explored fuel st'
                 | None => []
                 end
      | _ => []
      end
  end.

End Nodes.

(** [solution] from its first statement to the state it enters the main
    loop with. *)
Definition search_start (fe : Frontend) (self : Search) (facelets : string)
  : ctl verdict loop1 :=
  if negb (check_input facelets) then Return (Error "Error 1")
  else
    s ← lift (fe_verify fe facelets);
    if negb (s =? 0) then Return (Error ("Error " ++ pretty (Z.abs s)))
    else
      c ← lift (fe_coord fe facelets);
      l ← lift (setitem (po self) 0 0);
      let sr := set_po self l in
      l ← lift (setitem (ax sr) 0 0);
      let sr := set_ax sr l in
      l ← lift (setitem (flip sr) 0 (c_flip c));
      let sr := set_flip sr l in
      l ← lift (setitem (twist sr) 0 (c_twist c));
      let sr := set_twist sr l in
      l ← lift (setitem (parity sr) 0 (c_parity c));
      let sr := set_parity sr l in
      l ← lift (setitem (slice sr) 0 (c_FRtoBR c `div` 24));
      let sr := set_slice sr l in
      l ← lift (setitem (URFtoDLF sr) 0 (c_URFtoDLF c));
      let sr := set_URFtoDLF sr l in
      l ← lift (setitem (FRtoBR sr) 0 (c_FRtoBR c));
      let sr := set_FRtoBR sr l in
      l ← lift (setitem (URtoUL sr) 0 (c_URtoUL c));
      let sr := set_URtoUL sr l in
      l ← lift (setitem (UBtoDF sr) 0 (c_UBtoDF c));
      let sr := set_UBtoDF sr l in
      l ← lift (setitem (minDistPhase1 sr) 1 1);
      let sr := set_minDistPhase1 sr l in
      Next (mkLoop1 sr 0 1 false 0).
End SearchNodes.

(** ** Small tables on which the definitions can be run *)
Module Example.
Import Py Coordcube Search SearchNodes.

Definition zrow : list Z := repeat_list 0 18.

(** One flip class leaves the goal under U and comes back under the other
    faces; parity is the only phase-2 coordinate that moves. *)
Definition tables : Tables :=
  mkTables [zrow]
           [[1;1;1;0;0;0;0;0;0;0;0;0;0;0;0;0;0;0]; zrow]
           [zrow] [zrow] [zrow] [zrow] [zrow] [[0]]
           [0x10] [0x10] [0] (repeat_list 0 247 ++ [0x20]).

Definition frontend : Frontend :=
  mkFrontend (fun _ => Ret 0) (fun _ => Ret (mkCoord 0 0 0 0 0 0 0 0)).

Definition solved_facelets : string :=
  "UUUUUUUUURRRRRRRRRFFFFFFFFFDDDDDDDDDLLLLLLLLLBBBBBBBBB".

(** Three flip classes: class 2 reaches class 1 under U only, and class 1
    reaches the goal under D only, so phase 1 needs U and then D. *)
Definition tables_UD : Tables :=
  mkTables [zrow]
           [zrow;
            [1;1;1;1;1;1;1;1;1;0;1;1;1;1;1;1;1;1];
            [1;2;2;2;2;2;2;2;2;2;2;2;2;2;2;2;2;2]]
           [zrow] [zrow] [zrow] [zrow] [zrow] [[0]]
           [0x10] [0x10] [0]
           (repeat_list 0 247 ++ [0x20] ++ repeat_list 0 247 ++ [0x03]).

Definition frontend_UD : Frontend :=
  mkFrontend (fun _ => Ret 0) (fun _ => Ret (mkCoord 0 2 0 0 0 0 0 0)).

(** The arrays the two example searches end with. *)
Definition found_RU : Search :=
  Eval vm_compute in
    match solution_search tables (fun _ => 0) frontend 60 init
            solved_facelets 24 1000 with
    | Return (Found sr _ _) => sr
    | _ => init
    end.









(** The R U example: the state of the main loop after the three powers of
    U, the node R that the generator yields next, and what [store_node]
    makes of it. *)
Definition before_R : loop1 :=
  Eval vm_compute in
    let go fuel st :=
      match next_node1 (fun _ => 0) 24 1000 fuel st with
      | Next st1 => default st (next_round tables 24 fuel st1)
      | _ => st
      end in
    match search_start frontend init solved_facelets with
    | Next st => go 57%nat (go 58%nat (go 59%nat st))
    | _ => mkLoop1 init 0 1 false 0
    end.

Definition node_R : loop1 :=
  Eval vm_compute in
    match next_node1 (fun _ => 0) 24 1000 56 before_R with
    | Next st1 => st1
    | _ => before_R
    end.

Definition stored_R : Search :=
  Eval vm_compute in
    match store_node tables node_R with
    | Ret (sr, _) => sr
    | _ => init
    end.

End Example.

(** ** [coordcube.py]: the index cache and the cache files *)
Module CoordcubeCache.
Import Py Coordcube.

(** [getPruning_cached(table, index, cache={})]: the default argument is one
    dictionary for all calls, keyed by the index alone. *)
Definition getPruning_cached (bytes : byte_cache) (cache : gmap Z Z)
    (table : pylist) (index : Z) : res (Z * byte_cache * gmap Z Z) :=
  match cache !! index with
  | Some r => Ret (r, bytes, cache)
  | None =>
      '(result, bytes') ← getPruning bytes table index;
      Ret (result, bytes',
           if Z.of_nat (size cache) <? 10000 then <[index := result]> cache
           else cache)
  end.

(** [range(a, b)] *)
Definition range_from (a b : Z) : list Z := map (fun k => a + k) (range (b - a)).

(** [rle_compress(data)] *)
Definition rle_compress {A} `{EqDecision A} (data : list A) : res (list (A * Z)) :=
  '(compressed, count) ← foldM (fun '(compressed, count) i =>
      x ← getitem data i;
      y ← getitem data (i - 1);
      if decide (x = y) then Ret (compressed, count + 1)
      else Ret (compressed ++ [(y, count)], 1))
    (range_from 1 (Z.of_nat (length data))) ([], 1);
  last ← getitem data (-1);
  Ret (compressed ++ [(last, count)]).

(** [rle_decompress(compressed)] *)
Definition rle_decompress {A} (compressed : list (A * Z)) : list A :=
  fold_left (fun decompressed '(val, cnt) => decompressed ++ repeat_list val cnt)
            compressed [].

(** What a cache file holds once unpickled: a table as the original caches
    store it, or the list of [(value, count)] tuples that [dump_cachetable]
    writes. *)
Inductive pickled (A : Type) : Type :=
  | Table (rows : list A)
  | Runs (runs : list (A * Z)).
Arguments Table {A} rows.
Arguments Runs {A} runs.

(** The cache directory, by file name. *)
Abbreviation cache_dir A := (gmap string (pickled A)).

Definition file_of (name : string) : string := (name +:+ ".pkl")%string.

(** [dump_cachetable(obj, name)] *)
Definition dump_cachetable {A} `{EqDecision A} (fs : cache_dir A)
    (obj : list A) (name : string) : res (cache_dir A) :=
  compressed ← rle_compress obj;
  Ret (<[file_of name := Runs compressed]> fs).

(** [load_cachetable(name)]: [None] when the file cannot be opened. Only
    [IOError] is caught, so the [IndexError] of [obj[0]] on an empty list
    gets out. *)
Definition load_cachetable {A} (fs : cache_dir A) (name : string)
  : res (option (pickled A)) :=
  match fs !! file_of name with
  | None => Ret None
  | Some obj =>
      if decide (name = "URtoDF_Move"%string) then
        match obj with
        | Table [] | Runs [] => Raise IndexError
        | Table (_ :: _) => Ret (Some obj)
        | Runs (r :: runs) => Ret (Some (Table (rle_decompress (r :: runs))))
        end
      else Ret (Some obj)
  end.

End CoordcubeCache.

(** ** [coordcube.py]: building [Slice_Twist_Prun] *)
Module CoordcubeFill.
Import Py Coordcube.

Section Fill.
Variable T : Tables.

(** The state of the fill: the table, the byte cache and [done]. *)
Definition fill_state : Type := pylist * byte_cache * Z.

(** The body of [for j in range(18)]. *)
Definition fill_move (depth twist _slice : Z) (st : fill_state) (j : Z)
  : res fill_state :=
  let '(table, cache, done) := st in
  x ← getitem2 (FRtoBR_Move T) (_slice * 24) j;
  let newSlice := x `div` 24 in
  newTwist ← getitem2 (twistMove T) twist j;
  '(v, cache) ← getPruning cache table (N_SLICE1 * newTwist + newSlice);
  if v =? 0x0f then
    '(table, cache) ← setPruning cache table (N_SLICE1 * newTwist + newSlice)
                                 (Z.land (depth + 1) 0xff);
    Ret (table, cache, done + 1)
  else Ret (table, cache, done).

(** The body of [for i in range(N_SLICE1 * N_TWIST)]. *)
Definition fill_entry (depth : Z) (st : fill_state) (i : Z) : res fill_state :=
  let '(table, cache, done) := st in
  let twist := i `div` N_SLICE1 in
  let _slice := i `mod` N_SLICE1 in
  '(v, cache) ← getPruning cache table i;
  if v =? depth then
    foldM (fill_move depth twist _slice) (range 18) (table, cache, done)
  else Ret (table, cache, done).

(** [while (done != N_SLICE1 * N_TWIST)]: [None] when the fuel runs out. *)
Fixpoint fill_loop (fuel : nat) (depth : Z) (st : fill_state)
  : option (res fill_state) :=
  match fuel with
  | O => None
  | S fuel =>
      if st.2 =? N_SLICE1 * N_TWIST then Some (Ret st)
      else match foldM (fill_entry depth) (range (N_SLICE1 * N_TWIST)) st with
           | Raise e => Some (Raise e)
           | Ret st' => fill_loop fuel (depth + 1) st'
           end
  end.

(** The branch taken when no cached [Slice_Twist_Prun] is found, up to the
    call of [dump_cachetable]; [id] is the identity of the new list. *)
Definition fill_Slice_Twist_Prun (fuel : nat) (id : Z) (cache : byte_cache)
  : option (res fill_state) :=
  let table := mkList id alloc_Slice_Twist_Prun in
  match setPruning cache table 0 0 with
  | Raise e => Some (Raise e)
  | Ret (table, cache) => fill_loop fuel 0 (table, cache, 1)
  end.

End Fill.
End CoordcubeFill.

(** ** [coordcube.py]: moves on coordinates and the inverse tables *)
Module CoordcubeMoves.
Import Py Coordcube.

(** [CoordCube.move(m)]: the coordinates after the move. (When a table
    read raises, the object keeps the fields assigned before it; the model
    gives the exception alone.) *)
Definition move (T : Tables) (c : CoordCube) (m : Z) : res CoordCube :=
  twist ← getitem2 (twistMove T) (c_twist c) m;
  flip ← getitem2 (flipMove T) (c_flip c) m;
  parity ← getitem2 parityMove (c_parity c) m;
  frtobr ← getitem2 (FRtoBR_Move T) (c_FRtoBR c) m;
  urftodlf ← getitem2 (URFtoDLF_Move T) (c_URFtoDLF c) m;
  urtoul ← getitem2 (URtoUL_Move T) (c_URtoUL c) m;
  ubtodf ← getitem2 (UBtoDF_Move T) (c_UBtoDF c) m;
  urtodf ← (if Z.lor urtoul ubtodf <? 336
            then getitem2 (MergeURtoULandUBtoDF T) urtoul ubtodf
            else Ret (c_URtoDF c));
  Ret (mkCoord twist flip parity frtobr urftodlf urtoul ubtodf urtodf).

(** [inverse_move] *)
Definition inverse_move : list Z :=
  [2; 1; 0; 5; 4; 3; 8; 7; 6; 11; 10; 9; 14; 13; 12; 17; 16; 15].

(** The body of the loop that fills one inverse table: [inverse] starts as
    [size] rows of [N_MOVE] zeros. *)
Definition build_inverse (forward : list (list Z)) (size : Z)
  : res (list (list Z)) :=
  foldM (fun inverse i =>
    foldM (fun inverse m =>
        new_state ← getitem2 forward i m;
        inv_m ← getitem inverse_move m;
        if (0 <=? new_state) && (new_state <? Z.of_nat (length inverse)) then
          row0 ← getitem inverse 0;
          if (0 <=? inv_m) && (inv_m <? Z.of_nat (length row0)) then
            row ← getitem inverse new_state;
            row' ← setitem row inv_m i;
            setitem inverse new_state row'
          else Ret inverse
        else Ret inverse)
      (range N_MOVE) inverse)
    (range size) (repeat_list (repeat_list 0 N_MOVE) size).

End CoordcubeMoves.

(** ** [search.py]: delta coding of move tables *)
Module SearchCompress.
Import Py.

(** [compress_move_table(table)] *)
Definition compress_move_table (table : list (list Z))
  : res (list (Z * list Z)) :=
  foldM (fun compressed row =>
      base ← getitem row 0;
      let deltas := map (fun v => v - base) row in
      Ret (compressed ++ [(base, deltas)]))
    table [].

(** [decompress_move_table(compressed)] *)
Definition decompress_move_table (compressed : list (Z * list Z))
  : list (list Z) :=
  fold_left (fun table '(base, deltas) =>
      let row := map (fun d => base + d) deltas in
      table ++ [row])
    compressed [].

End SearchCompress.

(** ** [bit_tables.py]: binomial and factorial tables *)
Module BitTables.
Import Py.

(** [_CNK_TABLE], a dict of dicts. *)
Abbreviation cnk_table := (gmap Z (gmap Z Z)).

(** [table[n][k]] *)
Definition cnk_get (table : cnk_table) (n k : Z) : res Z :=
  match table !! n with
  | Some row => match row !! k with Some v => Ret v | None => Raise KeyError end
  | None => Raise KeyError
  end.

(** [table[n][k] = v] *)
Definition cnk_set (table : cnk_table) (n k v : Z) : res cnk_table :=
  match table !! n with
  | Some row => Ret (<[n := <[k := v]> row]> table)
  | None => Raise KeyError
  end.

(** [_precompute_cnk(max_n)] on the table it updates. *)
Definition _precompute_cnk (max_n : Z) (table : cnk_table) : res cnk_table :=
  foldM (fun table n =>
      let table := <[n := ∅]> table in
      foldM (fun table k =>
          if (k =? 0) || (k =? n) then cnk_set table n k 1
          else if k >? n `div` 2 then
            v ← cnk_get table n (n - k); cnk_set table n k v
          else
            let result :=
              fold_left (fun result i => (result * (n - i)) `div` (i + 1))
                        (range k) 1 in
            cnk_set table n k result)
        (range (n + 1)) table)
    (range (max_n + 1)) table.

(** [fast_cnk(n, k)] *)
Definition fast_cnk (table : cnk_table) (n k : Z) : Z :=
  if (k >? n) || (k <? 0) then 0
  else default 0 (default ∅ (table !! n) !! k).

(** [_FACTORIAL] *)
Definition _FACTORIAL : list Z :=
  [1; 1; 2; 6; 24; 120; 720; 5040; 40320; 362880; 3628800; 39916800;
   479001600].

(** [fast_factorial(n)] *)
Definition fast_factorial (n : Z) : res (option Z) :=
  if n <? Z.of_nat (length _FACTORIAL)
  then x ← getitem _FACTORIAL n; Ret (Some x)
  else Ret None.

End BitTables.

(** ** [tools.py] and [__init__.py]: the entry point *)
Module Solve.
Import Py Coordcube Search.

(** [str.strip()]: the white space it removes at both ends, for the ASCII
    characters that the strings of [solution] are made of. *)
Definition is_space (c : ascii) : bool :=
  let n := N_of_ascii c in
  ((9 <=? n) && (n <=? 13) || (28 <=? n) && (n <=? 32))%N.

Fixpoint lstrip (s : string) : string :=
  match s with
  | EmptyString => EmptyString
  | String c s' => if is_space c then lstrip s' else s
  end.

Fixpoint rstrip (s : string) : string :=
  match s with
  | EmptyString => EmptyString
  | String c s' =>
      match rstrip s' with
      | EmptyString => if is_space c then EmptyString else String c EmptyString
      | r => String c r
      end
  end.

Definition strip (s : string) : string := rstrip (lstrip s).

(** What a call of [solve] comes to: the string returned, a [ValueError]
    with its message, another exception, or no answer within the iteration
    budget. *)
Inductive outcome : Type :=
  | Solved (moves : string)
  | ValueError (msg : string)
  | Raised (e : exn)
  | Unfinished.

Section Entry.
Variable T : Tables.
Variable elapsed : nat -> Z.
Variable fe : Frontend.

(** [tools.verify(s)]: the colour count of [solution] again, then
    [FaceCube(s).toCubieCube().verify()]. *)
Definition verify (s : string) : res Z :=
  if negb (check_input s) then Ret (-1) else fe_verify fe s.

(** [solve(facelets, max_depth, timeOut)] *)
Definition solve (fuel : nat) (facelets : string) (max_depth timeOut : Z)
  : outcome :=
  match verify facelets with
  | Raise e => Raised e
  | Ret err =>
      if negb (err =? 0) then
        ValueError ("Cube definition invalid, verify() error code "
                    ++ pretty err)
      else
        match solution T elapsed fe fuel init facelets max_depth timeOut false
        with
        | Exn e => Raised e
        | Return result =>
            let result := strip result in
            if String.prefix "Error" result then ValueError result
            else Solved result
        | Next v => match v with end
        | OutOfFuel => Unfinished
        end
  end.

End Entry.
End Solve.

(** * Properties *)

(** ** Python lists *)
Module PyFacts.
Import Py.

Lemma norm_index_nonneg {A} (l : list A) (i : Z) :
  0 <= i < Z.of_nat (length l) -> norm_index l i = Some (Z.to_nat i).
Proof.
  intros H. unfold norm_index.
  destruct (0 <=? i) eqn:E1; [|lia].
  destruct (i <? Z.of_nat (length l)) eqn:E2; [reflexivity|lia].
Qed.

Lemma norm_index_high {A} (l : list A) (i : Z) :
  Z.of_nat (length l) <= i -> norm_index l i = None.
Proof.
  intros H. unfold norm_index.
  destruct (i <? Z.of_nat (length l)) eqn:E2; [lia|].
  rewrite andb_false_r.
  destruct (i <? 0) eqn:E3; [lia|]. now rewrite andb_false_r.
Qed.

Lemma norm_index_lt {A} (l : list A) (i : Z) (k : nat) :
  norm_index l i = Some k -> (k < length l)%nat.
Proof.
  unfold norm_index. intros H.
  destruct ((0 <=? i) && (i <? Z.of_nat (length l))) eqn:E1.
  - injection H as <-. apply andb_true_iff in E1. lia.
  - destruct ((- Z.of_nat (length l) <=? i) && (i <? 0)) eqn:E2; [|discriminate].
    injection H as <-. apply andb_true_iff in E2. lia.
Qed.

Lemma norm_index_insert {A} (l : list A) (k : nat) (v : A) (i : Z) :
  norm_index (<[k := v]> l) i = norm_index l i.
Proof. unfold norm_index. now rewrite length_insert. Qed.

Lemma getitem_nonneg {A} (l : list A) (i : Z) (x : A) :
  0 <= i -> getitem l i = Ret x <-> l !! Z.to_nat i = Some x.
Proof.
  intros Hi. unfold getitem. split.
  - destruct (norm_index l i) as [k|] eqn:E; [|discriminate].
    destruct (l !! k) as [y|] eqn:E'; [|discriminate].
    intros [= ->]. apply norm_index_lt in E as Hk.
    unfold norm_index in E.
    destruct ((0 <=? i) && (i <? Z.of_nat (length l))) eqn:E1.
    + now injection E as <-.
    + apply andb_false_iff in E1.
      destruct (i <? 0) eqn:E2; [lia|]. now rewrite andb_false_r in E.
  - intros Hl. rewrite norm_index_nonneg.
    + now rewrite Hl.
    + apply lookup_lt_Some in Hl. lia.
Qed.

Lemma getitem_high {A} (l : list A) (i : Z) :
  Z.of_nat (length l) <= i -> getitem l i = Raise IndexError.
Proof. intros H. unfold getitem. now rewrite norm_index_high. Qed.

Lemma setitem_nonneg {A} (l l' : list A) (i : Z) (v : A) :
  0 <= i -> setitem l i v = Ret l' ->
  l' = <[Z.to_nat i := v]> l /\ i < Z.of_nat (length l).
Proof.
  intros Hi. unfold setitem.
  destruct (norm_index l i) as [k|] eqn:E; [|discriminate].
  intros [= <-]. unfold norm_index in E.
  destruct ((0 <=? i) && (i <? Z.of_nat (length l))) eqn:E1.
  - injection E as <-. apply andb_true_iff in E1. split; [reflexivity|lia].
  - destruct (i <? 0) eqn:E2; [lia|]. now rewrite andb_false_r in E.
Qed.

Lemma getitem_setitem_same {A} (l l' : list A) (i : Z) (v : A) :
  setitem l i v = Ret l' -> getitem l' i = Ret v.
Proof.
  unfold setitem, getitem.
  destruct (norm_index l i) as [k|] eqn:E; [|discriminate].
  intros [= <-]. rewrite norm_index_insert, E.
  rewrite list_lookup_insert_eq; [reflexivity|].
  now apply norm_index_lt in E.
Qed.

Lemma getitem_setitem_other {A} (l l' : list A) (i j : Z) (v : A) :
  0 <= i -> 0 <= j -> i <> j ->
  setitem l i v = Ret l' -> getitem l' j = getitem l j.
Proof.
  intros Hi Hj Hne H. apply setitem_nonneg in H as [-> _]; [|assumption].
  unfold getitem. rewrite norm_index_insert.
  destruct (norm_index l j) as [k|] eqn:E; [|reflexivity].
  assert (k = Z.to_nat j) as ->.
  { unfold norm_index in E.
    destruct ((0 <=? j) && (j <? Z.of_nat (length l))) eqn:E1.
    - now injection E.
    - destruct (j <? 0) eqn:E2; [lia|]. now rewrite andb_false_r in E. }
  rewrite list_lookup_insert_ne; [reflexivity|lia].
Qed.

Lemma length_repeat_list {A} (x : A) (n : Z) :
  0 <= n -> Z.of_nat (length (repeat_list x n)) = n.
Proof. intros H. unfold repeat_list. rewrite length_replicate. lia. Qed.

Lemma getitem_repeat_list {A} (x : A) (n i : Z) :
  0 <= i < n -> getitem (repeat_list x n) i = Ret x.
Proof.
  intros H. apply getitem_nonneg; [lia|]. unfold repeat_list.
  apply lookup_replicate_2. lia.
Qed.

Lemma getitem_repeat_list_high {A} (x : A) (n i : Z) :
  0 <= n <= i -> getitem (repeat_list x n) i = Raise IndexError.
Proof. intros H. apply getitem_high. rewrite length_repeat_list; lia. Qed.

Lemma length_range (n : Z) : Z.of_nat (length (range n)) = Z.max 0 n.
Proof. unfold range. rewrite length_map, length_seq. lia. Qed.

Lemma elem_of_range (n i : Z) : i ∈ range n <-> 0 <= i < n.
Proof.
  unfold range. rewrite list_elem_of_fmap. split.
  - intros (k & -> & Hk). apply elem_of_seq in Hk. lia.
  - intros Hi. exists (Z.to_nat i). split; [lia|]. apply elem_of_seq. lia.
Qed.

End PyFacts.

(** ** [bitcube.py] *)
Module BitcubeFacts.
Import Py Bitcube PyFacts.

Definition solved_cubie : CubieCube :=
  mkCubie (range 8) (repeat_list 0 8) (range 12) (repeat_list 0 12).

(** The modelled move cubes are face turns: four quarter turns of any face
    give the solved cube back. *)
Lemma moveCube_order_four :
  forall axis, 0 <= axis < 6 ->
    (c ← getitem moveCube axis;
     foldM (fun acc _ => multiply acc c) (range 4) solved_cubie) = Ret solved_cubie.
Proof.
  intros axis H.
  assert (axis = 0 \/ axis = 1 \/ axis = 2 \/ axis = 3 \/ axis = 4 \/ axis = 5)
    as Hc by lia.
  destruct Hc as [-> | [-> | [-> | [-> | [-> | ->]]]]]; vm_compute; reflexivity.
Qed.

(** Packing the solved cube gives the all-zero triple. *)
Lemma from_cubiecube_solved : from_cubiecube solved_cubie = Ret (mkBit 0 0 0).
Proof. vm_compute. reflexivity. Qed.

(** *** Lehmer codes

    [perm_to_int] tracks the elements seen in [used]; the elements still to
    come are the unmarked numbers below [n], in increasing order, which is
    the list [elems] that [int_to_perm] pops from. *)

Definition unused (used : list bool) (y : Z) : bool :=
  match used !! Z.to_nat y with
  | Some u => negb u
  | None => false
  end.

Definition zseq (k : nat) (len : nat) : list Z := map Z.of_nat (seq k len).

Definition elems_of (used : list bool) (n : nat) : list Z :=
  List.filter (unused used) (zseq 0 n).

Lemma range_zseq (n : nat) : range (Z.of_nat n) = zseq 0 n.
Proof. unfold range, zseq. now rewrite Nat2Z.id. Qed.

Lemma zseq_S (k len : nat) : zseq k (S len) = zseq k len ++ [Z.of_nat (k + len)].
Proof. unfold zseq. rewrite seq_S, map_app. reflexivity. Qed.

Lemma zseq_split (k a b : nat) : zseq k (a + b) = zseq k a ++ zseq (k + a) b.
Proof. unfold zseq. rewrite seq_app, map_app. reflexivity. Qed.

Lemma elem_of_zseq (k len : nat) (y : Z) :
  y ∈ zseq k len <-> Z.of_nat k <= y < Z.of_nat (k + len).
Proof.
  unfold zseq. rewrite list_elem_of_fmap. split.
  - intros (j & -> & Hj). apply elem_of_seq in Hj. lia.
  - intros H. exists (Z.to_nat y). split; [lia|]. apply elem_of_seq. lia.
Qed.

Lemma foldM_app {A S} (f : S -> A -> res S) (l1 l2 : list A) (s : S) :
  foldM f (l1 ++ l2) s = (s' ← foldM f l1 s; foldM f l2 s').
Proof.
  revert s. induction l1 as [|x l1 IH]; intros s; cbn; [reflexivity|].
  destruct (f s x); cbn; [reflexivity|apply IH].
Qed.

Fixpoint factZ (k : nat) : Z :=
  match k with
  | O => 1
  | S k' => Z.of_nat k * factZ k'
  end.

Lemma factZ_pos (k : nat) : 0 < factZ k.
Proof. induction k as [|k IH]; cbn [factZ]; lia. Qed.

Lemma factorial_lookup (k : nat) :
  (k <= 12)%nat -> getitem _factorial (Z.of_nat k) = Ret (factZ k).
Proof.
  intros H.
  do 13 (destruct k as [|k]; [vm_compute; reflexivity|]). lia.
Qed.

Lemma getitem_used (used : list bool) (y : Z) :
  0 <= y < Z.of_nat (length used) ->
  exists u, getitem used y = Ret u /\ unused used y = negb u.
Proof.
  intros H. destruct (used !! Z.to_nat y) as [u|] eqn:E.
  - exists u. split; [apply getitem_nonneg; [lia|assumption]|].
    unfold unused. now rewrite E.
  - apply lookup_ge_None in E. lia.
Qed.

Lemma count_unused_spec (used : list bool) (k : nat) :
  (k <= length used)%nat ->
  count_unused used (Z.of_nat k)
    = Ret (Z.of_nat (length (List.filter (unused used) (zseq 0 k)))).
Proof.
  unfold count_unused. rewrite range_zseq. induction k as [|k IH]; intros Hk.
  - reflexivity.
  - rewrite zseq_S, foldM_app, IH by lia. cbn [mbind res_bind foldM].
    destruct (getitem_used used (Z.of_nat (0 + k))) as (u & -> & Hu); [lia|].
    cbn [mbind res_bind mret res_ret]. f_equal.
    rewrite List.filter_app, length_app. cbn [List.filter]. rewrite Hu.
    destruct u; cbn [negb length]; lia.
Qed.

Lemma pop_middle {A} (l1 l2 : list A) (x : A) :
  pop (l1 ++ x :: l2) (Z.of_nat (length l1)) = Ret (x, l1 ++ l2).
Proof.
  unfold pop. rewrite norm_index_nonneg by (rewrite length_app; cbn; lia).
  rewrite Nat2Z.id, list_lookup_middle by reflexivity.
  rewrite take_app_length. 
  replace (drop (S (length l1)) (l1 ++ x :: l2)) with l2; [reflexivity|].
  change (l1 ++ x :: l2) with (l1 ++ [x] ++ l2).
  rewrite app_assoc.
  rewrite drop_app_length'; [reflexivity|]. rewrite length_app. cbn. lia.
Qed.

Lemma filter_ext_in' (f g : Z -> bool) (l : list Z) :
  (forall y, y ∈ l -> f y = g y) -> List.filter f l = List.filter g l.
Proof.
  intros H. apply List.filter_ext_in. intros y Hy. apply H.
  now apply list_elem_of_In.
Qed.

Lemma unused_insert (used : list bool) (x y : nat) :
  x <> y -> unused (<[x := true]> used) (Z.of_nat y) = unused used (Z.of_nat y).
Proof.
  intros H. unfold unused. rewrite Nat2Z.id.
  now rewrite list_lookup_insert_ne.
Qed.

(** Marking an unused element as used removes it zseq the remaining
    elements, at the position that counts the smaller remaining ones. *)
Lemma elems_of_mark (used : list bool) (n x : nat) :
  (x < n)%nat -> unused used (Z.of_nat x) = true ->
  let l1 := List.filter (unused used) (zseq 0 x) in
  exists l2,
    elems_of used n = l1 ++ Z.of_nat x :: l2 /\
    elems_of (<[x := true]> used) n = l1 ++ l2.
Proof.
  intros Hx Hu l1. unfold elems_of.
  replace n with (x + (1 + (n - x - 1)))%nat by lia.
  rewrite !zseq_split, !List.filter_app. cbn [zseq seq map List.filter].
  rewrite Nat.add_0_l, Hu.
  exists (List.filter (unused used) (zseq (x + 1) (n - x - 1))).
  split; [reflexivity|].
  assert (unused (<[x := true]> used) (Z.of_nat x) = false) as ->.
  { unfold unused. rewrite Nat2Z.id.
    destruct (used !! x) as [u|] eqn:E.
    - rewrite list_lookup_insert_eq; [reflexivity|].
      now apply lookup_lt_Some in E.
    - unfold unused in Hu. rewrite Nat2Z.id, E in Hu. discriminate. }
  cbn [app]. f_equal.
  - apply filter_ext_in'. intros y Hy. apply elem_of_zseq in Hy.
    rewrite <- (Z2Nat.id y) by lia. apply unused_insert. lia.
  - apply filter_ext_in'. intros y Hy. apply elem_of_zseq in Hy.
    rewrite <- (Z2Nat.id y) by lia. apply unused_insert. lia.
Qed.

Definition enc_body (p : list Z) : Z * list bool -> Z -> res (Z * list bool) :=
  fun '(code, used) i =>
    pi ← getitem p i;
    smaller ← count_unused used pi;
    f ← getitem _factorial (Z.of_nat (length p) - 1 - i);
    used' ← setitem used pi true;
    Ret (code + smaller * f, used').

Definition dec_body : Z * list Z * list Z -> Z -> res (Z * list Z * list Z) :=
  fun '(code, elems, perm) i =>
    fact ← getitem _factorial i;
    let idx := code `div` fact in
    let code' := code `mod` fact in
    '(x, elems') ← pop elems idx;
    Ret (code', elems', perm ++ [x]).

Lemma enc_body_eq (p : list Z) (code : Z) (used : list bool) (i : Z) :
  enc_body p (code, used) i =
    (pi ← getitem p i;
     smaller ← count_unused used pi;
     f ← getitem _factorial (Z.of_nat (length p) - 1 - i);
     used' ← setitem used pi true;
     Ret (code + smaller * f, used')).
Proof. reflexivity. Qed.

Lemma dec_body_eq (code : Z) (elems perm : list Z) (i : Z) :
  dec_body (code, elems, perm) i =
    (fact ← getitem _factorial i;
     '(x, elems') ← pop elems (code `div` fact);
     Ret (code `mod` fact, elems', perm ++ [x])).
Proof. reflexivity. Qed.

Lemma perm_to_int_unfold (p : list Z) :
  perm_to_int p =
    ('(code, _) ← foldM (enc_body p) (range (Z.of_nat (length p)))
                     (0, repeat_list false (Z.of_nat (length p)));
     Ret code).
Proof. reflexivity. Qed.

Lemma int_to_perm_unfold (code n : Z) :
  int_to_perm code n =
    ('(_, _, perm) ← foldM dec_body (rev (range n)) (code, range n, []);
     Ret (rev perm)).
Proof. reflexivity. Qed.

Definition remaining (used : list bool) (n : nat) (q : list Z) : Prop :=
  forall x, x ∈ q <-> (0 <= x < Z.of_nat n /\ unused used x = true).

Lemma elem_of_elems_of (used : list bool) (n : nat) (y : Z) :
  y ∈ elems_of used n <-> (0 <= y < Z.of_nat n /\ unused used y = true).
Proof.
  unfold elems_of. rewrite list_elem_of_In, List.filter_In, <- list_elem_of_In.
  rewrite elem_of_zseq. intuition lia.
Qed.

Lemma NoDup_elems_of (used : list bool) (n : nat) : NoDup (elems_of used n).
Proof.
  unfold elems_of, zseq. apply NoDup_ListNoDup, List.NoDup_filter, NoDup_ListNoDup.
  apply (NoDup_fmap_2 Z.of_nat). apply NoDup_seq.
Qed.

Lemma length_elems_of (used : list bool) (n : nat) (q : list Z) :
  NoDup q -> remaining used n q -> length (elems_of used n) = length q.
Proof.
  intros Hnd Hq. apply Permutation_length, NoDup_Permutation.
  - apply NoDup_elems_of.
  - assumption.
  - intros y. rewrite elem_of_elems_of. symmetry. apply Hq.
Qed.

Lemma lehmer_steps (n : nat) :
  (n <= 13)%nat ->
  forall (q done : list Z) (used : list bool) (acc : list Z) (c0 : Z),
    length used = n -> (length done + length q = n)%nat ->
    NoDup q -> remaining used n q ->
    exists code used' c e,
      0 <= code < factZ (length q) /\
      foldM (enc_body (done ++ q)) (zseq (length done) (length q)) (c0, used)
        = Ret (c0 + code, used') /\
      foldM dec_body (rev (zseq 0 (length q))) (code, elems_of used n, acc)
        = Ret (c, e, acc ++ q).
Proof.
  intros Hn. induction q as [|x q IH]; intros done used acc c0 Hu Hlen Hnd Hq.
  - exists 0, used, 0, (elems_of used n). cbn. rewrite Z.add_0_r, app_nil_r.
    repeat split; lia.
  - cbn [length] in *.
    destruct (proj1 (Hq x)) as [Hx Hux]; [left|].
    apply NoDup_cons in Hnd as [Hxq Hnd].
    set (xn := Z.to_nat x). assert (x = Z.of_nat xn) as Ex by lia.
    destruct (elems_of_mark used n xn) as (l2 & El & El'); [lia|congruence|].
    set (l1 := List.filter (unused used) (zseq 0 xn)) in *.
    pose proof (length_elems_of used n (x :: q) ltac:(now apply NoDup_cons) Hq)
      as Hlen1.
    rewrite El, length_app in Hlen1. cbn [length] in Hlen1.
    assert (remaining (<[xn := true]> used) n q) as Hq'.
    { intros y. split.
      - intros Hy. destruct (proj1 (Hq y)) as [Hy1 Hy2]; [now right|].
        split; [assumption|].
        rewrite <- (Z2Nat.id y) by lia. rewrite unused_insert.
        + now rewrite Z2Nat.id by lia.
        + intros E. apply Hxq. replace x with y by lia. assumption.
      - intros [Hy1 Hy2].
        assert (y <> x) as Hne.
        { intros ->. unfold unused in Hy2. fold xn in Hy2.
          destruct (used !! xn) as [u|] eqn:E.
          - rewrite list_lookup_insert_eq in Hy2; [discriminate|].
            now apply lookup_lt_Some in E.
          - rewrite list_lookup_insert_ne in Hy2.
            all: apply lookup_ge_None in E; lia. }
        rewrite <- (Z2Nat.id y) in Hy2 by lia.
        rewrite unused_insert in Hy2 by lia. rewrite Z2Nat.id in Hy2 by lia.
        pose proof (proj2 (Hq y) (conj Hy1 Hy2)) as Hin.
        apply elem_of_cons in Hin as [?|?]; [contradiction|assumption]. }
    set (d := Z.of_nat (length l1)).
    set (f := factZ (length q)).
    destruct (IH (done ++ [x]) (<[xn := true]> used) (acc ++ [x]) (c0 + d * f))
      as (code & used' & c & e & Hc & Henc & Hdec).
    { now rewrite length_insert. }
    { rewrite length_app. cbn. lia. }
    { assumption. }
    { assumption. }
    assert (0 < f) as Hf by apply factZ_pos.
    exists (d * f + code), used', c, e. split; [|split].
    + split; [nia|]. cbn [factZ]. fold f in Hc. fold f. nia.
    + cbn [zseq seq map foldM]. rewrite enc_body_eq.
      assert (getitem (done ++ x :: q) (Z.of_nat (length done)) = Ret x) as ->.
      { apply getitem_nonneg; [lia|]. rewrite Nat2Z.id.
        now apply list_lookup_middle. }
      cbn [mbind res_bind]. rewrite Ex at 1.
      rewrite count_unused_spec by lia. cbn [mbind res_bind]. fold l1. fold d.
      replace (Z.of_nat (length (done ++ x :: q)) - 1 - Z.of_nat (length done))
        with (Z.of_nat (length q)) by (rewrite length_app; cbn [length]; lia).
      rewrite factorial_lookup by lia. cbn [mbind res_bind]. fold f.
      unfold setitem. rewrite norm_index_nonneg by lia. cbn [mbind res_bind].
      fold xn. rewrite length_app in Henc. cbn [length] in Henc.
      rewrite <- app_assoc in Henc. cbn [app] in Henc.
      replace (length done + 1)%nat with (S (length done)) in Henc by lia.
      unfold zseq in *. rewrite Henc. f_equal. f_equal. lia.
    + change (zseq 0 (S (length q))) with (map Z.of_nat (seq 0 (S (length q)))).
      rewrite seq_S, map_app, rev_app_distr. cbn [map rev app foldM Nat.add].
      rewrite dec_body_eq, factorial_lookup by lia.
      cbn [mbind res_bind]. fold f.
      assert ((d * f + code) `div` f = d) as ->.
      { rewrite Z.div_add_l by lia. rewrite Z.div_small by lia. lia. }
      assert ((d * f + code) `mod` f = code) as ->.
      { rewrite Z.add_comm, Z.mod_add by lia. apply Z.mod_small. lia. }
      rewrite El. unfold d. rewrite pop_middle. cbn [mbind res_bind].
      rewrite <- Ex, <- El'. unfold zseq in Hdec. rewrite Hdec.
      now rewrite <- app_assoc.
Qed.

Lemma rev_neq_of_NoDup (p : list Z) :
  NoDup p -> (2 <= length p)%nat -> rev p <> p.
Proof.
  intros Hnd Hlen E.
  destruct p as [|x p]; [cbn in Hlen; lia|].
  destruct p as [|y p _] using rev_ind; [cbn in Hlen; lia|].
  cbn [rev] in E. rewrite rev_app_distr in E. cbn in E.
  injection E as E1 _. subst y.
  apply NoDup_cons in Hnd as [Hx _]. apply Hx.
  apply elem_of_app. right. now left.
Qed.

(** C10 (code as written): [int_to_perm] ends with [perm.reverse()]
    although its loop already emits the most significant digit first, so
    for every permutation of [0 .. n-1] with [n <= 13] (the factorial table
    has thirteen entries) decoding the rank gives the permutation backwards;
    as soon as there are two elements this is not the permutation that was
    packed. *)
Theorem int_to_perm_perm_to_int_reverses (p : list Z) :
  (2 <= length p <= 13)%nat ->
  p ≡ₚ range (Z.of_nat (length p)) ->
  (c ← perm_to_int p; int_to_perm c (Z.of_nat (length p))) = Ret (rev p) /\
  (c ← perm_to_int p; int_to_perm c (Z.of_nat (length p))) <> Ret p.
Proof.
  intros [Hlen2 Hlen] Hperm.
  assert (NoDup p) as Hnd.
  { rewrite Hperm, range_zseq. apply (NoDup_fmap_2 Z.of_nat), NoDup_seq. }
  assert (elems_of (replicate (length p) false) (length p) = zseq 0 (length p))
    as Hall.
  { unfold elems_of. rewrite <- (List.filter_ext_in (fun _ => true)).
    - clear. induction (zseq 0 (length p)); cbn; congruence.
    - intros y Hy%list_elem_of_In%elem_of_zseq. unfold unused.
      rewrite lookup_replicate_2; [reflexivity|lia]. }
  destruct (lehmer_steps (length p) Hlen p [] (replicate (length p) false) [] 0)
    as (code & used' & c & e & Hc & Henc & Hdec).
  { apply length_replicate. }
  { reflexivity. }
  { assumption. }
  { intros x. rewrite <- elem_of_range. split.
    - intros H. rewrite <- Hperm. split; [assumption|].
      rewrite Hperm in H. apply elem_of_range in H. unfold unused.
      rewrite lookup_replicate_2; [reflexivity|lia].
    - intros [H _]. now rewrite Hperm. }
  assert ((c ← perm_to_int p; int_to_perm c (Z.of_nat (length p))) = Ret (rev p))
    as Hrt.
  { rewrite perm_to_int_unfold. unfold repeat_list. rewrite Nat2Z.id, range_zseq.
    cbn [app length] in Henc. rewrite Henc. cbn [mbind res_bind].
    rewrite int_to_perm_unfold, range_zseq. rewrite Hall in Hdec.
    rewrite Z.add_0_l, Hdec. reflexivity. }
  split; [exact Hrt|].
  rewrite Hrt. intros [= E]. now apply (rev_neq_of_NoDup p).
Qed.

Lemma int_to_perm_perm_to_int_reverses_witness :
  (c ← perm_to_int [0; 1]; int_to_perm c 2) = Ret [1; 0] /\
  (c ← perm_to_int [0; 1]; int_to_perm c 2) <> Ret [0; 1].
Proof.
  apply (int_to_perm_perm_to_int_reverses [0; 1]).
  - cbn. lia.
  - vm_compute. reflexivity.
Defined.

(** The round trip on a three-element permutation and on the identity of
    the eight corners, evaluated. *)
Lemma lehmer_round_trip_examples :
  (c ← perm_to_int [1; 2; 0]; int_to_perm c 3) = Ret [0; 2; 1] /\
  (c ← perm_to_int (range 8); int_to_perm c 8) = Ret (rev (range 8)).
Proof. split; vm_compute; reflexivity. Qed.


(** C9 (code as written): on the packed solved cube and the quarter turn of
    U the fast multiply and the reference multiply give different triples;
    and for a three-quarter turn the index [axis * 3 + power % 3 - 1] is the
    entry before the axis' first one, which for U is the last entry of the
    table (the three-quarter turn of B). *)
Theorem multiply_native_differs_from_fallback :
  (d ← build_MOVE_DELTA moveCube; multiply_native d (mkBit 0 0 0) 0 1)
    = Ret (mkBit 9 9 0) /\
  (c ← power_cube moveCube 0 1; multiply_fallback (mkBit 0 0 0) c)
    = Ret (mkBit 25199 359251199 0) /\
  (d ← build_MOVE_DELTA moveCube; getitem d (0 * 3 + 3 `mod` 3 - 1))
    = (d ← build_MOVE_DELTA moveCube; getitem d 17).
Proof. repeat split; vm_compute; reflexivity. Qed.

(** The two multiplies disagree on the packed solved cube for every face and
    every power, not only for the quarter turn of U. *)
Lemma multiply_native_differs_on_every_move (axis power : Z) :
  0 <= axis < 6 -> 1 <= power <= 3 ->
  (d ← build_MOVE_DELTA moveCube; multiply_native d (mkBit 0 0 0) axis power)
    <> (c ← power_cube moveCube axis power; multiply_fallback (mkBit 0 0 0) c).
Proof.
  intros Ha Hp.
  assert (axis = 0 \/ axis = 1 \/ axis = 2 \/ axis = 3 \/ axis = 4 \/ axis = 5)
    as Hc by lia.
  assert (power = 1 \/ power = 2 \/ power = 3) as Hq by lia.
  destruct Hc as [-> | [-> | [-> | [-> | [-> | ->]]]]];
    destruct Hq as [-> | [-> | ->]];
    intros H; vm_compute in H; discriminate.
Qed.

End BitcubeFacts.

(** ** [coordcube.py]: pruning tables *)
Module CoordcubeFacts.
Import Py Coordcube PyFacts.

(** Tables as a finished fill or the shipped caches hold them: bytes. *)
Definition bytes_ok (table : list Z) : Prop :=
  Forall (fun b => 0 <= b < 256) table.

Lemma getitem_Forall {A} (P : A -> Prop) (l : list A) (i : Z) (x : A) :
  Forall P l -> getitem l i = Ret x -> P x.
Proof.
  intros HF. unfold getitem.
  destruct (norm_index l i) as [k|]; [|discriminate].
  destruct (l !! k) as [y|] eqn:E; [|discriminate].
  intros [= <-]. eapply Forall_lookup_1; eassumption.
Qed.

(** A nibble of a byte is a number from 0 to 15. *)
Lemma read_nibble_range (table : list Z) (i v : Z) :
  bytes_ok table -> read_nibble table i = Ret v -> 0 <= v <= 15.
Proof.
  intros HF. unfold read_nibble.
  destruct (getitem table (Z.shiftr i 1)) as [|b] eqn:E; [discriminate|].
  apply (getitem_Forall _ _ _ _ HF) in E. cbn.
  destruct (Z.land i 1 =? 0); intros [= <-].
  - assert (Z.land b 15 = b `mod` 16) as ->
      by (change 15 with (Z.ones 4); now rewrite Z.land_ones by lia).
    pose proof (Z.mod_pos_bound b 16). lia.
  - rewrite Z.shiftr_div_pow2 by lia. change (2 ^ 4) with 16.
    split; [apply Z.div_pos; lia|].
    assert (b `div` 16 < 16); [apply Z.div_lt_upper_bound; lia|lia].
Qed.

(** Reading through the byte cache gives what the table holds, and keeps
    the cache coherent, as long as the table is only read. *)
Lemma getPruning_coherent (cache cache' : byte_cache) (table : pylist) (i v : Z) :
  coherent cache table ->
  getPruning cache table i = Ret (v, cache') ->
  read_nibble (items table) i = Ret v /\ coherent cache' table.
Proof.
  intros Hc. unfold getPruning, read_nibble.
  destruct (cache !! (obj_id table, Z.shiftr i 1)) as [b|] eqn:E.
  - cbn. intros [= <- <-]. rewrite (Hc _ _ E). cbn. split; [reflexivity|exact Hc].
  - destruct (getitem (items table) (Z.shiftr i 1)) as [|b] eqn:Eg; [discriminate|].
    cbn. intros [= <- <-]. split; [reflexivity|].
    destruct (Z.of_nat (size cache) <? 200000); [|exact Hc].
    intros b' v' H.
    destruct (decide (b' = Z.shiftr i 1)) as [->|Hne].
    + rewrite lookup_insert_eq in H. now injection H as <-.
    + rewrite lookup_insert_ne in H by congruence. now apply Hc.
Qed.

(** The empty cache is coherent with every table. *)
Lemma coherent_empty (table : pylist) : coherent ∅ table.
Proof. intros b v H. now rewrite lookup_empty in H. Qed.

(** The three tables allocated as [[-1] * (N // 2)] have a byte for each of
    their [N] entries, and their even entries read 15 when fresh. *)
Lemma minus_one_tables_even (n i : Z) :
  0 <= i < 2 * n -> Z.land i 1 = 0 ->
  read_nibble (repeat_list (-1) n) i = Ret 15.
Proof.
  intros Hi He. unfold read_nibble.
  rewrite getitem_repeat_list.
  - cbn. now rewrite He.
  - rewrite Z.shiftr_div_pow2 by lia. change (2 ^ 1) with 2.
    split; [apply Z.div_pos; lia|apply Z.div_lt_upper_bound; lia].
Qed.

(** In those tables a fresh odd entry reads -1: the high nibble is taken by
    a shift, and [-1 >> 4] is [-1]. *)
Lemma minus_one_tables_odd (n i : Z) :
  0 <= i < 2 * n -> Z.land i 1 = 1 ->
  read_nibble (repeat_list (-1) n) i = Ret (-1).
Proof.
  intros Hi Ho. unfold read_nibble.
  rewrite getitem_repeat_list.
  - cbn. now rewrite Ho.
  - rewrite Z.shiftr_div_pow2 by lia. change (2 ^ 1) with 2.
    split; [apply Z.div_pos; lia|apply Z.div_lt_upper_bound; lia].
Qed.

(** A zero-filled table reads 0 at every entry it has a byte for. *)
Lemma zero_table_reads_zero (n i : Z) :
  0 <= i < 2 * n -> read_nibble (repeat_list 0 n) i = Ret 0.
Proof.
  intros Hi. unfold read_nibble.
  rewrite getitem_repeat_list.
  - cbn. now destruct (Z.land i 1 =? 0).
  - rewrite Z.shiftr_div_pow2 by lia. change (2 ^ 1) with 2.
    split; [apply Z.div_pos; lia|apply Z.div_lt_upper_bound; lia].
Qed.

(** A table of [n] bytes has no entry from [2 * n] on. *)
Lemma short_table_raises (x n i : Z) :
  0 <= n -> 2 * n <= i -> read_nibble (repeat_list x n) i = Raise IndexError.
Proof.
  intros Hn Hi. unfold read_nibble.
  rewrite getitem_repeat_list_high; [reflexivity|].
  rewrite Z.shiftr_div_pow2 by lia. change (2 ^ 1) with 2.
  split; [assumption|apply Z.div_le_lower_bound; lia].
Qed.

(** C5 (code as written): the fresh [Slice_Twist_Prun] is zero-filled and
    has a quarter of the needed bytes, so its entries read 0 and the entry
    541284, which is below [N_SLICE1 * N_TWIST], lies outside the list; and
    in the tables filled with -1 a fresh odd entry reads -1, since the high
    nibble is taken by a shift without a mask. *)
Theorem fresh_pruning_tables_defects (id : Z) :
  (r ← getPruning ∅ (mkList id alloc_Slice_Twist_Prun) 0; Ret r.1) = Ret 0 /\
  (r ← getPruning ∅ (mkList id alloc_Slice_Twist_Prun) 1; Ret r.1) = Ret 0 /\
  541284 < N_SLICE1 * N_TWIST /\
  getPruning ∅ (mkList id alloc_Slice_Twist_Prun) 541284 = Raise IndexError /\
  (r ← getPruning ∅ (mkList id alloc_Slice_Flip_Prun) 1; Ret r.1) = Ret (-1) /\
  (r ← getPruning ∅ (mkList id alloc_Slice_URFtoDLF_Parity_Prun) 1; Ret r.1)
    = Ret (-1) /\
  (r ← getPruning ∅ (mkList id alloc_Slice_URtoDF_Parity_Prun) 1; Ret r.1)
    = Ret (-1).
Proof.
  unfold getPruning. rewrite !lookup_empty. cbn [obj_id items].
  unfold alloc_Slice_Twist_Prun, alloc_Slice_Flip_Prun,
    alloc_Slice_URFtoDLF_Parity_Prun, alloc_Slice_URtoDF_Parity_Prun.
  repeat split;
    first [ rewrite getitem_repeat_list
              by (vm_compute; split; [discriminate|reflexivity]); reflexivity
          | rewrite getitem_repeat_list_high
              by (vm_compute; split; discriminate); reflexivity ].
Qed.

End CoordcubeFacts.

(** ** [search.py] *)
Module SearchFacts.
Import Py Coordcube Search SearchNodes PyFacts CoordcubeFacts.

(** *** Frames: which slots of an array a piece of code may change *)

Definition agree_except (l l' : list Z) (n : Z) : Prop :=
  forall i, 0 <= i -> i <> n -> getitem l' i = getitem l i.

Definition agree_below (l l' : list Z) (d : Z) : Prop :=
  forall i, 0 <= i < d -> getitem l' i = getitem l i.

Definition agree_from (l l' : list Z) (d : Z) : Prop :=
  forall i, d <= i -> getitem l' i = getitem l i.

Lemma agree_except_refl l n : agree_except l l n.
Proof. intros i _ _. reflexivity. Qed.

Lemma agree_except_trans l1 l2 l3 n :
  agree_except l1 l2 n -> agree_except l2 l3 n -> agree_except l1 l3 n.
Proof. intros H1 H2 i Hi Hn. rewrite H2, H1; auto. Qed.

Lemma setitem_agree_except l l' n v :
  0 <= n -> setitem l n v = Ret l' -> agree_except l l' n.
Proof.
  intros Hn H i Hi Hne.
  apply (getitem_setitem_other l l' n i v); auto.
Qed.

Lemma agree_below_refl l d : agree_below l l d.
Proof. intros i _. reflexivity. Qed.

Lemma agree_below_trans l1 l2 l3 d :
  agree_below l1 l2 d -> agree_below l2 l3 d -> agree_below l1 l3 d.
Proof. intros H1 H2 i Hi. rewrite H2, H1; auto. Qed.

Lemma agree_except_below l l' n d :
  d <= n -> agree_except l l' n -> agree_below l l' d.
Proof. intros Hd H i Hi. apply H; lia. Qed.

Lemma agree_from_refl l d : agree_from l l d.
Proof. intros i _. reflexivity. Qed.

Lemma agree_from_trans l1 l2 l3 d :
  agree_from l1 l2 d -> agree_from l2 l3 d -> agree_from l1 l3 d.
Proof. intros H1 H2 i Hi. rewrite H2, H1; auto. Qed.

Lemma agree_except_from l l' n d :
  0 <= d -> n < d -> agree_except l l' n -> agree_from l l' d.
Proof. intros H0 Hd H i Hi. apply H; lia. Qed.

Lemma agree_from_weaken l l' d d' :
  d <= d' -> agree_from l l' d -> agree_from l l' d'.
Proof. intros Hd H i Hi. apply H; lia. Qed.

(** Peel the first statement off a monadic hypothesis. *)
Ltac bind_in H :=
  match type of H with
  | context [lift ?m] =>
      let E := fresh "E" in
      destruct m eqn:E; cbn [lift mbind ctl_bind] in H; [discriminate|]
  end.

(** Reduce the projections of updated records. *)
Ltac proj := cbn [ax po flip twist slice parity URFtoDLF FRtoBR URtoUL UBtoDF URtoDF minDistPhase1 minDistPhase2 set_ax set_po set_flip set_twist set_slice set_parity set_URFtoDLF set_FRtoBR set_URtoUL set_UBtoDF set_URtoDF set_minDistPhase1 set_minDistPhase2 l_sr l_n l_depthPhase1 l_busy l_ticks m_sr m_n m_depthPhase2 m_busy] in *.

Ltac if_in H :=
  match type of H with
  | context [if ?c then _ else _] =>
      let E := fresh "C" in destruct c eqn:E
  end.

(** *** Phase 1: the move generator *)

(** Consecutive phase-1 moves up to level [n]: never the same axis, and
    never axis [a] right after axis [a + 3]. *)
Definition pairs_ok (sr : Search) (n : Z) : Prop :=
  forall k a b, 1 <= k <= n ->
    getitem (ax sr) (k - 1) = Ret a -> getitem (ax sr) k = Ret b ->
    a <> b /\ a - 3 <> b.

Section Phase1Facts.
Variable elapsed : nat -> Z.
Variable maxDepth timeOut : Z.

Lemma next_axis1_spec (fuel : nat) :
  forall sr n dp ticks st',
    0 <= n ->
    next_axis1 elapsed maxDepth timeOut fuel sr n dp ticks = Next st' ->
    agree_except (ax sr) (ax (l_sr st')) n /\
    agree_except (po sr) (po (l_sr st')) n /\
    minDistPhase1 (l_sr st') = minDistPhase1 sr /\
    ((l_busy st' = true /\ l_n st' = n - 1 /\ 1 <= n /\ l_depthPhase1 st' = dp) \/
     (l_busy st' = false /\ l_n st' = n /\
      (l_depthPhase1 st' = dp \/
       (n = 0 /\ l_depthPhase1 st' = dp + 1 /\ dp < maxDepth)) /\
      (1 <= n -> forall a b,
         getitem (ax (l_sr st')) (n - 1) = Ret a ->
         getitem (ax (l_sr st')) n = Ret b -> a <> b /\ a - 3 <> b))).
Proof.
  induction fuel as [|fuel IH]; intros sr n dp ticks st' Hn H; [discriminate|].
  cbn [next_axis1] in H.
  bind_in H. bind_in H. rename a into a0, a0 into ax1.
  pose proof (setitem_agree_except _ _ _ _ Hn E0) as Hax1.
  destruct (a0 + 1 >? 5) eqn:C5.
  - destruct (elapsed ticks >? timeOut); [discriminate|].
    destruct (n =? 0) eqn:Cn.
    + destruct (dp >=? maxDepth) eqn:Cd; [discriminate|].
      cbn [ax po set_ax set_po] in H. bind_in H. bind_in H.
      injection H as <-. cbn.
      pose proof (setitem_agree_except _ _ _ _ Hn E1).
      pose proof (setitem_agree_except _ _ _ _ Hn E2).
      repeat split; eauto using agree_except_trans.
      right. repeat split; lia.
    + injection H as <-. cbn. repeat split; auto using agree_except_refl.
      left. lia.
  - cbn [ax po set_ax set_po] in H. bind_in H. rename a into po1.
    pose proof (setitem_agree_except _ _ _ _ Hn E1) as Hpo1.
    destruct (n =? 0) eqn:Cn.
    + cbn [mbind ctl_bind] in H. injection H as <-. cbn.
      split; [assumption|]. split; [assumption|]. split; [reflexivity|].
      right. split; [reflexivity|]. split; [reflexivity|].
      split; [left; reflexivity|]. lia.
    + bind_in H. bind_in H. cbn [mbind ctl_bind] in H.
      destruct ((a =? a1) || (a - 3 =? a1)) eqn:Cp.
      * apply IH in H; [|assumption]. cbn [ax po set_ax set_po minDistPhase1] in H.
        destruct H as (H1 & H2 & H3 & H4).
        repeat split; eauto using agree_except_trans.
      * injection H as <-. cbn.
        split; [assumption|]. split; [assumption|]. split; [reflexivity|].
        right. split; [reflexivity|]. split; [reflexivity|].
        split; [left; reflexivity|].
        intros _ a' b' Ha' Hb'. rewrite E2 in Ha'. rewrite E3 in Hb'.
        injection Ha' as <-. injection Hb' as <-.
        apply orb_false_iff in Cp. lia.
Qed.

(** The generator returns only the depth and time-out errors. *)
Definition search_error (msg : string) : Prop :=
  msg = "Error 7"%string \/ msg = "Error 8"%string.

Lemma next_axis1_error (fuel : nat) :
  forall sr n dp ticks msg,
    next_axis1 elapsed maxDepth timeOut fuel sr n dp ticks = Return msg ->
    search_error msg.
Proof.
  induction fuel as [|fuel IH]; intros sr n dp ticks msg H; [discriminate|].
  cbn [next_axis1] in H. bind_in H. bind_in H.
  destruct (a + 1 >? 5).
  - destruct (elapsed ticks >? timeOut); [injection H as <-; now right|].
    destruct (n =? 0); [|discriminate].
    destruct (dp >=? maxDepth); [injection H as <-; now left|].
    bind_in H. bind_in H. discriminate.
  - bind_in H.
    destruct (n =? 0); cbn [mbind ctl_bind] in H; [discriminate|].
    bind_in H. bind_in H. cbn [mbind ctl_bind] in H.
    destruct ((a2 =? a3) || (a2 - 3 =? a3)); [|discriminate].
    eapply IH; eauto.
Qed.

Lemma next_node1_error (fuel : nat) :
  forall st msg,
    next_node1 elapsed maxDepth timeOut fuel st = Return msg ->
    search_error msg.
Proof.
  induction fuel as [|fuel IH]; intros st msg H; [discriminate|].
  cbn [next_node1] in H. bind_in H.
  destruct ((l_depthPhase1 st - l_n st >? a) && negb (l_busy st)).
  - bind_in H. bind_in H. bind_in H. discriminate.
  - bind_in H. bind_in H.
    destruct (a0 + 1 >? 3); [|discriminate].
    destruct (next_axis1 elapsed maxDepth timeOut fuel
                (set_po (l_sr st) a1) (l_n st) (l_depthPhase1 st) (l_ticks st))
      as [|msg'|st1|] eqn:Eax; cbn [mbind ctl_bind] in H; try discriminate.
    + injection H as <-. eapply next_axis1_error; eauto.
    + destruct (l_busy st1); [|discriminate]. eapply IH; eauto.
Qed.

Lemma pairs_ok_agree (sr sr' : Search) (n : Z) :
  (forall i, 0 <= i <= n -> getitem (ax sr') i = getitem (ax sr) i) ->
  pairs_ok sr n -> pairs_ok sr' n.
Proof.
  intros Hag Hp k a b Hk Ha Hb.
  rewrite Hag in Ha by lia. rewrite Hag in Hb by lia. eapply Hp; eauto.
Qed.

Lemma pairs_ok_weaken (sr : Search) (n m : Z) :
  m <= n -> pairs_ok sr n -> pairs_ok sr m.
Proof. intros Hm Hp k a b Hk. apply Hp. lia. Qed.

Lemma pairs_ok_extend (sr : Search) (n : Z) :
  pairs_ok sr (n - 1) ->
  (1 <= n -> forall a b, getitem (ax sr) (n - 1) = Ret a ->
                         getitem (ax sr) n = Ret b -> a <> b /\ a - 3 <> b) ->
  pairs_ok sr n.
Proof.
  intros Hp Hn k a b Hk Ha Hb.
  destruct (Z.eq_dec k n) as [->|Hne]; [apply Hn; auto; lia|].
  eapply Hp; eauto. lia.
Qed.

(** What the generator needs to know about the heuristic of the current
    node to stay below [depthPhase1]. *)
Definition bounded1 (st : loop1) : Prop :=
  l_n st <= l_depthPhase1 st - 1 /\
  (l_busy st = false -> forall md,
     getitem (minDistPhase1 (l_sr st)) (l_n st + 1) = Ret md ->
     0 <= md /\ (l_n st = l_depthPhase1 st - 1 -> 1 <= md)) /\
  (l_depthPhase1 st = 1 \/ l_depthPhase1 st <= maxDepth).

Lemma next_node1_spec (fuel : nat) :
  forall st st',
    0 <= l_n st -> pairs_ok (l_sr st) (l_n st) ->
    next_node1 elapsed maxDepth timeOut fuel st = Next st' ->
    0 <= l_n st' /\ pairs_ok (l_sr st') (l_n st') /\ l_busy st' = false /\
    l_depthPhase1 st <= l_depthPhase1 st' /\
    minDistPhase1 (l_sr st') = minDistPhase1 (l_sr st) /\
    (bounded1 st ->
     l_n st' <= l_depthPhase1 st' - 1 /\
     agree_from (ax (l_sr st)) (ax (l_sr st')) (l_depthPhase1 st) /\
     agree_from (po (l_sr st)) (po (l_sr st')) (l_depthPhase1 st) /\
     (l_depthPhase1 st' = 1 \/ l_depthPhase1 st' <= maxDepth)).
Proof.
  induction fuel as [|fuel IH]; intros st st' Hn Hp H; [discriminate|].
  destruct st as [sr n dp busy ticks]. cbn [l_sr l_n l_depthPhase1 l_busy l_ticks] in *.
  cbn [next_node1 l_sr l_n l_depthPhase1 l_busy l_ticks] in H.
  bind_in H. rename a into md.
  destruct ((dp - n >? md) && negb busy) eqn:Cd.
  - (* a new level *)
    bind_in H. bind_in H. bind_in H. injection H as <-.
    cbn [l_sr l_n l_depthPhase1 l_busy l_ticks ax po set_ax set_po minDistPhase1].
    apply andb_true_iff in Cd as [Cd Cb]. apply negb_true_iff in Cb. subst busy.
    assert (0 <= n + 1) as Hn1 by lia.
    pose proof (setitem_agree_except _ _ _ _ Hn1 E1) as Hax.
    pose proof (setitem_agree_except _ _ _ _ Hn1 E2) as Hpo.
    split; [lia|]. split.
    { apply pairs_ok_extend; proj.
      - replace (n + 1 - 1) with n by lia.
        apply (pairs_ok_agree sr); [|assumption].
        intros i Hi. proj. apply Hax; lia.
      - intros _ a' b' Ha' Hb'. replace (n + 1 - 1) with n in Ha' by lia.
        rewrite Hax in Ha' by lia. rewrite E0 in Ha'. injection Ha' as <-.
        rewrite (getitem_setitem_same _ _ _ _ E1) in Hb'. injection Hb' as <-.
        destruct ((a =? 0) || (a =? 3)) eqn:Ca.
        + apply orb_true_iff in Ca. lia.
        + apply orb_false_iff in Ca. lia. }
    split; [reflexivity|]. split; [lia|]. split; [reflexivity|].
    unfold bounded1; proj; intros (Hle & Hmd & Hdp). specialize (Hmd eq_refl md E) as [Hmd0 Hmd1].
    rewrite Z.gtb_ltb in Cd. apply Z.ltb_lt in Cd.
    assert (n + 1 < dp) by lia.
    split; [lia|]. split; [eapply agree_except_from; eauto; lia|].
    split; [eapply agree_except_from; eauto; lia|]. assumption.
  - (* the next power, or the next axis *)
    bind_in H. bind_in H. rename a into p, a0 into po1.
    pose proof (setitem_agree_except _ _ _ _ Hn E1) as Hpo.
    destruct (p + 1 >? 3) eqn:Cp.
    + destruct (next_axis1 elapsed maxDepth timeOut fuel (set_po sr po1) n dp ticks)
        as [|?|st1|] eqn:Eax; cbn [mbind ctl_bind] in H; try discriminate.
      apply next_axis1_spec in Eax; [|assumption].
      cbn [ax po set_po minDistPhase1] in Eax.
      destruct Eax as (Hax1 & Hpo1 & Hmd1 & Hcase).
      assert (agree_except (po sr) (po (l_sr st1)) n) as Hpo2
        by eauto using agree_except_trans.
      destruct Hcase as [(Hb & Hn1 & Hge & Hdp1) | (Hb & Hn1 & Hdp1 & Hpair)].
      * rewrite Hb in H.
        apply IH in H; [|lia|].
        2:{ rewrite Hn1. apply (pairs_ok_agree sr).
            - intros i Hi. apply Hax1; lia.
            - eapply pairs_ok_weaken; [|eassumption]. lia. }
        destruct H as (H1 & H2 & H3 & H4 & H5 & H6).
        split; [assumption|]. split; [assumption|]. split; [assumption|].
        split; [lia|]. split; [congruence|].
        unfold bounded1; proj; intros (Hle & Hmd & Hdp).
        destruct H6 as (K1 & K2 & K3 & K4).
        { split; [lia|]. split; [intros Hf; rewrite Hb in Hf; discriminate|].
          rewrite Hdp1. assumption. }
        rewrite Hdp1 in K2, K3.
        split; [assumption|].
        split; [eapply agree_from_trans; [|eassumption];
                eapply agree_except_from; eauto; lia|].
        split; [eapply agree_from_trans; [|eassumption];
                eapply agree_except_from; eauto; lia|].
        assumption.
      * rewrite Hb in H. injection H as <-.
        split; [lia|]. split.
        { rewrite Hn1. apply pairs_ok_extend; [|assumption].
          apply (pairs_ok_agree sr).
          - intros i Hi. apply Hax1; lia.
          - eapply pairs_ok_weaken; [|eassumption]. lia. }
        split; [assumption|]. split; [lia|]. split; [assumption|].
        unfold bounded1; proj; intros (Hle & Hmd & Hdp).
        split; [lia|].
        split; [eapply agree_except_from; eauto; lia|].
        split; [eapply agree_except_from; eauto; lia|]. lia.
    + injection H as <-.
      cbn [l_sr l_n l_depthPhase1 l_busy l_ticks ax po set_ax set_po minDistPhase1].
      split; [assumption|]. split; [assumption|]. split; [reflexivity|].
      split; [lia|]. split; [reflexivity|].
      unfold bounded1; proj; intros (Hle & Hmd & Hdp).
      split; [assumption|]. split; [apply agree_from_refl|].
      split; [eapply agree_except_from; eauto; lia|]. assumption.
Qed.

End Phase1Facts.

(** *** Phase 2: the move generator *)

(** The ten moves of the phase-2 group, as indices [3 * axis + power - 1]. *)
Definition is_phase2_move (mv : Z) : bool :=
  existsb (Z.eqb mv) [0; 1; 2; 4; 7; 9; 10; 11; 13; 16].

(** A slot that holds a move of the phase-2 search, or a power not yet
    chosen on U or D. *)
Definition active (a p : Z) : Prop :=
  ((a = 0 \/ a = 3) /\ 0 <= p <= 3) \/
  ((a = 1 \/ a = 2 \/ a = 4 \/ a = 5) /\ p = 2).

(** A slot that, if [solutionToString] can print it, prints a phase-2 move. *)
Definition clean (a p : Z) : Prop :=
  0 <= a /\ 0 <= p /\
  (a <= 5 -> 1 <= p <= 3 -> is_phase2_move (3 * a + p - 1) = true).

Definition tail_clean (sr : Search) (d : Z) : Prop :=
  forall i a p, d <= i ->
    getitem (ax sr) i = Ret a -> getitem (po sr) i = Ret p -> clean a p.

Definition path_active (sr : Search) (d n : Z) : Prop :=
  forall i a p, d <= i <= n ->
    getitem (ax sr) i = Ret a -> getitem (po sr) i = Ret p -> active a p.

Lemma active_clean a p : active a p -> clean a p.
Proof.
  intros [[Ha Hp] | [Ha ->]].
  - split; [lia|]. split; [lia|]. intros _ Hp'.
    assert (p = 1 \/ p = 2 \/ p = 3) as [-> | [-> | ->]] by lia;
      destruct Ha as [-> | ->]; reflexivity.
  - split; [lia|]. split; [lia|]. intros _ _.
    destruct Ha as [-> | [-> | [-> | ->]]]; reflexivity.
Qed.

Lemma tail_clean_update (sr sr' : Search) (d n : Z) :
  0 <= d ->
  tail_clean sr d ->
  agree_except (ax sr) (ax sr') n -> agree_except (po sr) (po sr') n ->
  (forall a p, getitem (ax sr') n = Ret a -> getitem (po sr') n = Ret p ->
               clean a p) ->
  tail_clean sr' d.
Proof.
  intros Hd Ht Hax Hpo Hn i a p Hi Ha Hp.
  destruct (Z.eq_dec i n) as [->|Hne]; [now apply Hn|].
  rewrite Hax in Ha by lia. rewrite Hpo in Hp by lia. eapply Ht; eauto.
Qed.

Lemma tail_clean_agree (sr sr' : Search) (d : Z) :
  agree_from (ax sr) (ax sr') d -> agree_from (po sr) (po sr') d ->
  tail_clean sr d -> tail_clean sr' d.
Proof.
  intros Hax Hpo Ht i a p Hi Ha Hp.
  rewrite Hax in Ha by lia. rewrite Hpo in Hp by lia. eapply Ht; eauto.
Qed.

Lemma tail_clean_weaken (sr : Search) (d d' : Z) :
  d <= d' -> tail_clean sr d -> tail_clean sr d'.
Proof. intros Hd Ht i a p Hi. apply Ht. lia. Qed.

Lemma path_active_update (sr sr' : Search) (d n : Z) :
  0 <= d ->
  path_active sr d (n - 1) ->
  agree_except (ax sr) (ax sr') n -> agree_except (po sr) (po sr') n ->
  (forall a p, getitem (ax sr') n = Ret a -> getitem (po sr') n = Ret p ->
               active a p) ->
  path_active sr' d n.
Proof.
  intros Hd Ht Hax Hpo Hn i a p Hi Ha Hp.
  destruct (Z.eq_dec i n) as [->|Hne]; [now apply Hn|].
  rewrite Hax in Ha by lia. rewrite Hpo in Hp by lia. eapply Ht; eauto. lia.
Qed.

Lemma path_active_shrink (sr sr' : Search) (d n m : Z) :
  0 <= d -> n < m ->
  path_active sr d n ->
  agree_except (ax sr) (ax sr') m -> agree_except (po sr) (po sr') m ->
  path_active sr' d n.
Proof.
  intros Hd Hm Ht Hax Hpo i a p Hi Ha Hp.
  rewrite Hax in Ha by lia. rewrite Hpo in Hp by lia. eapply Ht; eauto.
Qed.

Section Phase2Facts.
Variable dp maxDepthPhase2 : Z.
Hypothesis dp_nonneg : 0 <= dp.

(** What every exit of the phase-2 generator leaves behind. *)
Definition frame2 (sr sr' : Search) : Prop :=
  agree_below (ax sr) (ax sr') dp /\ agree_below (po sr) (po sr') dp /\
  minDistPhase1 sr' = minDistPhase1 sr /\
  (tail_clean sr dp -> tail_clean sr' dp).

Lemma frame2_of_except (sr sr' : Search) (n : Z) :
  dp <= n ->
  agree_except (ax sr) (ax sr') n -> agree_except (po sr) (po sr') n ->
  minDistPhase1 sr' = minDistPhase1 sr ->
  (tail_clean sr dp -> tail_clean sr' dp) ->
  frame2 sr sr'.
Proof.
  intros Hn Hax Hpo Hmd Ht.
  split; [eapply agree_except_below; eauto|].
  split; [eapply agree_except_below; eauto|]. split; assumption.
Qed.

Lemma frame2_trans (s1 s2 s3 : Search) :
  frame2 s1 s2 -> frame2 s2 s3 -> frame2 s1 s3.
Proof.
  intros (A1 & B1 & C1 & D1) (A2 & B2 & C2 & D2).
  split; [eapply agree_below_trans; eauto|].
  split; [eapply agree_below_trans; eauto|]. split; [congruence|auto].
Qed.

(** Peel the first statement off a monadic goal; a raised exception is one
    of the outcomes the specifications say nothing about. *)
Ltac gbind :=
  match goal with
  | |- context [lift ?m] =>
      let x := fresh "a" in
      let E := fresh "E" in
      remember m as x eqn:E in |- *; symmetry in E;
      destruct x; cbn [lift mbind ctl_bind]; [exact I|]
  end.

Lemma next_axis2_spec (fuel : nat) :
  forall sr n d2,
    dp <= n -> path_active sr dp (n - 1) ->
    (forall a p, getitem (ax sr) n = Ret a -> getitem (po sr) n = Ret p ->
                 0 <= a <= 5 /\ 0 <= p) ->
    match next_axis2 dp maxDepthPhase2 fuel sr n d2 with
    | Next st' =>
        frame2 sr (m_sr st') /\
        ((m_busy st' = true /\ m_n st' = n - 1 /\ dp < n /\
          m_depthPhase2 st' = d2 /\ path_active (m_sr st') dp (n - 1)) \/
         (m_busy st' = false /\ m_n st' = n /\
          (m_depthPhase2 st' = d2 \/
           (m_depthPhase2 st' = d2 + 1 /\ d2 < maxDepthPhase2)) /\
          path_active (m_sr st') dp n))
    | Return (s, sr') => s = -1 /\ frame2 sr sr'
    | _ => True
    end.
Proof.
  induction fuel as [|fuel IH]; intros sr n d2 Hn Hpa Hcur; [exact I|].
  assert (0 <= n) as Hn0 by lia.
  cbn [next_axis2].
  gbind. rename a into a0. gbind. rename a into ax1.
  pose proof (setitem_agree_except _ _ _ _ Hn0 E0) as Hax1.
  pose proof (getitem_setitem_same _ _ _ _ E0) as Hget1.
  destruct (a0 + 1 >? 5) eqn:C5.
  - (* all six axes tried *)
    assert (tail_clean sr dp -> tail_clean (set_ax sr ax1) dp) as Ht1.
    { intros Ht. apply (tail_clean_update sr _ dp n); proj; auto using agree_except_refl.
      intros a' p' Ha' Hp'. rewrite Hget1 in Ha'. injection Ha' as <-.
      destruct (Hcur _ _ E Hp'). split; [lia|]. split; [lia|]. lia. }
    destruct (n =? dp) eqn:Cn.
    + destruct (d2 >=? maxDepthPhase2) eqn:Cd.
      * split; [reflexivity|].
        apply (frame2_of_except _ _ n); proj; auto using agree_except_refl.
      * proj. gbind. rename a into ax2. gbind. rename a into po2. proj.
        pose proof (setitem_agree_except _ _ _ _ Hn0 E1).
        pose proof (setitem_agree_except _ _ _ _ Hn0 E2).
        assert (forall a' p', getitem ax2 n = Ret a' -> getitem po2 n = Ret p' ->
                              active a' p') as Hact.
        { intros a' p' Ha' Hp'.
          rewrite (getitem_setitem_same _ _ _ _ E1) in Ha'.
          rewrite (getitem_setitem_same _ _ _ _ E2) in Hp'.
          injection Ha' as <-. injection Hp' as <-. left. lia. }
        split.
        { apply (frame2_of_except _ _ n); proj; eauto using agree_except_trans.
          intros Ht. apply (tail_clean_update sr _ dp n); proj;
            eauto using agree_except_trans, active_clean. }
        right. split; [reflexivity|]. split; [reflexivity|].
        split; [right; lia|].
        apply (path_active_update sr _ dp n); proj;
          eauto using agree_except_trans.
    + proj. split.
      { apply (frame2_of_except _ _ n); proj; auto using agree_except_refl. }
      left. split; [reflexivity|]. split; [reflexivity|]. split; [lia|].
      split; [reflexivity|].
      apply (path_active_shrink sr _ dp (n - 1) n); proj;
        auto using agree_except_refl; lia.
  - (* the next axis *)
    proj. gbind. rename a into po1. proj.
    pose proof (setitem_agree_except _ _ _ _ Hn0 E1) as Hpo1.
    pose proof (getitem_setitem_same _ _ _ _ E1) as Hgetp.
    assert (0 <= a0 + 1 <= 5) as Ha1.
    { destruct (getitem (po sr) n) as [|p0] eqn:Ep.
      - exfalso. apply setitem_nonneg in E1 as [_ Hlen]; [|assumption].
        unfold getitem in Ep. rewrite norm_index_nonneg in Ep by lia.
        destruct (po sr !! Z.to_nat n) eqn:El; [discriminate|].
        apply lookup_ge_None in El. lia.
      - destruct (Hcur _ _ E eq_refl). lia. }
    assert (forall a' p', getitem ax1 n = Ret a' -> getitem po1 n = Ret p' ->
                          active a' p') as Hact.
    { intros a' p' Ha' Hp'. rewrite Hget1 in Ha'. rewrite Hgetp in Hp'.
      injection Ha' as <-. injection Hp' as <-.
      destruct ((a0 + 1 =? 0) || (a0 + 1 =? 3)) eqn:Ca.
      - left. apply orb_true_iff in Ca. lia.
      - right. apply orb_false_iff in Ca. lia. }
    set (sr2 := set_po (set_ax sr ax1) po1) in *.
    assert (tail_clean sr dp -> tail_clean sr2 dp) as Ht2.
    { intros Ht. apply (tail_clean_update sr _ dp n); subst sr2; proj;
        eauto using active_clean. }
    assert (frame2 sr sr2) as Hf2.
    { apply (frame2_of_except _ _ n); subst sr2; proj; auto. }
    assert (path_active sr2 dp n) as Hpan.
    { apply (path_active_update sr _ dp n); subst sr2; proj; auto. }
    destruct (n =? dp) eqn:Cn.
    + cbn [mbind ctl_bind]. proj.
      split; [assumption|].
      right. split; [reflexivity|]. split; [reflexivity|].
      split; [left; reflexivity|]. assumption.
    + gbind. rename a into prev. gbind. rename a into cur.
      destruct ((prev =? cur) || (prev - 3 =? cur)) eqn:Cp.
      * assert (path_active sr2 dp (n - 1)) as Hpa2.
        { intros i a' p' Hi. apply Hpan. lia. }
        assert (forall a' p', getitem (ax sr2) n = Ret a' ->
                              getitem (po sr2) n = Ret p' ->
                              0 <= a' <= 5 /\ 0 <= p') as Hcur2.
        { intros a' p' Ha' Hp'. subst sr2. proj.
          destruct (Hact _ _ Ha' Hp') as [[? ?]|[? ?]]; lia. }
        specialize (IH sr2 n d2 Hn Hpa2 Hcur2).
        destruct (next_axis2 dp maxDepthPhase2 fuel sr2 n d2)
          as [|[s sr']|st'|]; try exact I.
        -- destruct IH as [-> Hf]. split; [reflexivity|].
           eapply frame2_trans; eauto.
        -- destruct IH as [Hf Hcase]. split; [eapply frame2_trans; eauto|].
           exact Hcase.
      * proj. split; [assumption|].
        right. split; [reflexivity|]. split; [reflexivity|].
        split; [left; reflexivity|]. assumption.
Qed.

Lemma next_node2_spec (fuel : nat) :
  forall st,
    dp <= m_n st -> path_active (m_sr st) dp (m_n st) ->
    match next_node2 dp maxDepthPhase2 fuel st with
    | Next st' =>
        frame2 (m_sr st) (m_sr st') /\ dp <= m_n st' /\ m_busy st' = false /\
        path_active (m_sr st') dp (m_n st') /\
        m_depthPhase2 st <= m_depthPhase2 st' /\
        (m_depthPhase2 st <= maxDepthPhase2 ->
         m_depthPhase2 st' <= maxDepthPhase2)
    | Return (s, sr') => s = -1 /\ frame2 (m_sr st) sr'
    | _ => True
    end.
Proof.
  induction fuel as [|fuel IH]; intros st Hn Hpa; [exact I|].
  destruct st as [sr n d2 busy]. proj.
  assert (0 <= n) as Hn0 by lia.
  cbn [next_node2]. proj.
  gbind. rename a into md.
  destruct ((dp + d2 - n >? md) && negb busy) eqn:Cd.
  - (* a new level *)
    gbind. rename a into a0.
    assert (0 <= n + 1) as Hn1 by lia.
    assert (forall ax1 po1 a1 p1,
              setitem (ax sr) (n + 1) a1 = Ret ax1 ->
              setitem (po sr) (n + 1) p1 = Ret po1 ->
              active a1 p1 ->
              frame2 sr (set_po (set_ax sr ax1) po1) /\
              path_active (set_po (set_ax sr ax1) po1) dp (n + 1)) as Hnew.
    { intros ax1 po1 a1 p1 E1 E2 Hact.
      pose proof (setitem_agree_except _ _ _ _ Hn1 E1).
      pose proof (setitem_agree_except _ _ _ _ Hn1 E2).
      assert (forall a' p', getitem ax1 (n + 1) = Ret a' ->
                            getitem po1 (n + 1) = Ret p' -> active a' p') as Hat.
      { intros a' p' Ha' Hp'.
        rewrite (getitem_setitem_same _ _ _ _ E1) in Ha'.
        rewrite (getitem_setitem_same _ _ _ _ E2) in Hp'.
        injection Ha' as <-. injection Hp' as <-. assumption. }
      split.
      - apply (frame2_of_except _ _ (n + 1)); proj; auto; [lia|].
        intros Ht. apply (tail_clean_update sr _ dp (n + 1)); proj;
          eauto using active_clean.
      - apply (path_active_update sr _ dp (n + 1)); proj; auto.
        replace (n + 1 - 1) with n by lia. assumption. }
    destruct ((a0 =? 0) || (a0 =? 3)).
    + gbind. gbind. proj.
      destruct (Hnew _ _ 1 2 E1 E2) as [Hf Hp]; [right; lia|].
      split; [assumption|]. split; [lia|].
      apply andb_true_iff in Cd as [_ Cb]. apply negb_true_iff in Cb.
      split; [assumption|]. split; [assumption|]. split; [lia|]. auto.
    + gbind. gbind. proj.
      destruct (Hnew _ _ 0 1 E1 E2) as [Hf Hp]; [left; lia|].
      split; [assumption|]. split; [lia|].
      apply andb_true_iff in Cd as [_ Cb]. apply negb_true_iff in Cb.
      split; [assumption|]. split; [assumption|]. split; [lia|]. auto.
  - (* the next power, or the next axis *)
    gbind. rename a into a0. gbind. rename a into p0.
    set (p' := if (a0 =? 0) || (a0 =? 3) then p0 + 1 else p0 + 2).
    gbind. rename a into po1. proj.
    pose proof (setitem_agree_except _ _ _ _ Hn0 E2) as Hpo1.
    pose proof (getitem_setitem_same _ _ _ _ E2) as Hgetp.
    assert (active a0 p0) as Hact0 by (apply (Hpa n); auto; lia).
    assert (0 <= a0 <= 5 /\ 0 <= p0 /\ p0 < p') as (Ha0 & Hp0 & Hp').
    { subst p'. destruct Hact0 as [[[-> | ->] ?]|[? ->]]; cbn; try lia.
      destruct ((a0 =? 0) || (a0 =? 3)); lia. }
    set (sr2 := set_po sr po1).
    assert (agree_except (ax sr) (ax sr2) n) as Hax2
      by (subst sr2; proj; apply agree_except_refl).
    destruct (p' >? 3) eqn:Cp.
    + assert (tail_clean sr dp -> tail_clean sr2 dp) as Ht2.
      { intros Ht. apply (tail_clean_update sr _ dp n); subst sr2; proj; auto.
        intros a' q' Ha' Hq'. rewrite E0 in Ha'. rewrite Hgetp in Hq'.
        injection Ha' as <-. injection Hq' as <-.
        split; [lia|]. split; [lia|]. intros _ Hr.
        rewrite Z.gtb_ltb in Cp. apply Z.ltb_lt in Cp. lia. }
      assert (path_active sr2 dp (n - 1)) as Hpa2.
      { apply (path_active_shrink sr _ dp (n - 1) n); subst sr2; proj; auto;
          [lia|]. intros i a' q' Hi. apply Hpa. lia. }
      assert (forall a' q', getitem (ax sr2) n = Ret a' ->
                            getitem (po sr2) n = Ret q' ->
                            0 <= a' <= 5 /\ 0 <= q') as Hcur2.
      { intros a' q' Ha' Hq'. subst sr2. proj.
        rewrite E0 in Ha'. rewrite Hgetp in Hq'.
        injection Ha' as <-. injection Hq' as <-. lia. }
      assert (frame2 sr sr2) as Hf2.
      { apply (frame2_of_except _ _ n); subst sr2; proj; auto. }
      pose proof (next_axis2_spec fuel sr2 n d2 Hn Hpa2 Hcur2) as Hax.
      destruct (next_axis2 dp maxDepthPhase2 fuel sr2 n d2)
        as [|[s sr']|st1|]; cbn [mbind ctl_bind]; try exact I.
      * destruct Hax as [-> Hf]. split; [reflexivity|].
        eapply frame2_trans; eauto.
      * destruct Hax as [Hf [(Hb & Hn1 & Hlt & Hd & Hp1) |
                              (Hb & Hn1 & Hd & Hp1)]]; rewrite Hb.
        -- assert (frame2 sr (m_sr st1)) as Hf1 by (eapply frame2_trans; eauto).
           specialize (IH st1).
           rewrite Hn1, Hd in IH.
           assert (dp <= n - 1) as Hn' by lia.
           specialize (IH Hn' Hp1).
           destruct (next_node2 dp maxDepthPhase2 fuel st1)
             as [|[s sr']|st2|]; try exact I.
           ++ destruct IH as [-> Hf']. split; [reflexivity|].
              eapply frame2_trans; eauto.
           ++ destruct IH as (Hf' & K1 & K2 & K3 & K4 & K5).
              split; [eapply frame2_trans; eauto|]. repeat split; auto.
        -- split; [eapply frame2_trans; eauto|].
           rewrite Hn1. split; [assumption|]. split; [assumption|].
           split; [assumption|]. destruct Hd as [-> | [-> ?]]; split; lia.
    + proj. fold sr2.
      split.
      { apply (frame2_of_except _ _ n); subst sr2; proj; auto.
        intros Ht. apply (tail_clean_update sr _ dp n); proj; auto.
        intros a' q' Ha' Hq'. apply active_clean.
        rewrite E0 in Ha'. rewrite Hgetp in Hq'.
        injection Ha' as <-. injection Hq' as <-.
        rewrite Z.gtb_ltb in Cp. apply Z.ltb_ge in Cp.
        destruct Hact0 as [[Ha ?]|[Ha ->]].
        - left. split; [assumption|]. lia.
        - exfalso. subst p'.
          destruct ((a0 =? 0) || (a0 =? 3)) eqn:Ca; [|lia].
          apply orb_true_iff in Ca. lia. }
      split; [assumption|]. split; [reflexivity|].
      split; [|split; [lia|auto]].
      apply (path_active_update sr _ dp n); subst sr2; proj; auto.
      * intros i a' q' Hi. apply Hpa. lia.
      * intros a' q' Ha' Hq'.
        rewrite E0 in Ha'. rewrite Hgetp in Hq'.
        injection Ha' as <-. injection Hq' as <-.
        rewrite Z.gtb_ltb in Cp. apply Z.ltb_ge in Cp.
        destruct Hact0 as [[Ha ?]|[Ha ->]].
        -- left. split; [assumption|]. lia.
        -- exfalso. subst p'.
           destruct ((a0 =? 0) || (a0 =? 3)) eqn:Ca; [|lia].
           apply orb_true_iff in Ca. lia.
Qed.

End Phase2Facts.

Lemma tail_clean_ext (sr sr' : Search) (d : Z) :
  ax sr' = ax sr -> po sr' = po sr -> tail_clean sr d -> tail_clean sr' d.
Proof. unfold tail_clean. intros -> ->. auto. Qed.

Lemma path_active_ext (sr sr' : Search) (d n : Z) :
  ax sr' = ax sr -> po sr' = po sr -> path_active sr d n -> path_active sr' d n.
Proof. unfold path_active. intros -> ->. auto. Qed.

Lemma frame2_ext (d : Z) (s1 s2 s3 : Search) :
  ax s3 = ax s2 -> po s3 = po s2 -> minDistPhase1 s3 = minDistPhase1 s2 ->
  frame2 d s1 s2 -> frame2 d s1 s3.
Proof.
  intros Ha Hp Hm (A & B & C & D). unfold frame2. rewrite Ha, Hp, Hm.
  split; [assumption|]. split; [assumption|]. split; [assumption|].
  intros Ht. eapply tail_clean_ext; eauto.
Qed.

Lemma frame2_ext_l (d : Z) (s1 s2 s3 : Search) :
  ax s2 = ax s1 -> po s2 = po s1 -> minDistPhase1 s2 = minDistPhase1 s1 ->
  frame2 d s2 s3 -> frame2 d s1 s3.
Proof.
  intros Ha Hp Hm (A & B & C & D). unfold frame2. rewrite <- Ha, <- Hp, <- Hm.
  split; [assumption|]. split; [assumption|]. split; [assumption|].
  intros Ht. apply D. eapply tail_clean_ext; eauto.
Qed.

Lemma frame2_refl (d : Z) (sr : Search) : frame2 d sr sr.
Proof.
  split; [apply agree_below_refl|]. split; [apply agree_below_refl|].
  split; [reflexivity|auto].
Qed.

(** A [for] loop keeps what each round keeps. *)
Lemma foldM_preserve {A S} (P : S -> Prop) (f : S -> A -> res S) :
  (forall s x s', f s x = Ret s' -> P s -> P s') ->
  forall l s s', foldM f l s = Ret s' -> P s -> P s'.
Proof.
  intros Hf. induction l as [|x l IH]; intros s s' H Hs; cbn in H.
  - now injection H as <-.
  - destruct (f s x) as [|s1] eqn:E; [discriminate|].
    cbn in H. eapply IH; eauto.
Qed.

(** The replay loops of [totalDepth] leave the moves and the phase-1
    heuristic alone. *)
Definition same_moves (sr0 s : Search) : Prop :=
  ax s = ax sr0 /\ po s = po sr0 /\ minDistPhase1 s = minDistPhase1 sr0.

Ltac rbind_in H :=
  match type of H with
  | (?m ≫= _) = _ =>
      let E := fresh "E" in
      destruct m eqn:E; cbn [mbind res_bind] in H; [discriminate|]
  end.

Section SolverFacts.
Variable T : Tables.

(** Peel the first statement off a monadic goal. *)
Ltac gbind :=
  match goal with
  | |- context [lift ?m] =>
      let x := fresh "a" in
      let E := fresh "E" in
      remember m as x eqn:E in |- *; symmetry in E;
      destruct x; cbn [lift mbind ctl_bind]; [exact I|]
  end.

Lemma phase2_loop_spec (dp mdp2 : Z) (Hdp : 0 <= dp) (fuel : nat) :
  forall st,
    dp <= m_n st -> path_active (m_sr st) dp (m_n st) ->
    match phase2_loop T dp mdp2 fuel st with
    | Next st' =>
        frame2 dp (m_sr st) (m_sr st') /\
        m_depthPhase2 st <= m_depthPhase2 st' /\
        (m_depthPhase2 st <= mdp2 -> m_depthPhase2 st' <= mdp2)
    | Return (s, sr') => s = -1 /\ frame2 dp (m_sr st) sr'
    | _ => True
    end.
Proof.
  induction fuel as [|fuel IH]; intros st Hn Hpa; [exact I|].
  cbn [phase2_loop].
  pose proof (next_node2_spec dp mdp2 Hdp fuel st Hn Hpa) as Hnode.
  destruct (next_node2 dp mdp2 fuel st) as [|[s sr']|st1|];
    cbn [mbind ctl_bind]; try exact I; [exact Hnode|].
  destruct Hnode as (Hf & Hn1 & Hb & Hpa1 & Hd1 & Hd2).
  do 21 gbind. proj.
  match goal with
  | |- context [mkLoop2 ?sr ?n ?d ?b] => set (st2 := mkLoop2 sr n d b)
  end.
  assert (frame2 dp (m_sr st) (m_sr st2)) as Hf2.
  { eapply frame2_ext; [| | |exact Hf]; reflexivity. }
  destruct (Z.max _ _ =? 0).
  - split; [assumption|]. split; assumption.
  - specialize (IH st2 Hn1).
    assert (path_active (m_sr st2) dp (m_n st2)) as Hpa2
      by (eapply path_active_ext; [| |exact Hpa1]; reflexivity).
    specialize (IH Hpa2).
    destruct (phase2_loop T dp mdp2 fuel st2) as [|[s sr']|st3|]; try exact I.
    + destruct IH as [-> Hf3]. split; [reflexivity|].
      eapply frame2_trans; eauto.
    + destruct IH as (Hf3 & K1 & K2). cbn [m_depthPhase2 st2] in *.
      split; [eapply frame2_trans; eauto|].
      subst st2. proj. split; [lia|]. auto.
Qed.

Lemma prun2_nonneg (table : list Z) (c f q d : Z) :
  bytes_ok table -> prun2 table c f q = Ret d -> 0 <= d.
Proof.
  intros Hb H. unfold prun2 in H.
  pose proof (read_nibble_range _ _ _ Hb H). lia.
Qed.

Lemma totalDepth_spec (fuel : nat) (sr : Search) (dp maxDepth : Z) :
  0 <= dp ->
  match totalDepth T fuel sr dp maxDepth with
  | Return (s, sr') =>
      frame2 dp sr sr' /\ (s = -1 \/ s = dp \/ dp + 1 <= s) /\
      (bytes_ok (Slice_URFtoDLF_Parity_Prun T) ->
       bytes_ok (Slice_URtoDF_Parity_Prun T) ->
       s = -1 \/ s <= maxDepth)
  | Next _ => False
  | _ => True
  end.
Proof.
  intros Hdp. unfold totalDepth.
  set (mdp2 := Z.min 10 (maxDepth - dp)).
  gbind. rename a into sr1, E into Efold1.
  assert (same_moves sr sr1) as (Ha1 & Hp1 & Hm1).
  { match type of Efold1 with
    | foldM ?f ?l0 ?s0 = _ =>
        refine (foldM_preserve (same_moves sr) f _ l0 s0 sr1 Efold1 _)
    end; [|repeat split].
    intros s x s' H (Ha & Hp & Hm). do 11 rbind_in H.
    injection H as <-. unfold same_moves. proj. auto. }
  assert (frame2 dp sr sr1) as Hf1
    by (eapply frame2_ext; [| | |apply frame2_refl]; assumption).
  do 4 gbind. rename a2 into d1, E2 into Ed1.
  destruct (d1 >? mdp2) eqn:C1.
  { split; [assumption|]. split; auto. }
  gbind. rename a2 into sr2, E2 into Efold2.
  assert (same_moves sr1 sr2) as (Ha2 & Hp2 & Hm2).
  { match type of Efold2 with
    | foldM ?f ?l0 ?s0 = _ =>
        refine (foldM_preserve (same_moves sr1) f _ l0 s0 sr2 Efold2 _)
    end; [|repeat split].
    intros s x s' H (Ha & Hp & Hm). do 8 rbind_in H.
    injection H as <-. unfold same_moves. proj. auto. }
  assert (frame2 dp sr sr2) as Hf2
    by (eapply frame2_ext; [| | |exact Hf1]; assumption).
  do 4 gbind. proj. do 4 gbind. rename a9 into d2, E9 into Ed2.
  destruct (d2 >? mdp2) eqn:C2.
  { split; [eapply frame2_ext; [| | |exact Hf2]; reflexivity|]. split; auto. }
  gbind. proj.
  rewrite Z.gtb_ltb in C1, C2. apply Z.ltb_ge in C1, C2.
  destruct (Z.max d1 d2 =? 0) eqn:C0.
  { split; [eapply frame2_ext; [| | |exact Hf2]; reflexivity|].
    split; [auto|]. intros B1 B2. right.
    pose proof (prun2_nonneg _ _ _ _ _ B1 Ed1). lia. }
  do 3 gbind. proj.
  match goal with
  | |- context [mkLoop2 ?s ?n ?d ?b] => set (st0 := mkLoop2 s n d b)
  end.
  assert (0 <= dp) as Hdp0 by assumption.
  pose proof (setitem_agree_except _ _ _ _ Hdp0 E10) as Hpo.
  pose proof (setitem_agree_except _ _ _ _ Hdp0 E11) as Hax.
  assert (forall a' p', getitem (ax (m_sr st0)) dp = Ret a' ->
                        getitem (po (m_sr st0)) dp = Ret p' -> active a' p')
    as Hact.
  { intros a' p' Ha' Hp'. subst st0. proj.
    rewrite (getitem_setitem_same _ _ _ _ E11) in Ha'.
    rewrite (getitem_setitem_same _ _ _ _ E10) in Hp'.
    injection Ha' as <-. injection Hp' as <-. left. lia. }
  assert (frame2 dp sr (m_sr st0)) as Hf0.
  { eapply frame2_trans; [exact Hf2|].
    apply (frame2_of_except dp _ _ dp); subst st0; proj; auto; [lia|].
    intros Ht. apply (tail_clean_update sr2 _ dp dp); proj;
      eauto using active_clean. }
  assert (path_active (m_sr st0) dp (m_n st0)) as Hpa0.
  { intros i a' p' Hi. subst st0. proj.
    assert (i = dp) as -> by lia. apply Hact. }
  pose proof (phase2_loop_spec dp mdp2 Hdp fuel st0 (Z.le_refl _) Hpa0) as Hloop.
  destruct (phase2_loop T dp mdp2 fuel st0) as [|[s sr']|st1|];
    cbn [mbind ctl_bind]; try exact I.
  - destruct Hloop as [-> Hf]. split; [eapply frame2_trans; eauto|].
    split; auto.
  - destruct Hloop as (Hf & K1 & K2). subst st0. proj.
    split; [eapply frame2_trans; eauto|]. split; [right; right; lia|].
    intros B1 B2. right.
    pose proof (prun2_nonneg _ _ _ _ _ B1 Ed1).
    pose proof (prun2_nonneg _ _ _ _ _ B2 Ed2).
    apply Z.eqb_neq in C0.
    assert (1 <= mdp2) as Hm by lia. specialize (K2 Hm). lia.
Qed.

(** *** The bidirectional phase 2 *)

(** A [for] loop returns only what one of its rounds returns. *)
Lemma forC_Return {R A S} (P : R -> Prop) (f : S -> A -> ctl R S) :
  (forall s x r, f s x = Return r -> P r) ->
  forall l s r, forC f l s = Return r -> P r.
Proof.
  intros Hf. induction l as [|x l IH]; intros s r H; cbn in H; [discriminate|].
  destruct (f s x) as [|r'|s1|] eqn:E; cbn in H; try discriminate.
  - injection H as <-. eapply Hf; eauto.
  - eapply IH; eauto.
Qed.

Lemma forC_Return_in {R A S} (P : R -> Prop) (f : S -> A -> ctl R S) :
  forall l,
    (forall s x r, x ∈ l -> f s x = Return r -> P r) ->
    forall s r, forC f l s = Return r -> P r.
Proof.
  induction l as [|x l IH]; intros Hf s r H; cbn in H; [discriminate|].
  destruct (f s x) as [|r'|s1|] eqn:E; cbn in H; try discriminate.
  - injection H as <-. eapply Hf; [|eauto]. left.
  - eapply IH; [|eauto]. intros s' y r' Hy. apply Hf. now right.
Qed.

(** The backward pass stops at its first table reference. *)
Lemma expand_backward_raises (dp : Z) (sr : Search) (forward : pdict)
    (state d : Z) (path : list (Z * Z)) (rest : pdict) (b_visited : gset Z) :
  expand_backward dp sr forward ((state, (d, path)) :: rest) b_visited
  = Exn AttributeError.
Proof. reflexivity. Qed.

(** From a one-entry frontier at depth 0 and the backward frontier that
    holds only the goal, the forward pass can only return
    [depthPhase1 + 1], and it writes no move. *)
Lemma expand_forward_first (dp : Z) (sr : Search) (h : Z) (f_visited : gset Z) :
  match expand_forward T dp sr [(h, (0, []))] [(0, (0, []))] f_visited with
  | Return (s, sr') => sr' = sr /\ s = dp + 1
  | _ => True
  end.
Proof.
  destruct (expand_forward T dp sr [(h, (0, []))] [(0, (0, []))] f_visited)
    as [|[s sr']|?|] eqn:H; try exact I.
  unfold expand_forward in H.
  match type of H with
  | (?m ≫= _) = _ => destruct m as [|r|acc|] eqn:Hm; cbn [mbind ctl_bind] in H;
                     try discriminate
  end.
  2:{ destruct acc; discriminate. }
  injection H as ->.
  revert Hm.
  set (P := fun r : Z * Search => r.2 = sr /\ r.1 = dp + 1).
  change (sr' = sr /\ s = dp + 1) with (P (s, sr')).
  apply (forC_Return_in P).
  intros acc x r Hx. apply list_elem_of_singleton in Hx. subst x.
  apply (forC_Return P). intros acc' mv r'. apply (forC_Return P).
  subst P. clear.
  intros [fv nf] p r H.
  cbn [is_move_redundant last_axis last Z.eqb] in H.
  bind_in H. rename a into new_state.
  destruct (decide (new_state ∈ fv)); [discriminate|].
  cbn [dict_get] in H.
  destruct (0 =? new_state); [|discriminate].
  cbn in H. injection H as <-. cbn. split; [reflexivity|lia].
Qed.

(** With no phase-2 budget neither frontier is expanded and neither is
    empty: the loop goes round for ever. *)
Lemma bidirectional_loop_stuck (dp mdp2 : Z) (sr : Search) (h : Z)
    (f_visited b_visited : gset Z) :
  mdp2 <= 0 ->
  forall fuel,
    bidirectional_loop T dp mdp2 fuel sr [(h, (0, []))] [(0, (0, []))]
                       f_visited b_visited = OutOfFuel.
Proof.
  intros Hm. induction fuel as [|fuel IH]; [reflexivity|].
  cbn [bidirectional_loop nonempty min_depth fold_left andb negb].
  destruct (0 <? mdp2) eqn:C; [apply Z.ltb_lt in C; lia|].
  cbn [mbind ctl_bind]. exact IH.
Qed.

Lemma bidirectional_spec (fuel : nat) (sr : Search) (dp maxDepth : Z) :
  match bidirectional_totalDepth T fuel sr dp maxDepth with
  | Return (s, sr') => sr' = sr /\ s = dp + 1 /\ dp + 1 <= maxDepth
  | Next _ => False
  | _ => True
  end.
Proof.
  unfold bidirectional_totalDepth.
  set (mdp2 := Z.min 10 (maxDepth - dp)).
  destruct (get_phase2_hash sr dp) as [|h]; cbn [lift mbind ctl_bind];
    [exact I|].
  destruct (Z.le_gt_cases mdp2 0) as [Hm|Hm].
  { now rewrite bidirectional_loop_stuck. }
  destruct fuel as [|fuel]; [exact I|].
  cbn [bidirectional_loop nonempty min_depth fold_left andb negb].
  destruct (0 <? mdp2) eqn:C; [|apply Z.ltb_ge in C; lia].
  pose proof (expand_forward_first dp sr h {[h]}) as Hfw.
  destruct (expand_forward T dp sr [(h, (0, []))] [(0, (0, []))] {[h]})
    as [|[s sr']|[forward f_visited]|]; cbn [mbind ctl_bind];
    try rewrite expand_backward_raises; try exact I.
  destruct Hfw as [-> ->]. split; [reflexivity|]. split; [reflexivity|].
  subst mdp2. lia.
Qed.

(** *** The driver *)

(** The pruning tables hold bytes. *)
Definition tables_ok : Prop :=
  bytes_ok (Slice_Flip_Prun T) /\ bytes_ok (Slice_Twist_Prun T) /\
  bytes_ok (Slice_URFtoDLF_Parity_Prun T) /\
  bytes_ok (Slice_URtoDF_Parity_Prun T).

Lemma get_enhanced_heuristic_nonneg (flip twist slice_coord h : Z) :
  bytes_ok (Slice_Flip_Prun T) -> bytes_ok (Slice_Twist_Prun T) ->
  get_enhanced_heuristic T flip twist slice_coord 1 = Ret h -> 0 <= h.
Proof.
  intros B1 B2 H. unfold get_enhanced_heuristic in H. cbn [Z.eqb Pos.eqb] in H.
  rbind_in H. rbind_in H. injection H as <-.
  pose proof (read_nibble_range _ _ _ B1 E).
  pose proof (read_nibble_range _ _ _ B2 E0).
  destruct ((flip <? 100) && (twist <? 100)); lia.
Qed.

Variable elapsed : nat -> Z.
Variable maxDepth timeOut : Z.

(** What a found solution satisfies, in terms of the state the outer loop
    was entered with. *)
Definition found_ok (st : loop1) (r : ctl verdict Empty_set) : Prop :=
  match r with
  | Return (Error msg) => search_error msg
  | Return (Found sr s d) =>
      1 <= d /\ d <= s /\ pairs_ok sr (d - 1) /\
      (tables_ok -> bounded1 maxDepth st ->
       s <= maxDepth /\
       (tail_clean (l_sr st) (l_depthPhase1 st) -> tail_clean sr d))
  | _ => True
  end.

Lemma solve_loop_spec (fuel : nat) :
  forall st,
    0 <= l_n st -> 1 <= l_depthPhase1 st -> pairs_ok (l_sr st) (l_n st) ->
    found_ok st (solve_loop T elapsed maxDepth timeOut fuel st).
Proof.
  induction fuel as [|fuel IH]; intros st Hn Hd Hp; [exact I|].
  cbn [solve_loop].
  destruct (next_node1 elapsed maxDepth timeOut fuel st) as [|msg|st1|] eqn:En;
    cbn [mbind ctl_bind]; try exact I.
  { eapply next_node1_error; eauto. }
  apply next_node1_spec in En; [|assumption|assumption].
  destruct En as (Hn1 & Hp1 & Hb1 & Hd1 & Hm1 & HB).
  destruct st1 as [sr1 n dp busy1 ticks1]. proj. subst busy1.
  (* every way of going round the loop again *)
  assert (forall srX,
    (forall i, 0 <= i <= n -> getitem (ax srX) i = getitem (ax sr1) i) ->
    (tail_clean sr1 dp -> tail_clean srX dp) ->
    (forall md, getitem (minDistPhase1 srX) (n + 1) = Ret md ->
                tables_ok -> 0 <= md /\ (n = dp - 1 -> 1 <= md)) ->
    found_ok st (solve_loop T elapsed maxDepth timeOut fuel
                   (mkLoop1 srX n dp false ticks1))) as Hcont.
  { intros srX Hax Htc Hmd.
    specialize (IH (mkLoop1 srX n dp false ticks1)). proj.
    assert (pairs_ok srX n) as HpX by (eapply pairs_ok_agree; eauto).
    specialize (IH Hn1 ltac:(lia) HpX).
    destruct (solve_loop T elapsed maxDepth timeOut fuel
                (mkLoop1 srX n dp false ticks1)) as [|[msg|sr s d]| |];
      try exact I; [exact IH|].
    destruct IH as (K1 & K2 & K3 & K4).
    split; [assumption|]. split; [assumption|]. split; [assumption|].
    intros Hok Hbd. specialize (HB Hbd) as (B1 & B2 & B3 & B4).
    destruct (K4 Hok) as [L1 L2].
    { split; [assumption|]. split; [|assumption]. proj.
      intros _ md Hget. apply Hmd; assumption. }
    split; [exact L1|]. intros Htl. apply L2.
    proj. apply Htc. apply (tail_clean_weaken _ (l_depthPhase1 st)); [lia|].
    eapply tail_clean_agree; eauto. }
  do 13 gbind. proj.
  rename a10 into h, E10 into Eh, a11 into md1, E11 into Emd1.
  pose proof (getitem_setitem_same _ _ _ _ Emd1) as Hget1.
  destruct ((h =? 0) && (n >=? dp - 5)) eqn:Ch.
  2:{ (* the node is not yet in the subgroup *)
      apply Hcont; proj; auto.
      intros md Hget (T1 & T2 & _). rewrite Hget1 in Hget. injection Hget as <-.
      pose proof (get_enhanced_heuristic_nonneg _ _ _ _ T1 T2 Eh).
      split; [assumption|]. intros ->.
      apply andb_false_iff in Ch as [Ch|Ch]; [apply Z.eqb_neq in Ch; lia|].
      rewrite Z.geb_leb in Ch. apply Z.leb_gt in Ch. lia. }
  gbind. rename a10 into md2, E10 into Emd2. proj.
  pose proof (getitem_setitem_same _ _ _ _ Emd2) as Hget2.
  assert (forall md, getitem md2 (n + 1) = Ret md ->
                     tables_ok -> 0 <= md /\ (n = dp - 1 -> 1 <= md)) as Hten.
  { intros md Hget _. rewrite Hget2 in Hget. injection Hget as <-. lia. }
  destruct (n =? dp - 1) eqn:Cn.
  2:{ apply Hcont; proj; auto. }
  apply Z.eqb_eq in Cn.
  match goal with
  | |- context [totalDepth T fuel ?s dp maxDepth] => set (sr2 := s)
  end.
  assert (0 <= dp) as Hdp0 by lia.
  pose proof (totalDepth_spec fuel sr2 dp maxDepth Hdp0) as Htd.
  destruct (totalDepth T fuel sr2 dp maxDepth) as [|[s sr3]|?|];
    cbn [call mbind ctl_bind]; try exact I; [|contradiction].
  destruct Htd as ((Fa & Fp & Fm & Ft) & Hs & Hsb).
  assert (forall i, 0 <= i <= n -> getitem (ax sr3) i = getitem (ax sr1) i)
    as Hax3.
  { intros i Hi. rewrite Fa by lia. subst sr2. proj. reflexivity. }
  assert (tail_clean sr1 dp -> tail_clean sr3 dp) as Htc3.
  { intros Ht. apply Ft. eapply tail_clean_ext; [| |exact Ht];
      subst sr2; reflexivity. }
  assert (minDistPhase1 sr3 = md2) as Hmd3
    by (rewrite Fm; subst sr2; reflexivity).
  (* the acceptance test and the return *)
  assert (forall s' sr4,
    sr4 = sr3 -> dp <= s' -> (tables_ok -> s' <= maxDepth) ->
    found_ok st
      ((if s' >=? 0
        then
          (if s' =? dp then Next true
           else a1 ← lift (getitem (ax sr4) (dp - 1));
                a2 ← lift (getitem (ax sr4) dp);
                Next (negb (a1 =? a2) && negb (a1 =? a2 + 3)))
          ≫= (λ accept : bool,
                if accept then Return (Found sr4 s' dp)
                else solve_loop T elapsed maxDepth timeOut fuel
                       (mkLoop1 sr4 n dp false ticks1))
        else solve_loop T elapsed maxDepth timeOut fuel
               (mkLoop1 sr4 n dp false ticks1)) : ctl verdict Empty_set))
    as Hacc.
  { intros s' sr4 -> Hs' Hmax.
    assert (found_ok st (Return (Found sr3 s' dp))) as Hfound.
    { split; [lia|]. split; [assumption|]. split.
      - apply (pairs_ok_agree sr1); [|rewrite Cn in Hp1; exact Hp1].
        intros i Hi. apply Hax3. lia.
      - intros Hok Hbd. split; [auto|]. intros Htl.
        specialize (HB Hbd) as (B1 & B2 & B3 & B4). apply Htc3.
        apply (tail_clean_weaken _ (l_depthPhase1 st)); [lia|].
        eapply tail_clean_agree; eauto. }
    assert (found_ok st (solve_loop T elapsed maxDepth timeOut fuel
                           (mkLoop1 sr3 n dp false ticks1))) as Hagain
      by (apply Hcont; [exact Hax3|exact Htc3|rewrite Hmd3; exact Hten]).
    destruct (s' >=? 0); [|exact Hagain].
    destruct (s' =? dp); cbn [mbind ctl_bind]; [exact Hfound|].
    destruct (getitem (ax sr3) (dp - 1)); cbn [lift mbind ctl_bind];
      [exact I|].
    destruct (getitem (ax sr3) dp); cbn [lift mbind ctl_bind]; [exact I|].
    destruct (negb _ && negb _); [exact Hfound|exact Hagain]. }
  destruct ((s <? 0) && (maxDepth - dp <=? 8)) eqn:Cb.
  - pose proof (bidirectional_spec fuel sr3 dp maxDepth) as Hbi.
    destruct (bidirectional_totalDepth T fuel sr3 dp maxDepth)
      as [|[s' sr4]|?|]; cbn [call mbind ctl_bind]; try exact I;
      [|contradiction].
    destruct Hbi as (-> & -> & Hle). apply Hacc; [reflexivity|lia|lia].
  - cbn [mbind ctl_bind].
    destruct (s >=? 0) eqn:Cs.
    + rewrite Z.geb_leb in Cs. apply Z.leb_le in Cs.
      pose proof (Hacc s sr3 eq_refl) as Hacc'.
      assert ((s >=? 0) = true) as Cs'
        by (rewrite Z.geb_leb; now apply Z.leb_le).
      rewrite Cs' in Hacc'. apply Hacc'; [lia|].
      intros (_ & _ & T3 & T4). destruct (Hsb T3 T4); lia.
    + apply Hcont; [exact Hax3|exact Htc3|rewrite Hmd3; exact Hten].
Qed.

Variable fe : Frontend.

(** Every way out of the search: the four error strings, or a solution of
    at least one move whose phase-1 part obeys the pruning rule. *)
Lemma solution_search_spec (fuel : nat) (self : Search) (facelets : string) :
  match solution_search T elapsed fe fuel self facelets maxDepth timeOut with
  | Return (Error msg) =>
      msg = "Error 1"%string \/
      (exists s, msg = ("Error " ++ pretty (Z.abs s))%string) \/
      search_error msg
  | Return (Found sr s d) =>
      1 <= d /\ d <= s /\ pairs_ok sr (d - 1) /\
      (tables_ok ->
       s <= maxDepth /\ (tail_clean self 1 -> tail_clean sr d))
  | _ => True
  end.
Proof.
  unfold solution_search.
  destruct (check_input facelets); cbn [negb]; [|now left].
  gbind. rename a into code.
  destruct (code =? 0); cbn [negb]; [|right; left; now exists code].
  do 12 gbind. proj.
  match goal with
  | |- context [mkLoop1 ?s 0 1 false 0%nat] => set (st0 := mkLoop1 s 0 1 false 0%nat)
  end.
  assert (pairs_ok (l_sr st0) (l_n st0)) as Hp0
    by (intros k a' b' Hk; subst st0; proj; lia).
  pose proof (solve_loop_spec fuel st0 (Z.le_refl 0) (Z.le_refl 1) Hp0) as Hloop.
  destruct (solve_loop T elapsed maxDepth timeOut fuel st0)
    as [|[msg|sr s d]| |]; try exact I.
  - right. right. exact Hloop.
  - destruct Hloop as (K1 & K2 & K3 & K4).
    split; [assumption|]. split; [assumption|]. split; [assumption|].
    intros Hok. destruct (K4 Hok) as [L1 L2].
    { subst st0. unfold bounded1. proj. split; [lia|]. split; [|now left].
      intros _ md Hget. change (0 + 1) with 1 in Hget.
      rewrite (getitem_setitem_same _ _ _ _ E11) in Hget.
      injection Hget as <-. lia. }
    split; [exact L1|]. intros Htl. apply L2. subst st0. proj.
    eapply tail_clean_agree; [| |exact Htl]; proj.
    + eapply agree_except_from;
        [| |eapply (setitem_agree_except _ _ 0); [|exact E2]]; lia.
    + eapply agree_except_from;
        [| |eapply (setitem_agree_except _ _ 0); [|exact E1]]; lia.
Qed.

End SolverFacts.

(** *** The main loop, node by node *)

(** The main loop is the generator, [store_node] and [after_node], round
    and round. *)
Lemma solve_loop_nodes (T : Tables) (elapsed : nat -> Z) (maxDepth timeOut : Z)
    (fuel : nat) (st : loop1) :
  solve_loop T elapsed maxDepth timeOut (S fuel) st =
  match next_node1 elapsed maxDepth timeOut fuel st with
  | Exn e => Exn e
  | Return msg => Return (Error msg)
  | OutOfFuel => OutOfFuel
  | Next st1 =>
      match store_node T st1 with
      | Raise e => Exn e
      | Ret (sr, h) =>
          match after_node T maxDepth fuel st1 sr h with
          | Exn e => Exn e
          | Return v => Return v
          | OutOfFuel => OutOfFuel
          | Next sr' =>
              solve_loop T elapsed maxDepth timeOut fuel
                (mkLoop1 sr' (l_n st1) (l_depthPhase1 st1) (l_busy st1)
                         (l_ticks st1))
          end
      end
  end.
Proof.
  cbn [solve_loop].
  destruct (next_node1 elapsed maxDepth timeOut fuel st) as [e|msg|st1|];
    cbn [mbind ctl_bind]; try reflexivity.
  unfold store_node.
  repeat match goal with
  | |- context [lift ?m] =>
      lazymatch m with
      | setitem (minDistPhase1 _) _ 10 => fail
      | _ => destruct m; cbn [lift mbind ctl_bind res_bind]; [reflexivity|]
      end
  end.
  unfold after_node.
  destruct ((_ =? 0) && (_ >=? _ - 5)); [|reflexivity].
  destruct (setitem _ _ 10); cbn [lift mbind ctl_bind]; [reflexivity|].
  destruct (l_n st1 =? l_depthPhase1 st1 - 1); [|reflexivity].
  destruct (totalDepth _ _ _ _ _) as [|[s sr]|[s sr]|];
    cbn [call mbind ctl_bind]; try reflexivity.
  all: match goal with |- context [(?s0 <? 0) && ?c] => destruct ((s0 <? 0) && c) end;
    [destruct (bidirectional_totalDepth _ _ _ _ _) as [|[s' sr']|[s' sr']|];
       cbn [call mbind ctl_bind]; try reflexivity|cbn [mbind ctl_bind]].
  all: match goal with |- context [?x >=? 0] => destruct (x >=? 0); [|reflexivity] end.
  all: match goal with |- context [if ?x =? ?d then Next true else _] =>
         destruct (x =? d); cbn [mbind ctl_bind]; [reflexivity|] end.
  all: repeat match goal with
       | |- context [lift ?m] => destruct m; cbn [lift mbind ctl_bind]; [reflexivity|]
       end.
  all: match goal with |- context [negb ?x && negb ?y] => destruct (negb x && negb y); reflexivity end.
Qed.

(** [solution] is [search_start] and then the main loop. *)
Lemma solution_search_start (T : Tables) (elapsed : nat -> Z) (fe : Frontend)
    (fuel : nat) (self : Search) (facelets : string) (maxDepth timeOut : Z) :
  solution_search T elapsed fe fuel self facelets maxDepth timeOut =
  match search_start fe self facelets with
  | Exn e => Exn e
  | Return v => Return v
  | Next st => solve_loop T elapsed maxDepth timeOut fuel st
  | OutOfFuel => OutOfFuel
  end.
Proof.
  unfold solution_search, search_start.
  destruct (negb (check_input facelets)); [reflexivity|].
  destruct (fe_verify fe facelets) as [|s]; cbn [lift mbind ctl_bind];
    [reflexivity|].
  destruct (negb (s =? 0)); [reflexivity|].
  repeat match goal with
  | |- context [lift ?m] =>
      destruct m; cbn [lift mbind ctl_bind]; [reflexivity|]
  end.
  reflexivity.
Qed.

(** The invariant of the main loop. *)
Definition loop_inv (st : loop1) : Prop :=
  0 <= l_n st /\ 1 <= l_depthPhase1 st /\ pairs_ok (l_sr st) (l_n st).


Lemma next_node1_inv (elapsed : nat -> Z) (maxDepth timeOut : Z) (fuel : nat)
    (st st1 : loop1) :
  loop_inv st -> next_node1 elapsed maxDepth timeOut fuel st = Next st1 ->
  loop_inv st1.
Proof.
  intros (Hn & Hd & Hp) H.
  apply next_node1_spec in H; [|assumption|assumption].
  destruct H as (Hn1 & Hp1 & _ & Hd1 & _).
  split; [assumption|]. split; [lia|assumption].
Qed.

(** The heuristic as a function of the two table entries. *)
Definition heuristic_of (flip twist h1 h2 : Z) : Z :=
  if (flip <? 100) && (twist <? 100) then Z.max 0 (Z.max h1 h2 - 1)
  else Z.max h1 h2.

Lemma get_enhanced_heuristic_value (T : Tables) (flip twist slice_coord h : Z) :
  get_enhanced_heuristic T flip twist slice_coord 1 = Ret h ->
  exists h1 h2,
    read_nibble (Slice_Flip_Prun T) (N_SLICE1 * flip + slice_coord) = Ret h1 /\
    read_nibble (Slice_Twist_Prun T) (N_SLICE1 * twist + slice_coord) = Ret h2 /\
    h = heuristic_of flip twist h1 h2.
Proof.
  unfold get_enhanced_heuristic. cbn [Z.eqb Pos.eqb]. intros H.
  rbind_in H. rbind_in H. injection H as <-.
  eexists _, _. split; [reflexivity|]. split; reflexivity.
Qed.

(** What [store_node] leaves in the arrays. *)
Lemma store_node_spec (T : Tables) (st1 : loop1) (sr : Search) (h : Z) :
  store_node T st1 = Ret (sr, h) ->
  ax sr = ax (l_sr st1) /\ po sr = po (l_sr st1) /\
  getitem (minDistPhase1 sr) (l_n st1 + 1) = Ret h /\
  exists fl tw sl h1 h2,
    getitem (flip sr) (l_n st1 + 1) = Ret fl /\
    getitem (twist sr) (l_n st1 + 1) = Ret tw /\
    getitem (slice sr) (l_n st1 + 1) = Ret sl /\
    read_nibble (Slice_Flip_Prun T) (N_SLICE1 * fl + sl) = Ret h1 /\
    read_nibble (Slice_Twist_Prun T) (N_SLICE1 * tw + sl) = Ret h2 /\
    h = heuristic_of fl tw h1 h2.
Proof.
  unfold store_node. intros H.
  do 13 rbind_in H. injection H as <- <-. proj.
  split; [reflexivity|]. split; [reflexivity|].
  split; [eapply getitem_setitem_same; eassumption|].
  match goal with
  | Hh : get_enhanced_heuristic _ _ _ _ _ = Ret _ |- _ =>
      destruct (get_enhanced_heuristic_value _ _ _ _ _ Hh) as (h1 & h2 & R1 & R2 & ->)
  end.
  eexists _, _, _, h1, h2.
  repeat split; try eassumption; eapply getitem_setitem_same; eassumption.
Qed.

(** The value a pass over a node leaves in [minDistPhase1]. *)
Definition stored_value (h n depthPhase1 : Z) : Z :=
  if (h =? 0) && (n >=? depthPhase1 - 5) then 10 else h.

(** Peel the first statement off a monadic goal. *)
Ltac node_bind :=
  match goal with
  | |- context [lift ?m] =>
      let x := fresh "a" in
      let E := fresh "E" in
      remember m as x eqn:E in |- *; symmetry in E;
      destruct x; cbn [lift mbind ctl_bind]; [exact I|]
  end.

(** What [after_node] ends with. *)
Definition after_ok (st1 : loop1) (sr : Search) (h : Z) (sr' : Search) : Prop :=
  getitem (minDistPhase1 sr') (l_n st1 + 1)
    = Ret (stored_value h (l_n st1) (l_depthPhase1 st1)) /\
  agree_below (ax sr) (ax sr') (l_n st1 + 1).

Lemma after_node_spec (T : Tables) (maxDepth : Z) (fuel : nat) (st1 : loop1)
    (sr : Search) (h : Z) :
  0 <= l_n st1 ->
  getitem (minDistPhase1 sr) (l_n st1 + 1) = Ret h ->
  match after_node T maxDepth fuel st1 sr h with
  | Next sr' => after_ok st1 sr h sr'
  | Return (Found sr' s d) =>
      after_ok st1 sr h sr' /\ d = l_depthPhase1 st1 /\ l_n st1 = d - 1
  | Return (Error _) => False
  | _ => True
  end.
Proof.
  intros Hn Hh. unfold after_node, after_ok, stored_value.
  destruct ((h =? 0) && (l_n st1 >=? l_depthPhase1 st1 - 5)) eqn:C;
    [|split; [assumption|intros i Hi; reflexivity]].
  node_bind. rename a into l, E into El. proj.
  assert (forall srX, minDistPhase1 srX = l ->
            getitem (minDistPhase1 srX) (l_n st1 + 1) = Ret 10) as Hten.
  { intros srX ->. eapply getitem_setitem_same; eassumption. }
  destruct (l_n st1 =? l_depthPhase1 st1 - 1) eqn:Cn;
    [|split; [now apply Hten|intros i Hi; reflexivity]].
  apply Z.eqb_eq in Cn.
  set (sr0 := set_minDistPhase1 sr l).
  pose proof (totalDepth_spec T fuel sr0 (l_depthPhase1 st1) maxDepth
                ltac:(lia)) as Ht.
  destruct (totalDepth T fuel sr0 (l_depthPhase1 st1) maxDepth)
    as [|[s sr1]|[s sr1]|]; cbn [call mbind ctl_bind]; try exact I;
    [|destruct Ht].
  destruct Ht as ((Fa & Fp & Fm & _) & _).
  assert (getitem (minDistPhase1 sr1) (l_n st1 + 1) = Ret 10
          /\ agree_below (ax sr) (ax sr1) (l_n st1 + 1)) as Hsr1.
  { split; [apply Hten; rewrite Fm; reflexivity|].
    intros i Hi. apply Fa. lia. }
  destruct ((s <? 0) && (maxDepth - l_depthPhase1 st1 <=? 8)).
  - pose proof (bidirectional_spec T fuel sr1 (l_depthPhase1 st1) maxDepth) as Hb.
    destruct (bidirectional_totalDepth T fuel sr1 (l_depthPhase1 st1) maxDepth)
      as [|[s2 sr2]|[s2 sr2]|]; cbn [call mbind ctl_bind]; try exact I;
      [|destruct Hb].
    destruct Hb as (-> & _).
    destruct (s2 >=? 0); [|assumption].
    destruct (s2 =? l_depthPhase1 st1); cbn [mbind ctl_bind];
      [split; [assumption|split; [reflexivity|assumption]]|].
    node_bind. node_bind.
    destruct (negb (a =? a0) && negb (a =? a0 + 3));
      [split; [assumption|split; [reflexivity|assumption]]|assumption].
  - cbn [mbind ctl_bind].
    destruct (s >=? 0); [|assumption].
    destruct (s =? l_depthPhase1 st1); cbn [mbind ctl_bind];
      [split; [assumption|split; [reflexivity|assumption]]|].
    node_bind. node_bind.
    destruct (negb (a =? a0) && negb (a =? a0 + 3));
      [split; [assumption|split; [reflexivity|assumption]]|assumption].
Qed.

Lemma next_round_inv (T : Tables) (maxDepth : Z) (fuel : nat) (st1 st' : loop1) :
  loop_inv st1 -> next_round T maxDepth fuel st1 = Some st' -> loop_inv st'.
Proof.
  intros (Hn & Hd & Hp) H. unfold next_round in H.
  destruct (store_node T st1) as [|[sr h]] eqn:Es; [discriminate|].
  apply store_node_spec in Es as (Ea & _ & Hh & _).
  pose proof (after_node_spec T maxDepth fuel st1 sr h Hn Hh) as Ha.
  destruct (after_node T maxDepth fuel st1 sr h) as [| |sr'|]; try discriminate.
  injection H as <-. destruct Ha as [_ Ha].
  split; [assumption|]. split; [assumption|]. proj.
  intros k a b Hk Hka Hkb. apply (Hp k); [assumption| |].
  - rewrite <- Ea, <- Hka. symmetry. apply Ha. lia.
  - rewrite <- Ea, <- Hkb. symmetry. apply Ha. lia.
Qed.


(** A solution found is the last node explored: the loop returns from the
    pass over the node at level [depthPhase1 - 1], with the phase-1 moves
    of that node. *)
Lemma solve_loop_last_explored (T : Tables) (elapsed : nat -> Z)
    (maxDepth timeOut : Z) (fuel : nat) (sr : Search) (s d : Z) :
  forall st,
    loop_inv st ->
    solve_loop T elapsed maxDepth timeOut fuel st = Return (Found sr s d) ->
    exists node,
      last (explored T elapsed maxDepth timeOut fuel st) = Some node /\
      l_n node = d - 1 /\ l_depthPhase1 node = d /\
      agree_below (ax (l_sr node)) (ax sr) d.
Proof.
  induction fuel as [|fuel IH]; intros st Hi H; [discriminate|].
  rewrite solve_loop_nodes in H. cbn [explored]. unfold next_round.
  destruct (next_node1 elapsed maxDepth timeOut fuel st) as [| |st1|] eqn:En;
    try discriminate.
  pose proof (next_node1_inv _ _ _ _ _ _ Hi En) as Hi1.
  pose proof (next_round_inv T maxDepth fuel st1) as Hr. unfold next_round in Hr.
  destruct (store_node T st1) as [|[sr0 h]] eqn:Es; [discriminate|].
  apply store_node_spec in Es as (Ea & _ & Hh & _).
  pose proof (after_node_spec T maxDepth fuel st1 sr0 h (proj1 Hi1) Hh) as Ha.
  destruct (after_node T maxDepth fuel st1 sr0 h) as [|v|sr'|]; try discriminate.
  - injection H as ->. destruct Ha as ((_ & Ha) & Hd & Hn).
    exists st1. split; [reflexivity|]. split; [assumption|].
    split; [now symmetry|]. rewrite <- Ea. intros i Hk. apply Ha. lia.
  - destruct (IH _ (Hr _ Hi1 eq_refl) H) as (node & Hl & Hrest).
    exists node. split; [|assumption]. rewrite last_cons, Hl. reflexivity.
Qed.

(** *** Printing *)

(** The number of face letters of a string. *)
Fixpoint count_faces (s : string) : Z :=
  match s with
  | EmptyString => 0
  | String c s' =>
      (match colors c with Some _ => 1 | None => 0 end) + count_faces s'
  end.

Lemma count_faces_app (a b : string) :
  count_faces (a ++ b) = count_faces a + count_faces b.
Proof.
  induction a as [|c a IH]; [reflexivity|].
  change (String c a +:+ b) with (String c (a +:+ b)).
  cbn [count_faces]. rewrite IH. lia.
Qed.

Lemma getitem_elem_of {A} (l : list A) (i : Z) (x : A) :
  getitem l i = Ret x -> x ∈ l.
Proof.
  unfold getitem. destruct (norm_index l i) as [k|]; [|discriminate].
  destruct (l !! k) as [y|] eqn:E; [|discriminate].
  intros [= <-]. eapply list_elem_of_lookup_2; eauto.
Qed.

Lemma face_count (a : Z) (face : string) :
  getitem ax_to_s a = Ret face -> count_faces face = 1.
Proof.
  intros H. apply getitem_elem_of in H. unfold ax_to_s in H.
  repeat (apply elem_of_cons in H as [->|H]; [reflexivity|]).
  now apply elem_of_nil in H.
Qed.

Lemma suffix_count (p : Z) (t : string) :
  getitem po_to_s p = Ret (Some t) -> count_faces t = 0.
Proof.
  intros H. apply getitem_elem_of in H. unfold po_to_s in H.
  repeat (apply elem_of_cons in H as [H|H];
          [try discriminate; injection H as ->; reflexivity|]).
  now apply elem_of_nil in H.
Qed.

(** [solutionToString] prints one face letter for each move. *)
Lemma solutionToString_count (sr : Search) (len : Z) (d : option Z) (str : string) :
  solutionToString sr len d = Ret str -> count_faces str = Z.max 0 len.
Proof.
  unfold solutionToString. rewrite <- length_range.
  generalize (range len) as l.
  assert (forall l acc, foldM (λ (s : string) (i : Z),
              a ← getitem (ax sr) i;
              face ← getitem ax_to_s a;
              p ← getitem (po sr) i;
              suffix ← getitem po_to_s p;
              match suffix with
              | Some t =>
                  Ret match d with
                      | Some d0 => if i =? d0 - 1
                                   then ((s ++ face ++ t) ++ ". ")%string
                                   else (s ++ face ++ t)%string
                      | None => (s ++ face ++ t)%string
                      end
              | None => Raise TypeError
              end) l acc = Ret str ->
            count_faces str = count_faces acc + Z.of_nat (length l)) as Hgen.
  { induction l as [|i l IH]; intros acc H; cbn [foldM] in H.
    - injection H as <-. cbn. lia.
    - rbind_in H. apply IH in H. rewrite H.
      do 4 rbind_in E. destruct a3 as [t|]; [|discriminate].
      injection E as <-.
      pose proof (face_count _ _ E1). pose proof (suffix_count _ _ E3).
      cbn [length].
      destruct d as [d0|]; [destruct (i =? d0 - 1)|];
        rewrite ?count_faces_app; cbn [count_faces]; cbn; lia. }
  intros l H. apply Hgen in H. cbn in H. lia.
Qed.

(** A [for] loop that ends normally ran each of its rounds normally. *)
Lemma foldM_each {A S} (f : S -> A -> res S) :
  forall l s r, foldM f l s = Ret r ->
  forall x, x ∈ l -> exists s1 s2, f s1 x = Ret s2.
Proof.
  induction l as [|y l IH]; intros s r H x Hx; [now apply elem_of_nil in Hx|].
  cbn [foldM] in H. rbind_in H.
  apply elem_of_cons in Hx as [->|Hx]; [eauto|]. eapply IH; eauto.
Qed.


(** *** Main results on the search *)

Lemma bytes_ok_forallb (t : list Z) :
  forallb (fun b => (0 <=? b) && (b <? 256)) t = true -> bytes_ok t.
Proof.
  intros H. apply Forall_forall. intros b Hb.
  rewrite forallb_forall in H. apply list_elem_of_In in Hb.
  specialize (H b Hb). apply andb_true_iff in H. lia.
Qed.

Lemma example_tables_ok : tables_ok Example.tables.
Proof. repeat split; apply bytes_ok_forallb; vm_compute; reflexivity. Defined.

Lemma example_tables_UD_ok : tables_ok Example.tables_UD.
Proof. repeat split; apply bytes_ok_forallb; vm_compute; reflexivity. Defined.

Lemma error_prefix (msg : string) :
  msg = "Error 1"%string \/
  (exists s, msg = ("Error " ++ pretty (Z.abs s))%string) \/
  search_error msg ->
  String.prefix "Error" msg = true.
Proof. intros [->|[[s ->]|[->| ->]]]; reflexivity. Qed.

(** C2: with byte-valued pruning tables, a move sequence returned by
    [solution] (any string that is not an error message) has at most
    [maxDepth] moves, on every return path: the phase-2 search is capped at
    [maxDepth - depthPhase1], and the bidirectional routine returns only
    [depthPhase1 + 1] and only when that cap is at least 1. *)
Theorem solution_length_bound (T : Tables) (elapsed : nat -> Z) (fe : Frontend)
    (fuel : nat) (self : Search) (facelets : string) (maxDepth timeOut : Z)
    (useSeparator : bool) (str : string) :
  tables_ok T ->
  solution T elapsed fe fuel self facelets maxDepth timeOut useSeparator
    = Return str ->
  String.prefix "Error" str = false ->
  count_faces str <= maxDepth.
Proof.
  intros Hok H Hne. unfold solution in H.
  pose proof (solution_search_spec T elapsed maxDepth timeOut fe fuel self facelets)
    as Hs.
  destruct (solution_search T elapsed fe fuel self facelets maxDepth timeOut)
    as [|[msg|sr s d]|[]|]; try discriminate.
  - injection H as <-. apply error_prefix in Hs. congruence.
  - destruct (solutionToString sr s (if useSeparator then Some d else None))
      as [|str'] eqn:Estr; [discriminate|].
    injection H as <-. destruct Hs as (K1 & K2 & K3 & K4).
    destruct (K4 Hok) as [L1 _].
    rewrite (solutionToString_count _ _ _ _ Estr). lia.
Qed.

Lemma solution_length_bound_witness : count_faces "R U " <= 24.
Proof.
  apply (solution_length_bound Example.tables (fun _ => 0) Example.frontend
           60 init Example.solved_facelets 24 1000 false "R U ").
  - exact example_tables_ok.
  - vm_compute. reflexivity.
  - reflexivity.
Defined.






(** The formatted result is never the empty string: an error message is not
    empty, and a solution found at depth [s >= depthPhase1 >= 1] prints at
    least one face letter. *)
Lemma solution_result_nonempty (T : Tables) (elapsed : nat -> Z) (fe : Frontend)
    (fuel : nat) (self : Search) (facelets : string) (maxDepth timeOut : Z)
    (useSeparator : bool) (str : string) :
  solution T elapsed fe fuel self facelets maxDepth timeOut useSeparator
    = Return str ->
  str <> ""%string.
Proof.
  intros H ->. unfold solution in H.
  pose proof (solution_search_spec T elapsed maxDepth timeOut fe fuel self facelets)
    as Hs.
  destruct (solution_search T elapsed fe fuel self facelets maxDepth timeOut)
    as [|[msg|sr s d]|[]|]; try discriminate.
  - injection H as ->. apply error_prefix in Hs. discriminate.
  - destruct (solutionToString sr s (if useSeparator then Some d else None))
      as [|str'] eqn:Estr; [discriminate|].
    injection H as ->. destruct Hs as (K1 & K2 & _).
    apply solutionToString_count in Estr. cbn in Estr. lia.
Qed.

(** C6 (as the code has it): the search starts at [depthPhase1 = 1] and
    every return adds to it, so [solution] never returns the empty string,
    whatever the cube, the tables and the budgets. *)
Theorem solution_never_empty (T : Tables) (elapsed : nat -> Z) (fe : Frontend)
    (fuel : nat) (self : Search) (facelets : string) (maxDepth timeOut : Z)
    (useSeparator : bool) :
  solution T elapsed fe fuel self facelets maxDepth timeOut useSeparator
    <> Return ""%string.
Proof.
  intros H. unfold solution in H.
  pose proof (solution_search_spec T elapsed maxDepth timeOut fe fuel self facelets)
    as Hs.
  destruct (solution_search T elapsed fe fuel self facelets maxDepth timeOut)
    as [|[msg|sr s d]|[]|]; try discriminate.
  - (* an error message starts with "Error" *)
    injection H as ->. apply error_prefix in Hs. discriminate.
  - (* a solution of length [s >= d >= 1] prints [s] face letters *)
    destruct (solutionToString sr s (if useSeparator then Some d else None))
      as [|str'] eqn:Estr; [discriminate|].
    injection H as ->. destruct Hs as (K1 & K2 & _).
    apply solutionToString_count in Estr. cbn in Estr. lia.
Qed.

(** C6, the claim refuted: no tables, front end, clock or iteration budget
    make [solution] return the empty string on the solved facelet string
    with [maxDepth = 24]. *)
Lemma solved_input_not_empty :
  ~ (exists T elapsed fe fuel timeOut useSeparator,
       solution T elapsed fe fuel init Example.solved_facelets 24 timeOut
                useSeparator = Return ""%string).
Proof.
  intros (T & elapsed & fe & fuel & timeOut & sep & H).
  exact (solution_result_nonempty _ _ _ _ _ _ _ _ _ _ H eq_refl).
Qed.




(** *** The heuristic *)

(** C4 (as the code has it): for the node [st1] that the generator yields,
    at level [n], the main loop stores the new coordinates at [n + 1] and
    computes from them the heuristic [h]: the larger of the two table
    entries, lowered by one (but not below zero) when both [flip] and
    [twist] are below 100.  What the pass over the node leaves in
    [minDistPhase1[n + 1]], when the loop goes round again and when it
    returns a solution, is [h], except that [h = 0] with
    [n >= depthPhase1 - 5] has been replaced by 10. *)
Theorem stored_heuristic (T : Tables) (elapsed : nat -> Z) (maxDepth timeOut : Z)
    (fuel : nat) (st st1 : loop1) (sr : Search) (h : Z) :
  loop_inv st ->
  next_node1 elapsed maxDepth timeOut fuel st = Next st1 ->
  store_node T st1 = Ret (sr, h) ->
  (exists fl tw sl h1 h2,
     getitem (flip sr) (l_n st1 + 1) = Ret fl /\
     getitem (twist sr) (l_n st1 + 1) = Ret tw /\
     getitem (slice sr) (l_n st1 + 1) = Ret sl /\
     read_nibble (Slice_Flip_Prun T) (N_SLICE1 * fl + sl) = Ret h1 /\
     read_nibble (Slice_Twist_Prun T) (N_SLICE1 * tw + sl) = Ret h2 /\
     h = if (fl <? 100) && (tw <? 100) then Z.max 0 (Z.max h1 h2 - 1)
         else Z.max h1 h2) /\
  match after_node T maxDepth fuel st1 sr h with
  | Next sr' =>
      getitem (minDistPhase1 sr') (l_n st1 + 1)
        = Ret (if (h =? 0) && (l_n st1 >=? l_depthPhase1 st1 - 5) then 10
               else h) /\
      solve_loop T elapsed maxDepth timeOut (S fuel) st
      = solve_loop T elapsed maxDepth timeOut fuel
          (mkLoop1 sr' (l_n st1) (l_depthPhase1 st1) (l_busy st1)
                   (l_ticks st1))
  | Return (Found sr' s d) =>
      getitem (minDistPhase1 sr') (l_n st1 + 1)
        = Ret (if (h =? 0) && (l_n st1 >=? l_depthPhase1 st1 - 5) then 10
               else h) /\
      solve_loop T elapsed maxDepth timeOut (S fuel) st
      = Return (Found sr' s d)
  | Return (Error _) => False
  | Exn e => solve_loop T elapsed maxDepth timeOut (S fuel) st = Exn e
  | OutOfFuel => solve_loop T elapsed maxDepth timeOut (S fuel) st = OutOfFuel
  end.
Proof.
  intros Hi En Es.
  destruct (next_node1_inv _ _ _ _ _ _ Hi En) as (Hn & _ & _).
  pose proof (solve_loop_nodes T elapsed maxDepth timeOut fuel st) as Hl.
  rewrite En, Es in Hl.
  destruct (store_node_spec _ _ _ _ Es) as (_ & _ & Hh & Hval).
  split; [exact Hval|].
  pose proof (after_node_spec T maxDepth fuel st1 sr h Hn Hh) as Ha.
  destruct (after_node T maxDepth fuel st1 sr h) as [e|[msg|sr' s d]|sr'|];
    try assumption.
  - destruct Ha as [[Ha _] _]. split; assumption.
  - destruct Ha as [Ha _]. split; assumption.
Qed.

Lemma stored_heuristic_witness :
  getitem (minDistPhase1 Example.found_RU) 1 = Ret 10 /\
  solve_loop Example.tables (fun _ => 0) 24 1000 57 Example.before_R
  = Return (Found Example.found_RU 2 1).
Proof.
  assert (loop_inv Example.before_R) as Hinv.
  { split; [vm_compute; discriminate|]. split; [vm_compute; discriminate|].
    intros k a b Hk. change (l_n Example.before_R) with 0 in Hk. lia. }
  assert (next_node1 (fun _ => 0) 24 1000 56 Example.before_R = Next Example.node_R) as Hn
    by (vm_compute; reflexivity).
  assert (store_node Example.tables Example.node_R = Ret (Example.stored_R, 0)) as Hs
    by (vm_compute; reflexivity).
  assert (after_node Example.tables 24 56 Example.node_R Example.stored_R 0
          = Return (Found Example.found_RU 2 1)) as Ha
    by (vm_compute; reflexivity).
  pose proof (stored_heuristic Example.tables (fun _ => 0) 24 1000 56 Example.before_R
                Example.node_R Example.stored_R 0 Hinv Hn Hs) as [_ H].
  rewrite Ha in H. exact H.
Defined.

(** C4, the claim refuted: where the flip table holds 2 and the twist table
    0, at [flip = 1] and [twist = 0], the heuristic is 1 and not the
    maximum 2. *)
Lemma heuristic_is_not_the_maximum :
  ~ (forall (T : Tables) (flip twist slice_coord h1 h2 : Z),
       0 <= flip < 2048 -> 0 <= twist < 2187 -> 0 <= slice_coord < 495 ->
       read_nibble (Slice_Flip_Prun T) (N_SLICE1 * flip + slice_coord) = Ret h1 ->
       read_nibble (Slice_Twist_Prun T) (N_SLICE1 * twist + slice_coord) = Ret h2 ->
       get_enhanced_heuristic T flip twist slice_coord 1 = Ret (Z.max h1 h2)).
Proof.
  intros H.
  specialize (H Example.tables_UD 1 0 0 2 0 ltac:(lia) ltac:(lia) ltac:(lia)
                ltac:(vm_compute; reflexivity) ltac:(vm_compute; reflexivity)).
  vm_compute in H. discriminate.
Qed.

(** *** The input check *)

(** The colour of the [i]-th character, if there is one and it is a colour. *)
Definition color_at (facelets : string) (i : Z) : option Z :=
  c ← String.get (Z.to_nat i) facelets; colors c.

(** How often colour [k] occurs among the positions [l]. *)
Definition occurrences (facelets : string) (l : list Z) (k : Z) : Z :=
  Z.of_nat (length (filter (fun i => color_at facelets i = Some k) l)).

Lemma colors_range (c : ascii) (k : Z) : colors c = Some k -> 0 <= k < 6.
Proof.
  unfold colors. repeat (destruct (Ascii.eqb c _); [intros [= <-]; lia|]).
  discriminate.
Qed.

Lemma count_colors_fold (facelets : string) :
  forall l cnt0 cnt,
    foldM (fun count i =>
             c ← str_getitem facelets i;
             match colors c with
             | None => Raise AssertionError
             | Some k => old ← getitem count k; setitem count k (old + 1)
             end) l cnt0 = Ret cnt ->
    (forall i, i ∈ l -> is_Some (color_at facelets i)) /\
    forall k v, 0 <= k -> cnt0 !! Z.to_nat k = Some v ->
                cnt !! Z.to_nat k = Some (v + occurrences facelets l k).
Proof.
  induction l as [|i l IH]; intros cnt0 cnt H; cbn [foldM] in H.
  - injection H as <-. split; [intros i Hi; now apply elem_of_nil in Hi|].
    intros k v _ Hv. unfold occurrences. cbn. rewrite Hv. f_equal. lia.
  - rbind_in H. rename a into cnt1.
    unfold str_getitem in E.
    destruct (String.get (Z.to_nat i) facelets) as [c|] eqn:Ec; [|discriminate].
    cbn [mbind res_bind] in E.
    destruct (colors c) as [k'|] eqn:Ek; [|discriminate].
    rbind_in E. rename a into old, E0 into Eold.
    pose proof (colors_range _ _ Ek) as Hk'.
    apply getitem_nonneg in Eold; [|lia].
    apply setitem_nonneg in E as [-> Hlen]; [|lia].
    assert (color_at facelets i = Some k') as Hci
      by (unfold color_at; rewrite Ec; exact Ek).
    destruct (IH _ _ H) as [Hall Hcnt]. split.
    + intros j Hj. apply elem_of_cons in Hj as [->|Hj]; [|auto].
      rewrite Hci. eauto.
    + intros k v Hk Hv. unfold occurrences. rewrite filter_cons.
      destruct (decide (color_at facelets i = Some k)) as [Heq|Hne].
      * assert (k = k') as -> by congruence.
        rewrite Hv in Eold. injection Eold as <-.
        rewrite (Hcnt k' (v + 1)); [|lia|].
        -- f_equal. unfold occurrences. cbn [length]. lia.
        -- apply list_lookup_insert_eq. lia.
      * rewrite (Hcnt k v); [reflexivity|lia|].
        rewrite list_lookup_insert_ne; [assumption|].
        intros Heq. apply Hne. rewrite Hci. f_equal. lia.
Qed.

(** The check passes only on 54 colour characters, nine of each colour. *)
Lemma check_input_true (facelets : string) :
  check_input facelets = true ->
  (forall i, 0 <= i < 54 -> is_Some (color_at facelets i)) /\
  forall k, 0 <= k < 6 -> occurrences facelets (range 54) k = 9.
Proof.
  unfold check_input, count_colors.
  destruct (foldM _ (range 54) (repeat_list 0 6)) as [|cnt] eqn:E; [discriminate|].
  intros Hall. apply count_colors_fold in E as [Hc Hcnt]. split.
  - intros i Hi. apply Hc. now apply elem_of_range.
  - intros k Hk. rewrite forallb_forall in Hall.
    assert (In k (range 6)) as Hin by (apply list_elem_of_In, elem_of_range; lia).
    specialize (Hall k Hin).
    assert (repeat_list 0 6 !! Z.to_nat k = Some 0) as H0
      by (apply lookup_replicate_2; lia).
    specialize (Hcnt k 0 (proj1 Hk) H0).
    apply getitem_nonneg in Hcnt; [|lia]. rewrite Hcnt in Hall.
    apply Z.eqb_eq in Hall. lia.
Qed.

Lemma get_None_of_short (facelets : string) (n : nat) :
  (String.length facelets <= n)%nat -> String.get n facelets = None.
Proof.
  revert n. induction facelets as [|c s IH]; intros n H; [reflexivity|].
  destruct n; cbn in *; [lia|]. apply IH. lia.
Qed.

(** C7 (as the code has it): an input with fewer than 54 characters, or with
    a character that is not a colour among its first 54, or with a colour
    that does not occur nine times among its first 54 characters, makes
    [solution] return exactly ["Error 1"], before the cube is built and
    before any search step, whatever the iteration budget. *)
Theorem bad_input_error_1 (T : Tables) (elapsed : nat -> Z) (fe : Frontend)
    (fuel : nat) (self : Search) (facelets : string) (maxDepth timeOut : Z)
    (useSeparator : bool) :
  (String.length facelets < 54)%nat \/
  (exists i, 0 <= i < 54 /\ color_at facelets i = None) \/
  (exists k, 0 <= k < 6 /\ occurrences facelets (range 54) k <> 9) ->
  solution T elapsed fe fuel self facelets maxDepth timeOut useSeparator
  = Return "Error 1"%string.
Proof.
  intros Hbad.
  assert (check_input facelets = false) as Hc.
  { destruct (check_input facelets) eqn:E; [|reflexivity]. exfalso.
    apply check_input_true in E as [Hall Hocc].
    destruct Hbad as [Hlen|[(i & Hi & Hnone)|(k & Hk & Hne)]].
    - destruct (Hall 53 ltac:(lia)) as [x Hx]. unfold color_at in Hx.
      rewrite get_None_of_short in Hx; [discriminate|]. lia.
    - destruct (Hall i Hi) as [x Hx]. congruence.
    - now apply Hne, Hocc. }
  unfold solution, solution_search. rewrite Hc. reflexivity.
Qed.

Lemma bad_input_error_1_witness :
  solution Example.tables (fun _ => 0) Example.frontend 0 init "UUU" 24 1000 false
  = Return "Error 1"%string.
Proof.
  apply (bad_input_error_1 Example.tables (fun _ => 0) Example.frontend 0 init
           "UUU" 24 1000 false).
  left. cbn. lia.
Defined.

(** C7, the claim refuted: only the first 54 characters are looked at, so a
    string of 55 characters whose first 54 are the solved cube passes the
    check, and [solution] goes on to the search instead of returning
    ["Error 1"]. *)
Lemma longer_input_is_not_rejected :
  ~ (forall (T : Tables) (elapsed : nat -> Z) (fe : Frontend) (fuel : nat)
            (self : Search) (facelets : string) (maxDepth timeOut : Z)
            (useSeparator : bool),
       String.length facelets <> 54%nat ->
       solution T elapsed fe fuel self facelets maxDepth timeOut useSeparator
       = Return "Error 1"%string).
Proof.
  intros H.
  specialize (H Example.tables (fun _ => 0) Example.frontend 60%nat init
                (Example.solved_facelets ++ "U")%string 24 1000 false
                ltac:(vm_compute; discriminate)).
  vm_compute in H. discriminate.
Qed.

End SearchFacts.

(** ** [bitcube.py]: ranks, orientation words and the packed cube *)
Module BitcubeRoundTrips.
Import Py Bitcube PyFacts BitcubeFacts SearchFacts.


(** *** Ranks and permutations: both directions *)

Lemma all_unused (n : nat) :
  elems_of (replicate n false) n = zseq 0 n /\
  remaining (replicate n false) n (zseq 0 n).
Proof.
  assert (forall y, y ∈ zseq 0 n -> unused (replicate n false) y = true) as Hu.
  { intros y Hy%elem_of_zseq. unfold unused.
    rewrite lookup_replicate_2; [reflexivity|lia]. }
  split.
  - unfold elems_of. rewrite <- (List.filter_ext_in (fun _ => true)).
    + clear. induction (zseq 0 n); cbn; congruence.
    + intros y Hy%list_elem_of_In. symmetry. now apply Hu.
  - intros y. rewrite elem_of_zseq. split.
    + intros H. split; [lia|]. apply Hu. apply elem_of_zseq. lia.
    + intros [H _]. lia.
Qed.

Lemma remaining_perm (used : list bool) (n : nat) (q q' : list Z) :
  q ≡ₚ q' -> remaining used n q' -> remaining used n q.
Proof. intros Hp Hr y. rewrite <- (Hr y). now rewrite Hp. Qed.

(** Encoding then decoding, from the two loops. *)
Lemma rank_and_round_trip (p : list Z) :
  (length p <= 13)%nat ->
  p ≡ₚ range (Z.of_nat (length p)) ->
  exists c, perm_to_int p = Ret c /\ 0 <= c < factZ (length p) /\
            int_to_perm c (Z.of_nat (length p)) = Ret (rev p).
Proof.
  intros Hlen Hperm.
  assert (NoDup p) as Hnd.
  { rewrite Hperm, range_zseq. apply (NoDup_fmap_2 Z.of_nat), NoDup_seq. }
  destruct (all_unused (length p)) as [Hall Hrem].
  destruct (lehmer_steps (length p) Hlen p [] (replicate (length p) false) [] 0)
    as (code & used' & c & e & Hc & Henc & Hdec).
  { apply length_replicate. }
  { reflexivity. }
  { assumption. }
  { eapply remaining_perm; [|exact Hrem]. now rewrite <- range_zseq. }
  exists code. split; [|split; [assumption|]].
  - rewrite perm_to_int_unfold. unfold repeat_list. rewrite Nat2Z.id, range_zseq.
    cbn [app length] in Henc. rewrite Henc. cbn [mbind res_bind].
    now rewrite Z.add_0_l.
  - rewrite int_to_perm_unfold, range_zseq. rewrite Hall in Hdec.
    rewrite Hdec. reflexivity.
Qed.

(** Decoding then encoding: the loop of [int_to_perm] run on a code below
    [m!] over the [m] elements still unused emits them in an order whose
    rank, computed by the loop of [perm_to_int], is that code. *)
Lemma decode_steps (n : nat) :
  (n <= 13)%nat ->
  forall (m : nat) (used : list bool) (acc : list Z) (code : Z),
    length used = n -> length (elems_of used n) = m ->
    0 <= code < factZ m ->
    exists q c e,
      foldM dec_body (rev (zseq 0 m)) (code, elems_of used n, acc)
        = Ret (c, e, acc ++ q) /\
      length q = m /\ NoDup q /\ remaining used n q /\
      forall (done : list Z) (c0 : Z),
        (length done + m = n)%nat ->
        exists used',
          foldM (enc_body (done ++ q)) (zseq (length done) m) (c0, used)
            = Ret (c0 + code, used').
Proof.
  intros Hn. induction m as [|m IH]; intros used acc code Hu Hm Hc.
  - exists [], code, (elems_of used n). cbn. rewrite app_nil_r.
    split; [reflexivity|]. split; [reflexivity|]. split; [constructor|].
    split.
    + intros y. rewrite <- elem_of_elems_of.
      destruct (elems_of used n); [reflexivity|discriminate].
    + intros done c0 _. exists used. cbn [factZ] in Hc.
      replace code with 0 by lia. now rewrite Z.add_0_r.
  - assert (S m <= n)%nat as Hmn.
    { rewrite <- Hm. unfold elems_of.
      etransitivity; [apply List.filter_length_le|].
      unfold zseq. now rewrite length_map, length_seq. }
    set (f := factZ m). assert (0 < f) as Hf by apply factZ_pos.
    cbn [factZ] in Hc. fold f in Hc.
    set (d := code `div` f).
    assert (0 <= d < Z.of_nat (S m)) as Hd.
    { unfold d. split; [apply Z.div_pos; lia|].
      apply Z.div_lt_upper_bound; lia. }
    assert (0 <= code `mod` f < f) as Hr by (apply Z.mod_pos_bound; lia).
    destruct (elems_of used n !! Z.to_nat d) as [x|] eqn:Ex;
      [|apply lookup_ge_None in Ex; lia].
    assert (x ∈ elems_of used n) as Hin by (eapply list_elem_of_lookup_2; eauto).
    apply elem_of_elems_of in Hin as [Hx Hux].
    set (xn := Z.to_nat x). assert (x = Z.of_nat xn) as Exn by lia.
    destruct (elems_of_mark used n xn) as (l2 & El & El'); [lia|congruence|].
    set (l1 := List.filter (unused used) (zseq 0 xn)) in *.
    assert (Z.to_nat d = length l1) as Hdl.
    { eapply NoDup_lookup; [apply (NoDup_elems_of used n)|exact Ex|].
      rewrite El, <- Exn. now apply list_lookup_middle. }
    assert (length (elems_of (<[xn := true]> used) n) = m) as Hm'.
    { rewrite El', length_app. rewrite El, length_app in Hm.
      cbn [length] in Hm. lia. }
    destruct (IH (<[xn := true]> used) (acc ++ [x]) (code `mod` f))
      as (q & c & e & Hdec & Hlq & Hnd & Hrem & Henc).
    { now rewrite length_insert. }
    { assumption. }
    { assumption. }
    assert (x ∉ q) as Hxq.
    { intros Hq. apply Hrem in Hq as [_ Hq]. unfold unused in Hq.
      fold xn in Hq. destruct (used !! xn) as [u|] eqn:E.
      - rewrite list_lookup_insert_eq in Hq; [discriminate|].
        now apply lookup_lt_Some in E.
      - unfold unused in Hux. fold xn in Hux. rewrite E in Hux. discriminate. }
    exists (x :: q), c, e. split; [|split; [|split; [|split]]].
    + change (zseq 0 (S m)) with (map Z.of_nat (seq 0 (S m))).
      rewrite seq_S, map_app, rev_app_distr. cbn [map rev app foldM Nat.add].
      rewrite dec_body_eq, factorial_lookup by lia. cbn [mbind res_bind].
      fold f. fold d. rewrite El.
      replace d with (Z.of_nat (length l1)) by lia.
      rewrite pop_middle. cbn [mbind res_bind].
      rewrite <- Exn, <- El'. unfold zseq in Hdec. rewrite Hdec.
      now rewrite <- app_assoc.
    + cbn. now rewrite Hlq.
    + now apply NoDup_cons.
    + intros y. rewrite elem_of_cons. split.
      * intros [->|Hy]; [split; assumption|].
        apply Hrem in Hy as [Hy1 Hy2]. split; [assumption|].
        assert (y <> x) as Hne by (intros ->; apply Hxq, Hrem; split; assumption).
        rewrite <- (Z2Nat.id y) in Hy2 by lia.
        rewrite unused_insert in Hy2 by lia. now rewrite Z2Nat.id in Hy2 by lia.
      * intros [Hy1 Hy2]. destruct (decide (y = x)) as [->|Hne]; [now left|].
        right. apply Hrem. split; [assumption|].
        rewrite <- (Z2Nat.id y) by lia. rewrite unused_insert by lia.
        now rewrite Z2Nat.id by lia.
    + intros done c0 Hdone.
      destruct (Henc (done ++ [x]) (c0 + d * f)) as [used' Hused'].
      { rewrite length_app. cbn. lia. }
      exists used'. cbn [zseq seq map foldM]. rewrite enc_body_eq.
      assert (getitem (done ++ x :: q) (Z.of_nat (length done)) = Ret x) as ->.
      { apply getitem_nonneg; [lia|]. rewrite Nat2Z.id.
        now apply list_lookup_middle. }
      cbn [mbind res_bind]. rewrite Exn at 1.
      rewrite count_unused_spec by lia. cbn [mbind res_bind]. fold l1.
      replace (Z.of_nat (length (done ++ x :: q)) - 1 - Z.of_nat (length done))
        with (Z.of_nat m) by (rewrite length_app; cbn [length]; lia).
      rewrite factorial_lookup by lia. cbn [mbind res_bind]. fold f.
      unfold setitem. rewrite norm_index_nonneg by lia. cbn [mbind res_bind].
      fold xn. rewrite length_app in Hused'. cbn [length] in Hused'.
      rewrite <- app_assoc in Hused'. cbn [app] in Hused'.
      replace (length done + 1)%nat with (S (length done)) in Hused' by lia.
      replace (Z.of_nat (length l1)) with d by lia.
      unfold zseq in *. rewrite Hused'. f_equal. f_equal.
      rewrite (Z.div_mod code f) at 2 by lia. fold d. lia.
Qed.

(** [perm_to_int] ranks the permutations of [0 .. n-1] (for [n <= 13], the
    size of the factorial table) by distinct numbers below [n!]: it returns
    a rank in [0, n!), and no other permutation of the same length has that
    rank. *)
Theorem perm_to_int_injective_below_factorial (p q : list Z) :
  (length p <= 13)%nat -> length q = length p ->
  p ≡ₚ range (Z.of_nat (length p)) -> q ≡ₚ range (Z.of_nat (length p)) ->
  exists c, perm_to_int p = Ret c /\ 0 <= c < factZ (length p) /\
            (perm_to_int q = Ret c -> q = p).
Proof.
  intros Hlen Hq Hp Hpq.
  destruct (rank_and_round_trip p Hlen Hp) as (c & Hc & Hb & Hrt).
  exists c. split; [assumption|]. split; [assumption|]. intros Hqc.
  destruct (rank_and_round_trip q) as (c' & Hc' & _ & Hrt').
  { now rewrite Hq. }
  { now rewrite Hq. }
  rewrite Hqc in Hc'. injection Hc' as <-. rewrite Hq, Hrt in Hrt'.
  injection Hrt' as Hrev. apply (f_equal (@rev Z)) in Hrev.
  now rewrite !rev_involutive in Hrev.
Qed.

Lemma perm_to_int_injective_below_factorial_witness :
  exists c, perm_to_int [1; 2; 0] = Ret c /\ 0 <= c < factZ 3 /\
            (perm_to_int [2; 1; 0] = Ret c -> [2; 1; 0] = [1; 2; 0]).
Proof.
  apply (perm_to_int_injective_below_factorial [1; 2; 0] [2; 1; 0]).
  - cbn. lia.
  - reflexivity.
  - vm_compute. symmetry. apply (Permutation_cons_append [1; 2] 0).
  - vm_compute. symmetry. apply (Permutation_rev [0; 1; 2]).
Defined.

(** [int_to_perm] is defined on every code below [n!] (for [n <= 13]): it
    returns a permutation of [0 .. n-1], and ranking that list read
    backwards gives the code again. *)
Theorem int_to_perm_below_factorial (n : nat) (code : Z) :
  (n <= 13)%nat -> 0 <= code < factZ n ->
  exists r, int_to_perm code (Z.of_nat n) = Ret r /\
            r ≡ₚ range (Z.of_nat n) /\
            perm_to_int (rev r) = Ret code.
Proof.
  intros Hn Hc.
  destruct (all_unused n) as [Hall Hrem].
  destruct (decode_steps n Hn n (replicate n false) [] code)
    as (q & c & e & Hdec & Hlq & Hnd & Hq & Henc).
  { apply length_replicate. }
  { rewrite Hall. unfold zseq. now rewrite length_map, length_seq. }
  { assumption. }
  exists (rev q). split; [|split].
  - rewrite int_to_perm_unfold, range_zseq. rewrite Hall in Hdec.
    rewrite Hdec. reflexivity.
  - rewrite <- Permutation_rev. apply NoDup_Permutation; [assumption| |].
    + rewrite range_zseq. apply (NoDup_fmap_2 Z.of_nat), NoDup_seq.
    + intros y. rewrite (Hq y), range_zseq. symmetry. apply Hrem.
  - rewrite rev_involutive, perm_to_int_unfold, Hlq.
    unfold repeat_list. rewrite Nat2Z.id, range_zseq.
    destruct (Henc [] 0) as [used' Hused']; [cbn; lia|].
    cbn [app length] in Hused'. rewrite Hused'. cbn [mbind res_bind].
    now rewrite Z.add_0_l.
Qed.

Lemma int_to_perm_below_factorial_witness :
  exists r, int_to_perm 4 3 = Ret r /\ r ≡ₚ range 3 /\
            perm_to_int (rev r) = Ret 4.
Proof.
  apply (int_to_perm_below_factorial 3 4).
  - lia.
  - cbn. lia.
Defined.

(** Outside that domain [int_to_perm] raises [IndexError]: for more than
    thirteen elements the factorial table has no entry, and a code of [n!]
    or more asks [pop] for an element that is not there. *)
Theorem int_to_perm_out_of_range (n : nat) (code : Z) :
  (14 <= n)%nat \/ ((1 <= n <= 13)%nat /\ factZ n <= code) ->
  int_to_perm code (Z.of_nat n) = Raise IndexError.
Proof.
  intros H. destruct n as [|k]; [lia|].
  rewrite int_to_perm_unfold, range_zseq. unfold zseq.
  rewrite seq_S, map_app, rev_app_distr. cbn [map rev app foldM Nat.add].
  rewrite dec_body_eq.
  destruct H as [H|[H Hc]].
  - rewrite getitem_high; [reflexivity|]. cbn [_factorial length]. lia.
  - rewrite factorial_lookup by lia. cbn [mbind res_bind].
    pose proof (factZ_pos k) as Hf. cbn [factZ] in Hc.
    unfold pop. rewrite norm_index_high; [reflexivity|].
    rewrite length_app, length_map, length_seq. cbn [length].
    apply Z.div_le_lower_bound; lia.
Qed.

Lemma int_to_perm_out_of_range_witness :
  int_to_perm 6 3 = Raise IndexError.
Proof.
  apply (int_to_perm_out_of_range 3 6). right. split; [lia|]. cbn. lia.
Defined.

(** The list operations raise nothing but [IndexError]. *)
Lemma getitem_raises {A} (l : list A) (i : Z) (e : exn) :
  getitem l i = Raise e -> e = IndexError.
Proof.
  unfold getitem. destruct (norm_index l i) as [k|]; [|congruence].
  destruct (l !! k); congruence.
Qed.

Lemma setitem_raises {A} (l : list A) (i : Z) (v : A) (e : exn) :
  setitem l i v = Raise e -> e = IndexError.
Proof. unfold setitem. destruct (norm_index l i); congruence. Qed.

Lemma foldM_raises {A S} (f : S -> A -> res S) (e0 : exn) :
  (forall s x e, f s x = Raise e -> e = e0) ->
  forall l s e, foldM f l s = Raise e -> e = e0.
Proof.
  intros Hf. induction l as [|x l IH]; intros s e H; cbn in H; [discriminate|].
  destruct (f s x) as [e'|s'] eqn:E; cbn in H.
  - injection H as <-. eauto.
  - eauto.
Qed.

Lemma foldM_inv_each {A S} (P : S -> Prop) (f : S -> A -> res S) :
  (forall s x s', P s -> f s x = Ret s' -> P s') ->
  forall l s r, P s -> foldM f l s = Ret r ->
  forall x, x ∈ l -> exists s1 s2, P s1 /\ f s1 x = Ret s2.
Proof.
  intros Hf. induction l as [|y l IH]; intros s r Hs H x Hx;
    [now apply elem_of_nil in Hx|].
  cbn [foldM] in H. destruct (f s y) as [|s'] eqn:E; [discriminate|].
  cbn in H. apply elem_of_cons in Hx as [->|Hx].
  - exists s, s'. split; assumption.
  - apply (IH s' r (Hf _ _ _ Hs E) H x Hx).
Qed.

(** [perm_to_int] does not accept an entry that is [len(p)] or more: the
    bookkeeping list [used] has no such slot, and the call raises
    [IndexError]. *)
Theorem perm_to_int_rejects_large_entry (p : list Z) (x : Z) :
  (length p <= 13)%nat -> x ∈ p -> Z.of_nat (length p) <= x ->
  perm_to_int p = Raise IndexError.
Proof.
  intros Hlen Hx Hbig. rewrite perm_to_int_unfold.
  set (n := length p) in *.
  destruct (foldM (enc_body p) (range (Z.of_nat n)) (0, repeat_list false (Z.of_nat n)))
    as [e|[c used]] eqn:E; cbn [mbind res_bind].
  - f_equal. revert E. apply foldM_raises. clear. intros [c used] i e.
    rewrite enc_body_eq. intros H.
    destruct (getitem p i) as [e1|pi] eqn:E1; cbn in H;
      [injection H as <-; eapply getitem_raises; eauto|].
    destruct (count_unused used pi) as [e2|sm] eqn:E2; cbn in H.
    { injection H as <-. revert E2. unfold count_unused. apply foldM_raises.
      intros s y e. destruct (getitem used y) eqn:E3; cbn; [|discriminate].
      intros [= <-]. eapply getitem_raises; eauto. }
    destruct (getitem _factorial (Z.of_nat (length p) - 1 - i)) as [e3|f] eqn:E3;
      cbn in H; [injection H as <-; eapply getitem_raises; eauto|].
    destruct (setitem used pi true) as [e4|u'] eqn:E4; cbn in H; [|discriminate].
    injection H as <-. eapply setitem_raises; eauto.
  - exfalso. apply list_elem_of_lookup in Hx as [i Hi].
    pose proof (lookup_lt_Some _ _ _ Hi) as Hil. fold n in Hil.
    destruct (foldM_inv_each (fun s : Z * list bool => length s.2 = n)
                (enc_body p)) with (l := range (Z.of_nat n))
                (s := (0, repeat_list false (Z.of_nat n))) (r := (c, used))
                (x := Z.of_nat i) as ([c1 u1] & s2 & Hu1 & Hstep).
    + intros [c0 u0] j s' Hu0. rewrite enc_body_eq. cbn [snd] in *.
      destruct (getitem p j); cbn; [discriminate|].
      destruct (count_unused u0 a); cbn; [discriminate|].
      destruct (getitem _factorial _); cbn; [discriminate|].
      unfold setitem. destruct (norm_index u0 a); cbn; [|discriminate].
      intros [= <-]. cbn. now rewrite length_insert.
    + cbn. unfold repeat_list. rewrite length_replicate. lia.
    + assumption.
    + apply elem_of_range. lia.
    + cbn [snd] in Hu1. rewrite enc_body_eq in Hstep.
      assert (getitem p (Z.of_nat i) = Ret x) as Hg.
      { apply getitem_nonneg; [lia|]. now rewrite Nat2Z.id. }
      rewrite Hg in Hstep. cbn [mbind res_bind] in Hstep.
      destruct (count_unused u1 x) as [|sm] eqn:E2; [discriminate|].
      cbn [mbind res_bind] in Hstep.
      destruct (getitem _factorial _); [discriminate|].
      cbn [mbind res_bind] in Hstep.
      unfold setitem in Hstep.
      destruct (decide (x = Z.of_nat n)) as [->|Hne].
      * rewrite norm_index_high in Hstep by lia. discriminate.
      * unfold count_unused in E2.
        destruct (foldM_each _ _ _ _ E2 (Z.of_nat n)) as (s1 & s3 & Hs).
        { apply elem_of_range. lia. }
        rewrite getitem_high in Hs by lia. discriminate.
Qed.

Lemma perm_to_int_rejects_large_entry_witness :
  perm_to_int [0; 2] = Raise IndexError.
Proof.
  apply (perm_to_int_rejects_large_entry [0; 2] 2).
  - cbn. lia.
  - apply list_elem_of_In. cbn. tauto.
  - cbn. lia.
Defined.


(** *** Orientation words *)

(** The base-3 digits of a number, least significant first. *)
Fixpoint digits3 (k : nat) (c : Z) : list Z :=
  match k with
  | O => []
  | S k => c `mod` 3 :: digits3 k (c `div` 3)
  end.

(** The seven twists the loop of [_decode_orientations] stores, and the
    eighth that makes the sum a multiple of three. *)
Definition twists_of (coro : Z) : list Z :=
  let co := rev (digits3 7 coro) in
  co ++ [(- fold_right Z.add 0 (co ++ [0])) `mod` 3].

(** The twelve edge bits, bit 11 first. *)
Definition flips_of (eoro : Z) : list Z :=
  rev (map (fun i => Z.land (Z.shiftr eoro i) 1) (range 12)).

Lemma decode_orientations_eq (b : BitPackedCubieCube) :
  _decode_orientations b
  = Ret (twists_of (Z.shiftr (orie b) 12), flips_of (Z.land (orie b) 0xFFF)).
Proof.
  unfold _decode_orientations, twists_of, flips_of.
  generalize (Z.shiftr (orie b) 12) as c. generalize (Z.land (orie b) 4095) as e.
  intros e c.
  cbv -[Z.div Z.modulo Z.add Z.opp Z.land Z.shiftr]. reflexivity.
Qed.

Lemma land_1_bit (x : Z) : 0 <= Z.land x 1 <= 1.
Proof.
  assert (Z.land x 1 = x `mod` 2) as -> by (apply (Z.land_ones x 1); lia).
  pose proof (Z.mod_pos_bound x 2). lia.
Qed.

(** Whatever the orientation word, [_decode_orientations] returns eight
    twists in 0..2 whose sum is a multiple of three, and twelve flips in
    0..1: the decoded orientations are those of a cube that can be
    assembled. *)
Theorem decode_orientations_valid (b : BitPackedCubieCube) :
  exists co eo,
    _decode_orientations b = Ret (co, eo) /\
    length co = 8%nat /\ length eo = 12%nat /\
    Forall (fun x => 0 <= x <= 2) co /\ Forall (fun x => 0 <= x <= 1) eo /\
    fold_right Z.add 0 co `mod` 3 = 0.
Proof.
  rewrite decode_orientations_eq. eexists _, _. split; [reflexivity|].
  split; [reflexivity|]. split; [reflexivity|].
  unfold twists_of, flips_of. cbn [digits3 rev app fold_right].
  generalize (Z.shiftr (orie b) 12) as c. intros c.
  split; [|split].
  - assert (forall x, 0 <= x `mod` 3 <= 2) as H3
      by (intros x; pose proof (Z.mod_pos_bound x 3); lia).
    repeat (apply List.Forall_cons; [apply H3|]). apply List.Forall_nil.
  - apply Forall_rev, Forall_map, Forall_forall. intros i _. apply land_1_bit.
  - Z.div_mod_to_equations. lia.
Qed.

Lemma lor_shiftl_bit (a b : Z) :
  0 <= a -> 0 <= b <= 1 -> Z.lor (Z.shiftl a 1) (Z.land b 1) = 2 * a + b.
Proof.
  intros Ha Hb. assert (b = 0 \/ b = 1) as [->| ->] by lia.
  - cbn [Z.land]. rewrite Z.lor_0_r, Z.shiftl_mul_pow2 by lia. lia.
  - destruct a as [|p|p]; [reflexivity|reflexivity|lia].
Qed.

(** A corner word and an edge word put side by side come apart again. *)
Lemma word_split (c e : Z) :
  0 <= c -> 0 <= e < 4096 ->
  Z.shiftr (Z.lor (Z.shiftl c 12) e) 12 = c /\
  Z.land (Z.lor (Z.shiftl c 12) e) 0xFFF = e.
Proof.
  intros Hc He. split.
  - rewrite Z.shiftr_lor, Z.shiftr_shiftl_l by lia.
    cbn [Z.sub Z.add Z.opp Z.pos_sub]. rewrite Z.shiftl_0_r.
    rewrite (Z.shiftr_div_pow2 e) by lia. change (2 ^ 12) with 4096.
    rewrite Z.div_small by lia. apply Z.lor_0_r.
  - apply Z.bits_inj'. intros n Hn.
    assert (Z.land (Z.lor (Z.shiftl c 12) e) 4095
            = Z.lor (Z.shiftl c 12) e `mod` 2 ^ 12) as ->
      by (apply (Z.land_ones _ 12); lia).
    destruct (Z.lt_ge_cases n 12) as [Hlt|Hge].
    + rewrite Z.mod_pow2_bits_low, Z.lor_spec, Z.shiftl_spec_low by lia.
      reflexivity.
    + rewrite Z.mod_pow2_bits_high by lia.
      symmetry. apply (Z.bits_above_log2 e n); [lia|].
      destruct (Z.eq_dec e 0) as [->|Hne]; [cbn; lia|].
      apply Z.log2_lt_pow2; [lia|].
      apply Z.lt_le_trans with (2 ^ 12); [change (2 ^ 12) with 4096; lia|].
      apply Z.pow_le_mono_r; lia.
Qed.

Lemma pack_twists (c : Z) :
  0 <= c < 2187 -> pack_coro (twists_of c) = Ret c.
Proof.
  intros Hc. unfold pack_coro, twists_of.
  cbv -[Z.div Z.modulo Z.add Z.opp Z.mul]. f_equal.
  Z.div_mod_to_equations. lia.
Qed.

(** The edge half of [_encode_orientations] on the flips decoded from [e]. *)
Definition edge_word (e : Z) : Z :=
  fold_left (fun eoro bit => Z.lor (Z.shiftl eoro 1) (Z.land bit 1))
            (rev (flips_of e)) 0.

Definition edge_word_ok (e : Z) : bool :=
  (0 <=? edge_word e) && (edge_word e <? 4096) &&
  forallb (fun i => Bool.eqb (Z.testbit (edge_word e) i) (Z.testbit e (11 - i)))
          (range 12).

Lemma edge_word_spec (e : Z) :
  0 <= e < 4096 ->
  0 <= edge_word e < 4096 /\
  forall i, 0 <= i < 12 -> Z.testbit (edge_word e) i = Z.testbit e (11 - i).
Proof.
  intros He.
  assert (forallb edge_word_ok (range 4096) = true) as Hall
    by (vm_compute; reflexivity).
  rewrite forallb_forall in Hall.
  specialize (Hall e ltac:(apply list_elem_of_In, elem_of_range; lia)).
  unfold edge_word_ok in Hall.
  apply andb_true_iff in Hall as [Hb Hbits].
  apply andb_true_iff in Hb as [Hb1 Hb2].
  split; [lia|]. intros i Hi. rewrite forallb_forall in Hbits.
  specialize (Hbits i ltac:(apply list_elem_of_In, elem_of_range; lia)).
  now apply Bool.eqb_prop in Hbits.
Qed.

Lemma encode_twists_flips (c e : Z) :
  0 <= c < 2187 ->
  _encode_orientations (twists_of c) (flips_of e)
  = Ret (Z.lor (Z.shiftl c 12) (edge_word e)).
Proof.
  intros Hc. unfold _encode_orientations. rewrite pack_twists by assumption.
  reflexivity.
Qed.

(** Decoding an orientation word and encoding the result again keeps the
    corner part and reverses the order of the twelve edge-flip bits: bit [i]
    of the new word is bit [11 - i] of the old one. *)
Theorem encode_decode_reverses_edge_bits (pc pe orie : Z) :
  0 <= orie < 2187 * 4096 ->
  exists r,
    ('(co, eo) ← _decode_orientations (mkBit pc pe orie);
     _encode_orientations co eo) = Ret r /\
    Z.shiftr r 12 = Z.shiftr orie 12 /\
    forall i, 0 <= i < 12 -> Z.testbit r i = Z.testbit orie (11 - i).
Proof.
  intros Ho. rewrite decode_orientations_eq. cbn [mbind res_bind Bitcube.orie].
  assert (0 <= Z.shiftr orie 12 < 2187) as Hc.
  { rewrite Z.shiftr_div_pow2 by lia. change (2 ^ 12) with 4096.
    split; [apply Z.div_pos; lia|apply Z.div_lt_upper_bound; lia]. }
  rewrite encode_twists_flips by assumption.
  assert (Z.land orie 4095 = orie `mod` 2 ^ 12) as El
    by (apply (Z.land_ones orie 12); lia).
  assert (0 <= Z.land orie 4095 < 4096) as He
    by (rewrite El; apply Z.mod_pos_bound; lia).
  destruct (edge_word_spec _ He) as [Hw Hbits].
  revert Hw Hbits. generalize (edge_word (Z.land orie 4095)) as w.
  intros w Hw Hbits.
  exists (Z.lor (Z.shiftl (Z.shiftr orie 12) 12) w).
  split; [reflexivity|]. split.
  - apply (word_split _ w); lia.
  - intros i Hi. rewrite Z.lor_spec, Z.shiftl_spec_low by lia.
    cbn [orb]. rewrite Hbits by assumption. rewrite El.
    apply Z.mod_pow2_bits_low. lia.
Qed.

Lemma encode_decode_reverses_edge_bits_witness :
  exists r,
    ('(co, eo) ← _decode_orientations (mkBit 0 0 1);
     _encode_orientations co eo) = Ret r /\
    Z.shiftr r 12 = Z.shiftr 1 12 /\
    forall i, 0 <= i < 12 -> Z.testbit r i = Z.testbit 1 (11 - i).
Proof.
  apply (encode_decode_reverses_edge_bits 0 0 1). lia.
Defined.

(** The word 1 (only the lowest edge bit set) comes back as 2048. *)
Lemma encode_decode_example :
  ('(co, eo) ← _decode_orientations (mkBit 0 0 1);
   _encode_orientations co eo) = Ret 2048.
Proof. vm_compute. reflexivity. Qed.


(** *** Packing and unpacking lists *)

(** What a list of eight twists and a list of twelve flips must satisfy to
    be the orientations of a cube. *)
Definition twists_ok (co : list Z) : Prop :=
  length co = 8%nat /\ Forall (fun x => 0 <= x <= 2) co /\
  fold_right Z.add 0 co `mod` 3 = 0.

Definition flips_ok (eo : list Z) : Prop :=
  length eo = 12%nat /\ Forall (fun x => 0 <= x <= 1) eo.

Ltac list_of_length H :=
  repeat match type of H with
         | length ?l = _ => destruct l as [|? l]; [discriminate H|cbn [length] in H]
         end;
  match type of H with
  | length ?l = _ => destruct l; [|discriminate H]
  end.

Lemma pack_coro_twists (co : list Z) :
  twists_ok co ->
  exists c, pack_coro co = Ret c /\ 0 <= c < 2187 /\ twists_of c = co.
Proof.
  intros (Hlen & Hall & Hsum).
  destruct co as [|x0 [|x1 [|x2 [|x3 [|x4 [|x5 [|x6 [|x7 [|]]]]]]]]];
    try discriminate Hlen.
  repeat match goal with
         | H : Forall _ (_ :: _) |- _ => apply Forall_cons in H as [? H]
         end.
  cbn [fold_right] in Hsum.
  eexists. split; [|split].
  - unfold pack_coro. cbv -[Z.add Z.mul]. reflexivity.
  - lia.
  - unfold twists_of.
    assert (rev (digits3 7 (((((((0 * 3 + x0) * 3 + x1) * 3 + x2) * 3 + x3) * 3 + x4)
                               * 3 + x5) * 3 + x6))
            = [x0; x1; x2; x3; x4; x5; x6]) as ->.
    { cbn [digits3 rev app].
      repeat (f_equal; [Z.div_mod_to_equations; lia|]).
      f_equal. Z.div_mod_to_equations. lia. }
    cbn [app fold_right]. do 8 f_equal. Z.div_mod_to_equations. lia.
Qed.

(** The base-2 digits of a number, least significant first. *)
Fixpoint digits2 (k : nat) (c : Z) : list Z :=
  match k with
  | O => []
  | S k => c `mod` 2 :: digits2 k (c `div` 2)
  end.

Lemma digits2_shift (k : nat) :
  forall (e : Z) (i : nat),
    0 <= e ->
    map (fun j => Z.land (Z.shiftr e j) 1) (map Z.of_nat (seq i k))
    = digits2 k (e `div` 2 ^ Z.of_nat i).
Proof.
  induction k as [|k IH]; intros e i He; [reflexivity|].
  cbn [seq map digits2]. f_equal.
  - rewrite Z.shiftr_div_pow2 by lia. apply (Z.land_ones _ 1). lia.
  - rewrite IH by assumption. f_equal.
    rewrite Z.div_div by lia. f_equal.
    rewrite Nat2Z.inj_succ, Z.pow_succ_r by lia. lia.
Qed.

Lemma flips_of_digits (e : Z) : 0 <= e -> flips_of e = rev (digits2 12 e).
Proof.
  intros He. unfold flips_of. f_equal.
  change (range 12) with (map Z.of_nat (seq 0 12)).
  rewrite digits2_shift by assumption. cbn [Z.of_nat]. now rewrite Z.pow_0_r, Z.div_1_r.
Qed.

(** The edge loop of both encoders, as arithmetic. *)
Lemma fold_lor_bits (l : list Z) :
  Forall (fun x => 0 <= x <= 1) l ->
  forall acc, 0 <= acc ->
    fold_left (fun eoro bit => Z.lor (Z.shiftl eoro 1) (Z.land bit 1)) l acc
    = fold_left (fun a b => 2 * a + b) l acc.
Proof.
  induction 1 as [|x l Hx Hl IH]; intros acc Hacc; [reflexivity|].
  cbn [fold_left]. rewrite lor_shiftl_bit by assumption. apply IH. lia.
Qed.

Lemma pack_flips (eo : list Z) :
  flips_ok eo ->
  exists e,
    fold_left (fun eoro bit => Z.lor (Z.shiftl eoro 1) (Z.land bit 1)) (rev eo) 0 = e /\
    0 <= e < 4096 /\ flips_of e = rev eo.
Proof.
  intros [Hlen Hall]. rewrite fold_lor_bits; [|now apply Forall_rev|lia].
  destruct eo as [|y0 [|y1 [|y2 [|y3 [|y4 [|y5 [|y6 [|y7 [|y8 [|y9 [|y10 [|y11 [|]]]]]]]]]]]]];
    try discriminate Hlen.
  repeat match goal with
         | H : Forall _ (_ :: _) |- _ => apply Forall_cons in H as [? H]
         end.
  eexists. split; [reflexivity|].
  assert (fold_left (fun a b => 2 * a + b)
            (rev [y0; y1; y2; y3; y4; y5; y6; y7; y8; y9; y10; y11]) 0
          = y0 + 2 * y1 + 4 * y2 + 8 * y3 + 16 * y4 + 32 * y5 + 64 * y6
            + 128 * y7 + 256 * y8 + 512 * y9 + 1024 * y10 + 2048 * y11) as ->
    by (cbn [rev app fold_left]; lia).
  split; [lia|].
  rewrite flips_of_digits by lia. f_equal.
  cbn [digits2].
  repeat (f_equal; [Z.div_mod_to_equations; lia|]).
  f_equal. Z.div_mod_to_equations. lia.
Qed.


Lemma edge_loop_eq (eo : list Z) :
  length eo = 12%nat ->
  foldM (fun eoro idx => b ← getitem eo idx;
                         Ret (Z.lor (Z.shiftl eoro 1) (Z.land b 1)))
        (rev edge_values) 0
  = Ret (fold_left (fun eoro bit => Z.lor (Z.shiftl eoro 1) (Z.land bit 1))
                   (rev eo) 0).
Proof.
  intros Hlen.
  destruct eo as [|y0 [|y1 [|y2 [|y3 [|y4 [|y5 [|y6 [|y7 [|y8 [|y9 [|y10 [|y11 [|]]]]]]]]]]]]];
    try discriminate Hlen.
  cbv -[Z.lor Z.shiftl Z.land]. reflexivity.
Qed.

(** Encoding eight twists and twelve flips of a cube and decoding the word
    gives the twists back, and the flips in reverse order. *)
Theorem decode_encode_orientations (pc pe : Z) (co eo : list Z) :
  twists_ok co -> flips_ok eo ->
  (orie ← _encode_orientations co eo; _decode_orientations (mkBit pc pe orie))
  = Ret (co, rev eo).
Proof.
  intros Hco Heo.
  destruct (pack_coro_twists co Hco) as (c & Hc & Hcr & Hct).
  destruct (pack_flips eo Heo) as (e & He & Her & Hef).
  unfold _encode_orientations. rewrite Hc. cbn [mbind res_bind]. rewrite He.
  rewrite decode_orientations_eq. cbn [orie].
  destruct (word_split c e) as [-> ->]; [lia|assumption|].
  now rewrite Hct, Hef.
Qed.

Lemma decode_encode_orientations_witness :
  (orie ← _encode_orientations [1; 2; 0; 0; 0; 0; 0; 0]
                               [1; 0; 0; 0; 0; 0; 0; 0; 0; 0; 0; 0];
   _decode_orientations (mkBit 0 0 orie))
  = Ret ([1; 2; 0; 0; 0; 0; 0; 0], rev [1; 0; 0; 0; 0; 0; 0; 0; 0; 0; 0; 0]).
Proof.
  apply (decode_encode_orientations 0 0).
  - split; [reflexivity|]. split; [|reflexivity].
    repeat (apply List.Forall_cons; [lia|]). apply List.Forall_nil.
  - split; [reflexivity|].
    repeat (apply List.Forall_cons; [lia|]). apply List.Forall_nil.
Defined.

(** Packing a cube and unpacking it does not give the cube back: both
    permutations and the edge flips come back in reverse order (the twists
    are kept). *)
Theorem to_cubiecube_from_cubiecube (cc : CubieCube) :
  cp cc ≡ₚ range 8 -> ep cc ≡ₚ range 12 ->
  twists_ok (co cc) -> flips_ok (eo cc) ->
  (b ← from_cubiecube cc; to_cubiecube b)
  = Ret (mkCubie (rev (cp cc)) (co cc) (rev (ep cc)) (rev (eo cc))).
Proof.
  intros Hcp Hep Hco Heo.
  assert (length (cp cc) = 8%nat) as Lcp by (now rewrite Hcp).
  assert (length (ep cc) = 12%nat) as Lep by (now rewrite Hep).
  destruct (rank_and_round_trip (cp cc)) as (c1 & Hc1 & _ & Hr1);
    [lia|now rewrite Lcp|].
  destruct (rank_and_round_trip (ep cc)) as (c2 & Hc2 & _ & Hr2);
    [lia|now rewrite Lep|].
  rewrite Lcp in Hr1. rewrite Lep in Hr2.
  destruct (pack_coro_twists _ Hco) as (c & Hc & Hcr & Hct).
  destruct (pack_flips _ Heo) as (e & He & Her & Hef).
  unfold from_cubiecube. rewrite Hc1, Hc2, Hc. cbn [mbind res_bind].
  rewrite edge_loop_eq by apply Heo. cbn [mbind res_bind]. rewrite He.
  unfold to_cubiecube. cbn [pc pe].
  change (Z.of_nat 8) with 8 in Hr1. change (Z.of_nat 12) with 12 in Hr2.
  rewrite Hr1, Hr2. cbn [mbind res_bind].
  rewrite decode_orientations_eq. cbn [orie mbind res_bind].
  destruct (word_split c e) as [-> ->]; [lia|assumption|].
  now rewrite Hct, Hef.
Qed.

Lemma to_cubiecube_from_cubiecube_witness :
  (b ← from_cubiecube solved_cubie; to_cubiecube b)
  = Ret (mkCubie (rev (range 8)) (repeat_list 0 8) (rev (range 12))
                 (rev (repeat_list 0 12))).
Proof.
  apply (to_cubiecube_from_cubiecube solved_cubie).
  - reflexivity.
  - reflexivity.
  - split; [reflexivity|]. split; [|reflexivity].
    repeat (apply List.Forall_cons; [lia|]). apply List.Forall_nil.
  - split; [reflexivity|].
    repeat (apply List.Forall_cons; [lia|]). apply List.Forall_nil.
Defined.

End BitcubeRoundTrips.

(** ** [coordcube.py]: nibbles, caches, table fills and moves *)
Module CoordcubeTables.
Import Py Coordcube PyFacts BitcubeFacts CoordcubeFacts SearchFacts BitcubeRoundTrips.
Import CoordcubeCache CoordcubeFill CoordcubeMoves.

(** *** Writing and reading a nibble *)

(** A cache that holds, for this table, only bytes the table holds, under
    the byte indices [getPruning] computes for entries from 0 on. *)
Definition cache_ok (cache : byte_cache) (table : pylist) : Prop :=
  forall b v, cache !! (obj_id table, b) = Some v ->
              0 <= b /\ getitem (items table) b = Ret v.

Definition nibbles_ok (old v : Z) : bool :=
  let even := Z.lor (Z.land old 0xF0) v in
  let odd := Z.lor (Z.land old 0x0F) (Z.shiftl v 4) in
  (0 <=? even) && (even <? 256) && (Z.land even 0x0F =? v)
  && (Z.shiftr even 4 =? Z.shiftr old 4)
  && (0 <=? odd) && (odd <? 256) && (Z.shiftr odd 4 =? v)
  && (Z.land odd 0x0F =? Z.land old 0x0F).

Lemma nibbles_spec (old v : Z) :
  0 <= old < 256 -> 0 <= v <= 15 -> nibbles_ok old v = true.
Proof.
  intros Ho Hv.
  assert (forallb (fun o => forallb (nibbles_ok o) (range 16)) (range 256) = true)
    as Hall by (vm_compute; reflexivity).
  rewrite forallb_forall in Hall.
  specialize (Hall old ltac:(apply list_elem_of_In, elem_of_range; lia)).
  rewrite forallb_forall in Hall.
  apply Hall. apply list_elem_of_In, elem_of_range. lia.
Qed.

Lemma shiftr_1_nonneg (i : Z) : 0 <= i -> 0 <= Z.shiftr i 1.
Proof. intros H. now apply Z.shiftr_nonneg. Qed.

Lemma same_byte (i j : Z) :
  Z.shiftr i 1 = Z.shiftr j 1 -> i <> j ->
  (Z.land i 1 =? 0) = negb (Z.land j 1 =? 0).
Proof.
  intros Hb Hne. rewrite !Z.shiftr_div_pow2 in Hb by lia.
  change (2 ^ 1) with 2 in Hb.
  assert (forall x, Z.land x 1 = x `mod` 2) as Hl
    by (intros x; apply (Z.land_ones x 1); lia).
  rewrite !Hl.
  pose proof (Z.div_mod i 2 ltac:(lia)). pose proof (Z.div_mod j 2 ltac:(lia)).
  pose proof (Z.mod_pos_bound i 2 ltac:(lia)).
  pose proof (Z.mod_pos_bound j 2 ltac:(lia)).
  destruct (Z.eqb_spec (i `mod` 2) 0), (Z.eqb_spec (j `mod` 2) 0); cbn; lia.
Qed.

(** After [setPruning(table, i, v)] on a table of bytes, with a value that
    fits a nibble, [getPruning] returns [v] at [i] and, at every other
    entry, what the table held before; the table still holds bytes and the
    byte cache still agrees with it. *)
Theorem setPruning_then_getPruning (cache cache' : byte_cache)
    (table table' : pylist) (i v : Z) :
  bytes_ok (items table) -> cache_ok cache table ->
  0 <= i -> 0 <= v <= 15 ->
  setPruning cache table i v = Ret (table', cache') ->
  bytes_ok (items table') /\ cache_ok cache' table' /\
  (exists c, getPruning cache' table' i = Ret (v, c)) /\
  (forall j, 0 <= j -> j <> i ->
     (r ← getPruning cache' table' j; Ret r.1)
     = read_nibble (items table) j).
Proof.
  intros Hb Hc Hi Hv H. unfold setPruning in H.
  destruct (getitem (items table) (Z.shiftr i 1)) as [|old] eqn:Eo; [discriminate|].
  cbn [mbind res_bind] in H.
  match type of H with
  | context [setitem _ _ ?n] => set (new := n) in H
  end.
  destruct (setitem (items table) (Z.shiftr i 1) new) as [|items'] eqn:Es;
    [discriminate|].
  cbn [mbind res_bind] in H. injection H as <- <-.
  pose proof (shiftr_1_nonneg i Hi) as Hbi.
  pose proof (getitem_Forall _ _ _ _ Hb Eo) as Hold. cbn beta in Hold.
  pose proof (nibbles_spec old v Hold Hv) as Hn. unfold nibbles_ok in Hn.
  cbv zeta in Hn.
  repeat (apply andb_true_iff in Hn as [Hn ?]).
  apply setitem_nonneg in Es as [-> Hlt]; [|assumption].
  assert (0 <= new < 256) as Hnew.
  { unfold new. destruct (Z.land i 1 =? 0); lia. }
  assert (getitem (<[Z.to_nat (Z.shiftr i 1) := new]> (items table)) (Z.shiftr i 1)
          = Ret new) as Hget.
  { apply getitem_nonneg; [assumption|]. apply list_lookup_insert_eq. lia. }
  assert (forall b, 0 <= b -> b <> Z.shiftr i 1 ->
            getitem (<[Z.to_nat (Z.shiftr i 1) := new]> (items table)) b
            = getitem (items table) b) as Hother.
  { intros b Hb0 Hne. unfold getitem. rewrite norm_index_insert.
    destruct (Z_lt_ge_dec b (Z.of_nat (length (items table)))) as [Hl|Hl].
    - rewrite norm_index_nonneg by lia.
      rewrite list_lookup_insert_ne by lia. reflexivity.
    - now rewrite norm_index_high by lia. }
  cbn [obj_id items].
  split; [|split; [|split]].
  - apply Forall_insert; assumption.
  - intros b w Hl. cbn [obj_id items] in *.
    destruct (decide (b = Z.shiftr i 1)) as [->|Hne].
    + now rewrite lookup_delete_eq in Hl.
    + rewrite lookup_delete_ne in Hl by congruence.
      destruct (Hc b w Hl) as [Hb0 Hg]. split; [assumption|].
      now rewrite Hother.
  - unfold getPruning. cbn [obj_id items]. rewrite lookup_delete_eq, Hget.
    cbn [mbind res_bind]. eexists. f_equal. f_equal.
    unfold new. destruct (Z.land i 1 =? 0); lia.
  - intros j Hj Hne. unfold getPruning, read_nibble. cbn [obj_id items].
    pose proof (shiftr_1_nonneg j Hj) as Hbj.
    destruct (decide (Z.shiftr j 1 = Z.shiftr i 1)) as [Heq|Hnb].
    + rewrite Heq, lookup_delete_eq, Hget, Eo. cbn [mbind res_bind fst].
      f_equal. rewrite (same_byte j i Heq Hne). unfold new.
      destruct (Z.land i 1 =? 0); cbn [negb]; lia.
    + rewrite lookup_delete_ne by congruence.
      destruct (cache !! (obj_id table, Z.shiftr j 1)) as [w|] eqn:El.
      * destruct (Hc _ _ El) as [_ Hg]. rewrite Hg. reflexivity.
      * rewrite Hother by assumption.
        destruct (getitem (items table) (Z.shiftr j 1)); reflexivity.
Qed.

Lemma setPruning_then_getPruning_witness :
  bytes_ok [0x25; 0x43] /\ cache_ok ∅ (mkList 7 [0x25; 0x43]) /\
  (exists c, getPruning (∅ : byte_cache) (mkList 7 [0x25; 0x43]) 0 = Ret (5, c)) /\
  (forall j, 0 <= j -> j <> 0 ->
     (r ← getPruning (∅ : byte_cache) (mkList 7 [0x25; 0x43]) j; Ret r.1)
     = read_nibble [0x21; 0x43] j).
Proof.
  destruct (setPruning_then_getPruning ∅ ∅ (mkList 7 [0x21; 0x43])
              (mkList 7 [0x25; 0x43]) 0 5) as (H1 & H2 & H3 & H4).
  - repeat (apply List.Forall_cons; [lia|]). apply List.Forall_nil.
  - intros b v Hl. now rewrite lookup_empty in Hl.
  - lia.
  - lia.
  - vm_compute. reflexivity.
  - split; [|split; [|split]].
    + exact H1.
    + exact H2.
    + exact H3.
    + exact H4.
Defined.

(** *** The index cache *)

(** [getPruning_cached] answers from a cache keyed by the index alone: once
    entry [i] of one table has been read, a read of entry [i] of any other
    table, whatever it holds, returns that first value and reads nothing. *)
Theorem getPruning_cached_ignores_table (bytes bytes' : byte_cache)
    (cache cache' : gmap Z Z) (table : pylist) (i r : Z) :
  getPruning_cached bytes cache table i = Ret (r, bytes', cache') ->
  Z.of_nat (size cache) < 10000 ->
  forall (other : pylist) (bytes2 : byte_cache),
    getPruning_cached bytes2 cache' other i = Ret (r, bytes2, cache').
Proof.
  intros H Hs other bytes2. unfold getPruning_cached in *.
  destruct (cache !! i) as [r0|] eqn:E.
  - injection H as <- <- <-. now rewrite E.
  - destruct (getPruning bytes table i) as [|[res b']]; [discriminate|].
    cbn [mbind res_bind] in H.
    destruct (Z.ltb_spec (Z.of_nat (size cache)) 10000); [|lia].
    injection H as <- <- <-. now rewrite lookup_insert_eq.
Qed.

Lemma getPruning_cached_ignores_table_witness :
  getPruning_cached ∅ {[ 0 := 3 ]} (mkList 2 [0x77]) 0
  = Ret (3, ∅, {[ 0 := 3 ]}).
Proof.
  refine (getPruning_cached_ignores_table ∅ {[ (1, 0) := 0x53 ]} ∅ {[ 0 := 3 ]}
            (mkList 1 [0x53]) 0 3 _ _ (mkList 2 [0x77]) ∅).
  - vm_compute. reflexivity.
  - vm_compute. reflexivity.
Defined.

(** *** Run-length coding *)

Lemma decompress_acc {A} (l : list (A * Z)) (acc : list A) :
  fold_left (fun d '(val, cnt) => d ++ repeat_list val cnt) l acc
  = acc ++ rle_decompress l.
Proof.
  unfold rle_decompress. revert acc.
  induction l as [|[v c] l IH]; intros acc.
  - cbn. now rewrite app_nil_r.
  - cbn [fold_left app]. rewrite IH, (IH (repeat_list v c)).
    now rewrite app_assoc.
Qed.

Lemma decompress_snoc {A} (l : list (A * Z)) (v : A) (c : Z) :
  rle_decompress (l ++ [(v, c)]) = rle_decompress l ++ repeat_list v c.
Proof. unfold rle_decompress at 1. rewrite fold_left_app. cbn [fold_left].
       now rewrite decompress_acc. Qed.

Lemma range_from_snoc (m : nat) :
  range_from 1 (Z.of_nat (S (S m)))
  = range_from 1 (Z.of_nat (S m)) ++ [Z.of_nat (S m)].
Proof.
  unfold range_from.
  replace (Z.of_nat (S (S m)) - 1) with (Z.of_nat (S m)) by lia.
  replace (Z.of_nat (S m) - 1) with (Z.of_nat m) by lia.
  rewrite !range_zseq, zseq_S, map_app. cbn [map]. do 2 f_equal. lia.
Qed.

Lemma rle_loop {A} `{EqDecision A} (data : list A) :
  forall m x, data !! m = Some x ->
    exists comp cnt,
      foldM (fun '(compressed, count) i =>
          x ← getitem data i;
          y ← getitem data (i - 1);
          if decide (x = y) then Ret (compressed, count + 1)
          else Ret (compressed ++ [(y, count)], 1))
        (range_from 1 (Z.of_nat (S m))) ([], 1) = Ret (comp, cnt) /\
      1 <= cnt /\
      rle_decompress comp ++ repeat_list x cnt = take (S m) data.
Proof.
  induction m as [|m IH]; intros x Hx.
  - exists [], 1. split; [reflexivity|]. split; [lia|].
    destruct data as [|d data]; [discriminate|]. cbn in Hx. injection Hx as <-.
    reflexivity.
  - destruct (data !! m) as [y|] eqn:Ey;
      [|apply lookup_ge_None in Ey; apply lookup_lt_Some in Hx; lia].
    destruct (IH y eq_refl) as (comp & cnt & Hrun & Hcnt & Hdec).
    rewrite range_from_snoc, foldM_app, Hrun. cbn [mbind res_bind foldM].
    assert (getitem data (Z.of_nat (S m)) = Ret x) as ->
      by (apply getitem_nonneg; [lia|]; now rewrite Nat2Z.id).
    assert (getitem data (Z.of_nat (S m) - 1) = Ret y) as ->.
    { apply getitem_nonneg; [lia|].
      replace (Z.to_nat (Z.of_nat (S m) - 1)) with m by lia. assumption. }
    cbn [mbind res_bind].
    rewrite (take_S_r data (S m) x Hx).
    destruct (decide (x = y)) as [->|Hne].
    + exists comp, (cnt + 1). split; [reflexivity|]. split; [lia|].
      rewrite <- Hdec, <- app_assoc. f_equal. unfold repeat_list.
      replace (Z.to_nat (cnt + 1)) with (S (Z.to_nat cnt)) by lia.
      now rewrite replicate_S_end.
    + exists (comp ++ [(y, cnt)]), 1. split; [reflexivity|]. split; [lia|].
      rewrite decompress_snoc, Hdec. reflexivity.
Qed.

Lemma rle_compress_nonempty {A} `{EqDecision A} (data : list A) :
  data <> [] ->
  exists runs, rle_compress data = Ret runs /\ rle_decompress runs = data.
Proof.
  intros Hne.
  destruct (length data) as [|m] eqn:El; [destruct data; [congruence|discriminate]|].
  destruct (data !! m) as [x|] eqn:Ex; [|apply lookup_ge_None in Ex; lia].
  destruct (rle_loop data m x Ex) as (comp & cnt & Hrun & Hcnt & Hdec).
  unfold rle_compress. rewrite El, Hrun. cbn [mbind res_bind].
  assert (getitem data (-1) = Ret x) as ->.
  { unfold getitem, norm_index. rewrite El.
    destruct (Z.leb_spec 0 (-1)); [lia|]. cbn [andb].
    destruct (Z.leb_spec (- Z.of_nat (S m)) (-1)); [|lia].
    destruct (Z.ltb_spec (-1) 0); [|lia]. cbn [andb].
    replace (Z.to_nat (Z.of_nat (S m) + -1)) with m by lia. now rewrite Ex. }
  cbn [mbind res_bind]. eexists. split; [reflexivity|].
  rewrite decompress_snoc, Hdec. apply take_ge. lia.
Qed.

(** [rle_decompress] undoes [rle_compress] on every list that is not empty,
    and [rle_compress] raises [IndexError] on the empty list (its last line
    reads [data[-1]]). *)
Theorem rle_round_trip {A} `{EqDecision A} (data : list A) :
  (data = [] -> rle_compress data = Raise IndexError) /\
  (data <> [] ->
   exists runs, rle_compress data = Ret runs /\ rle_decompress runs = data).
Proof.
  split; [intros ->; reflexivity|apply rle_compress_nonempty].
Qed.

Lemma rle_round_trip_witness :
  rle_compress (@nil Z) = Raise IndexError /\
  exists runs, rle_compress [7; 7; 3] = Ret runs /\ rle_decompress runs = [7; 7; 3].
Proof.
  split.
  - apply (proj1 (rle_round_trip (@nil Z))). reflexivity.
  - apply (proj2 (rle_round_trip [7; 7; 3])). discriminate.
Defined.

(** *** The cache files *)

(** A table written by [dump_cachetable] does not come back from
    [load_cachetable], except under the name [URtoDF_Move]: the file holds
    the run-length pairs, and the loader expands them for that one name
    only. Under every other name the caller gets the list of pairs. *)
Theorem dump_then_load {A} `{EqDecision A} (fs : cache_dir A)
    (table : list A) (name : string) :
  table <> [] ->
  exists fs' runs,
    dump_cachetable fs table name = Ret fs' /\
    rle_decompress runs = table /\
    load_cachetable fs' name
    = Ret (Some (if decide (name = "URtoDF_Move"%string)
                 then Table table else Runs runs)).
Proof.
  intros Hne.
  destruct (rle_compress_nonempty table Hne) as (runs & Hc & Hd).
  exists (<[file_of name := Runs runs]> fs), runs.
  unfold dump_cachetable. rewrite Hc. split; [reflexivity|]. split; [assumption|].
  unfold load_cachetable. rewrite lookup_insert_eq.
  destruct (decide (name = "URtoDF_Move"%string)); [|reflexivity].
  destruct runs as [|r runs]; [|now rewrite Hd].
  cbn in Hd. congruence.
Qed.

Lemma dump_then_load_witness :
  exists (fs' : cache_dir Z) runs,
    dump_cachetable ∅ [0; 0; 5] "Slice_Flip_Prun" = Ret fs' /\
    rle_decompress runs = [0; 0; 5] /\
    load_cachetable fs' "Slice_Flip_Prun" = Ret (Some (Runs runs)).
Proof.
  apply (dump_then_load (∅ : cache_dir Z) [0; 0; 5] "Slice_Flip_Prun").
  discriminate.
Defined.

(** *** The fill of [Slice_Twist_Prun] *)

Section FillFacts.
Variable T : Tables.
Variable id : Z.

(** The table stays as allocated, and the cache holds for it only bytes it
    holds. *)
Definition untouched (st : fill_state) : Prop :=
  st.1.1 = mkList id alloc_Slice_Twist_Prun /\
  forall b v, st.1.2 !! (id, b) = Some v ->
              getitem alloc_Slice_Twist_Prun b = Ret v.

Lemma alloc_zero (b v : Z) :
  getitem alloc_Slice_Twist_Prun b = Ret v -> v = 0.
Proof.
  intros H. apply getitem_elem_of in H. unfold alloc_Slice_Twist_Prun, repeat_list in H.
  now apply elem_of_replicate in H as [-> _].
Qed.

Lemma getPruning_untouched (cache cache' : byte_cache) (i v : Z) :
  untouched (mkList id alloc_Slice_Twist_Prun, cache, 1) ->
  getPruning cache (mkList id alloc_Slice_Twist_Prun) i = Ret (v, cache') ->
  v = 0 /\ untouched (mkList id alloc_Slice_Twist_Prun, cache', 1).
Proof.
  intros [_ Hc] H. cbn [fst snd] in Hc.
  assert (coherent cache (mkList id alloc_Slice_Twist_Prun)) as Hco
    by (intros b w; apply Hc).
  destruct (getPruning_coherent _ _ _ _ _ Hco H) as [Hr Hco'].
  split.
  - unfold read_nibble in Hr. cbn [items] in Hr.
    destruct (getitem alloc_Slice_Twist_Prun (Z.shiftr i 1)) as [|b] eqn:E;
      [discriminate|].
    apply alloc_zero in E as ->. cbn in Hr.
    destruct (Z.land i 1 =? 0); now injection Hr as <-.
  - split; [reflexivity|]. intros b w. apply Hco'.
Qed.

Ltac raised lem :=
  let H := fresh "H" in
  intros H; injection H as H; subst; eapply lem; eassumption.

Lemma getPruning_raises (cache : byte_cache) (table : pylist) (i : Z) (e : exn) :
  getPruning cache table i = Raise e -> e = IndexError.
Proof.
  unfold getPruning. destruct (cache !! _); [discriminate|].
  destruct (getitem (items table) (Z.shiftr i 1)) eqn:E; [|discriminate].
  cbn [mbind res_bind]. raised @getitem_raises.
Qed.

Lemma setPruning_raises (cache : byte_cache) (table : pylist) (i v : Z) (e : exn) :
  setPruning cache table i v = Raise e -> e = IndexError.
Proof.
  unfold setPruning.
  destruct (getitem (items table) (Z.shiftr i 1)) eqn:E; cbn [mbind res_bind];
    [raised @getitem_raises|].
  destruct (setitem _ _ _) eqn:E'; cbn [mbind res_bind]; [|discriminate].
  raised @setitem_raises.
Qed.

Lemma getitem2_raises (t : list (list Z)) (i j : Z) (e : exn) :
  getitem2 t i j = Raise e -> e = IndexError.
Proof.
  unfold getitem2. destruct (getitem t i) eqn:E; cbn [mbind res_bind].
  - raised @getitem_raises.
  - apply getitem_raises.
Qed.

Lemma fill_move_raises (depth twist sl : Z) (st : fill_state) (j : Z) (e : exn) :
  fill_move T depth twist sl st j = Raise e -> e = IndexError.
Proof.
  destruct st as [[table cache] done]. unfold fill_move.
  destruct (getitem2 (FRtoBR_Move T) _ _) eqn:E1; cbn [mbind res_bind];
    [raised getitem2_raises|].
  destruct (getitem2 (twistMove T) _ _) eqn:E2; cbn [mbind res_bind];
    [raised getitem2_raises|].
  destruct (getPruning _ _ _) as [|[v c]] eqn:E3; cbn [mbind res_bind];
    [raised getPruning_raises|].
  destruct (v =? 15); [|discriminate].
  destruct (setPruning _ _ _ _) as [|[t' c']] eqn:E4; cbn [mbind res_bind];
    [|discriminate].
  raised setPruning_raises.
Qed.

Lemma fill_entry_raises (depth : Z) (st : fill_state) (i : Z) (e : exn) :
  fill_entry T depth st i = Raise e -> e = IndexError.
Proof.
  destruct st as [[table cache] done]. unfold fill_entry.
  destruct (getPruning _ _ _) as [|[v c]] eqn:E3; cbn [mbind res_bind];
    [raised getPruning_raises|].
  destruct (v =? depth); [|discriminate].
  apply foldM_raises. intros s x e'. apply fill_move_raises.
Qed.

Lemma fill_move_untouched (depth twist sl : Z) (st st' : fill_state) (j : Z) :
  fill_move T depth twist sl st j = Ret st' ->
  untouched (st.1.1, st.1.2, 1) -> untouched (st'.1.1, st'.1.2, 1) /\ st'.2 = st.2.
Proof.
  destruct st as [[table cache] done]. unfold fill_move. cbn [fst snd].
  intros H Hu. pose proof Hu as [Ht _]. cbn [fst snd] in Ht. subst table.
  destruct (getitem2 (FRtoBR_Move T) _ _); cbn [mbind res_bind] in H; [discriminate|].
  destruct (getitem2 (twistMove T) _ _); cbn [mbind res_bind] in H; [discriminate|].
  destruct (getPruning _ _ _) as [|[v c]] eqn:E3; cbn [mbind res_bind] in H; [discriminate|].
  apply getPruning_untouched in E3 as [-> Hu']; [|assumption].
  cbn in H. injection H as <-. cbn [fst snd]. split; [assumption|reflexivity].
Qed.

Lemma fill_entry_untouched (depth : Z) (st st' : fill_state) (i : Z) :
  fill_entry T depth st i = Ret st' ->
  untouched (st.1.1, st.1.2, 1) -> untouched (st'.1.1, st'.1.2, 1) /\ st'.2 = st.2.
Proof.
  destruct st as [[table cache] done]. unfold fill_entry. cbn [fst snd].
  intros H Hu. pose proof Hu as [Ht _]. cbn [fst snd] in Ht. subst table.
  destruct (getPruning _ _ _) as [|[v c]] eqn:E3; cbn [mbind res_bind] in H; [discriminate|].
  apply getPruning_untouched in E3 as [-> Hu']; [|assumption].
  destruct (0 =? depth).
  - refine (foldM_preserve
              (fun s : fill_state => untouched (s.1.1, s.1.2, 1) /\ s.2 = done)
              _ _ _ _ _ H _).
    + intros s x s' Hs [Hus Hd].
      destruct (fill_move_untouched _ _ _ _ _ _ Hs Hus) as [? ?].
      split; [assumption|congruence].
    + split; [assumption|reflexivity].
  - injection H as <-. split; [assumption|reflexivity].
Qed.

(** When no cached [Slice_Twist_Prun] is found, the class body cannot build
    it: whatever the move tables hold, the first pass of the fill reads the
    zero-filled list, never finds the value 15 that marks an entry as free,
    sets nothing, and raises [IndexError] at entry 541284 at the latest,
    the first one the short list has no byte for. *)
Theorem fill_Slice_Twist_Prun_raises (fuel : nat) (cache : byte_cache) :
  (forall b, cache !! (id, b) = None) ->
  fill_Slice_Twist_Prun T (S fuel) id cache = Some (Raise IndexError).
Proof.
  intros Hfresh. unfold fill_Slice_Twist_Prun.
  assert (getitem alloc_Slice_Twist_Prun 0 = Ret 0) as H0.
  { unfold alloc_Slice_Twist_Prun. apply getitem_repeat_list.
    vm_compute. split; [discriminate|reflexivity]. }
  assert (setPruning cache (mkList id alloc_Slice_Twist_Prun) 0 0
          = Ret (mkList id alloc_Slice_Twist_Prun, delete (id, 0) cache)) as ->.
  { unfold setPruning. cbn [items obj_id].
    change (Z.shiftr 0 1) with 0. rewrite H0. cbn [mbind res_bind].
    change (if Z.land 0 1 =? 0 then Z.lor (Z.land 0 240) 0
            else Z.lor (Z.land 0 15) (Z.shiftl 0 4)) with 0.
    unfold setitem. rewrite norm_index_nonneg.
    - cbn [mbind res_bind]. rewrite list_insert_id; [reflexivity|].
      apply getitem_nonneg in H0; [exact H0|lia].
    - apply getitem_nonneg in H0; [|lia]. apply lookup_lt_Some in H0. lia. }
  cbn [fill_loop snd].
  destruct (Z.eqb_spec 1 (N_SLICE1 * N_TWIST)) as [E|_]; [discriminate E|].
  set (st0 := (mkList id alloc_Slice_Twist_Prun, delete (id, 0) cache, 1)).
  assert (untouched (st0.1.1, st0.1.2, 1)) as Hu0.
  { split; [reflexivity|]. intros b v. cbn [fst snd st0].
    destruct (decide (b = 0)) as [->|Hne].
    - now rewrite lookup_delete_eq.
    - rewrite lookup_delete_ne by congruence. now rewrite Hfresh. }
  assert (541284 ∈ range (N_SLICE1 * N_TWIST)) as Hin
    by (apply elem_of_range; vm_compute; split; [discriminate|reflexivity]).
  apply list_elem_of_split in Hin as (l1 & l2 & ->).
  rewrite foldM_app.
  destruct (foldM (fill_entry T 0) l1 st0) as [e|st1] eqn:E1.
  - cbn [mbind res_bind]. do 2 f_equal. revert E1. apply foldM_raises.
    intros s x e'. apply fill_entry_raises.
  - cbn [mbind res_bind foldM].
    assert (untouched (st1.1.1, st1.1.2, 1)) as Hu1.
    { refine (foldM_preserve (fun s : fill_state => untouched (s.1.1, s.1.2, 1))
                _ _ _ _ _ E1 Hu0).
      intros s x s' Hs Hus. now apply (fill_entry_untouched _ _ _ _ Hs). }
    destruct st1 as [[table1 cache1] done1].
    unfold untouched in Hu1. cbn [fst snd] in Hu1. destruct Hu1 as [-> Hc1].
    assert (getitem alloc_Slice_Twist_Prun 270642 = Raise IndexError) as Hhigh.
    { unfold alloc_Slice_Twist_Prun. apply getitem_repeat_list_high.
      vm_compute. split; discriminate. }
    assert (fill_entry T 0 (mkList id alloc_Slice_Twist_Prun, cache1, done1) 541284
            = Raise IndexError) as ->; [|reflexivity].
    unfold fill_entry, getPruning. cbn [obj_id items].
    change (Z.shiftr 541284 1) with 270642.
    destruct (cache1 !! (id, 270642)) as [v|] eqn:El.
    + apply Hc1 in El. congruence.
    + now rewrite Hhigh.
Qed.

End FillFacts.

Lemma fill_Slice_Twist_Prun_raises_witness :
  fill_Slice_Twist_Prun Example.tables 1 0 ∅ = Some (Raise IndexError).
Proof.
  apply (fill_Slice_Twist_Prun_raises Example.tables 0 0 ∅).
  intros b. apply lookup_empty.
Defined.

(** *** The inverse move tables *)

Lemma getitem_lookup {A} (l : list A) (i : Z) (x : A) :
  0 <= i -> l !! Z.to_nat i = Some x -> getitem l i = Ret x.
Proof. intros Hi H. now apply getitem_nonneg. Qed.

Lemma setitem_lookup {A} (l : list A) (i : Z) (v : A) :
  0 <= i < Z.of_nat (length l) -> setitem l i v = Ret (<[Z.to_nat i := v]> l).
Proof. intros H. unfold setitem. now rewrite norm_index_nonneg. Qed.

Lemma getitem2_lookup (t : list (list Z)) (a b x : Z) :
  0 <= a -> 0 <= b ->
  getitem2 t a b = Ret x <->
  exists row, t !! Z.to_nat a = Some row /\ row !! Z.to_nat b = Some x.
Proof.
  intros Ha Hb. unfold getitem2. split.
  - destruct (getitem t a) as [|row] eqn:E; [discriminate|].
    cbn [mbind res_bind]. intros H. exists row.
    split; now apply getitem_nonneg.
  - intros (row & H1 & H2). rewrite (getitem_lookup t a row Ha H1).
    cbn [mbind res_bind]. now apply getitem_lookup.
Qed.

(** [inverse_move] is an involution of the move numbers. *)
Lemma inverse_move_involution (m : Z) :
  0 <= m < N_MOVE ->
  exists im, getitem inverse_move m = Ret im /\ 0 <= im < N_MOVE /\
    getitem inverse_move im = Ret m.
Proof.
  intros H. apply elem_of_range in H. vm_compute in H.
  repeat (apply elem_of_cons in H as [->|H]);
    try (eexists; split; [reflexivity|]; split; [vm_compute; intuition discriminate|reflexivity]).
  now apply elem_of_nil in H.
Qed.

Lemma foldM_prefix {A S} (P : list A -> S -> Prop) (f : S -> A -> res S)
    (l : list A) :
  (forall pre x post s, l = pre ++ x :: post -> P pre s ->
     exists s', f s x = Ret s' /\ P (pre ++ [x]) s') ->
  forall s, P [] s -> exists s', foldM f l s = Ret s' /\ P l s'.
Proof.
  intros Hf.
  assert (forall post pre s, l = pre ++ post -> P pre s ->
            exists s', foldM f post s = Ret s' /\ P l s') as H.
  { induction post as [|x post IH]; intros pre s Hl Hs.
    - rewrite app_nil_r in Hl. subst. now exists s.
    - destruct (Hf pre x post s Hl Hs) as (s1 & E & H1).
      cbn [foldM]. rewrite E. cbn [mbind res_bind].
      apply (IH (pre ++ [x])); [|assumption].
      now rewrite <- app_assoc. }
  intros s Hs. now apply (H l []).
Qed.

Section Inverse.
Variable forward : list (list Z).
Variable size : Z.
Hypothesis forward_in_range : forall i m, 0 <= i < size -> 0 <= m < N_MOVE ->
  exists ns, getitem2 forward i m = Ret ns /\ 0 <= ns < size.
Hypothesis forward_injective : forall i i' m ns,
  0 <= i < size -> 0 <= i' < size -> 0 <= m < N_MOVE ->
  getitem2 forward i m = Ret ns -> getitem2 forward i' m = Ret ns -> i = i'.

Definition shape (inverse : list (list Z)) : Prop :=
  Z.of_nat (length inverse) = size /\
  Forall (fun row => length row = 18%nat) inverse.

Definition inverts (D : Z -> Z -> Prop) (inverse : list (list Z)) : Prop :=
  forall i m, D i m -> 0 <= i < size -> 0 <= m < N_MOVE ->
  exists ns im, getitem2 forward i m = Ret ns /\
    getitem inverse_move m = Ret im /\ getitem2 inverse ns im = Ret i.

Definition inverse_step (i : Z) (inverse : list (list Z)) (m : Z)
  : res (list (list Z)) :=
  new_state ← getitem2 forward i m;
  inv_m ← getitem inverse_move m;
  if (0 <=? new_state) && (new_state <? Z.of_nat (length inverse)) then
    row0 ← getitem inverse 0;
    if (0 <=? inv_m) && (inv_m <? Z.of_nat (length row0)) then
      row ← getitem inverse new_state;
      row' ← setitem row inv_m i;
      setitem inverse new_state row'
    else Ret inverse
  else Ret inverse.

Lemma inverse_step_inverts (D : Z -> Z -> Prop) (i m : Z)
    (inverse : list (list Z)) :
  0 <= i < size -> 0 <= m < N_MOVE ->
  shape inverse -> inverts D inverse ->
  exists inverse', inverse_step i inverse m = Ret inverse' /\
    shape inverse' /\
    inverts (fun i' m' => D i' m' \/ (i' = i /\ m' = m)) inverse'.
Proof.
  intros Hi Hm [Hlen Hrows] HD.
  destruct (forward_in_range i m Hi Hm) as (ns & Ens & Hns).
  destruct (inverse_move_involution m Hm) as (im & Eim & Him & Eback).
  unfold N_MOVE in Him.
  destruct (lookup_lt_is_Some_2 inverse (Z.to_nat ns)) as [row Erow]; [lia|].
  destruct (lookup_lt_is_Some_2 inverse (Z.to_nat 0)) as [row0 Erow0]; [lia|].
  assert (length row = 18%nat) as Lrow
    by exact (Forall_lookup_1 _ _ _ _ Hrows Erow).
  assert (length row0 = 18%nat) as Lrow0
    by exact (Forall_lookup_1 _ _ _ _ Hrows Erow0).
  exists (<[Z.to_nat ns := <[Z.to_nat im := i]> row]> inverse).
  split; [|split].
  - unfold inverse_step. rewrite Ens. cbn [mbind res_bind]. rewrite Eim.
    cbn [mbind res_bind].
    replace ((0 <=? ns) && (ns <? Z.of_nat (length inverse))) with true
      by (symmetry; apply andb_true_iff; lia).
    rewrite (getitem_lookup inverse 0 row0) by (lia || assumption).
    cbn [mbind res_bind].
    replace ((0 <=? im) && (im <? Z.of_nat (length row0))) with true
      by (symmetry; apply andb_true_iff; lia).
    rewrite (getitem_lookup inverse ns row) by (lia || assumption).
    cbn [mbind res_bind]. rewrite setitem_lookup by lia.
    cbn [mbind res_bind]. apply setitem_lookup. lia.
  - split; [now rewrite length_insert|].
    apply Forall_insert; [assumption|]. now rewrite length_insert.
  - intros i' m' HD' Hi' Hm'.
    destruct (inverse_move_involution m' Hm') as (im' & Eim' & Him' & Eback').
    unfold N_MOVE in Him'.
    assert (i' = i /\ m' = m \/ D i' m' /\ ~ (i' = i /\ m' = m)) as [[-> ->]|[Hd Hne]]
      by (destruct (decide (i' = i /\ m' = m)); tauto).
    + exists ns, im. split; [assumption|]. split; [assumption|].
      apply getitem2_lookup; [lia..|]. eexists. split.
      * apply list_lookup_insert_eq. lia.
      * apply list_lookup_insert_eq. lia.
    + destruct (HD i' m' Hd Hi' Hm') as (ns' & im'' & Ens' & Eim'' & Hread).
      rewrite Eim' in Eim''. injection Eim'' as <-.
      destruct (forward_in_range i' m' Hi' Hm') as (ns2 & Ens2 & Hns2).
      rewrite Ens' in Ens2. injection Ens2 as <-.
      exists ns', im'. split; [assumption|]. split; [assumption|].
      apply getitem2_lookup in Hread as (r & Hr1 & Hr2); [|lia..].
      apply getitem2_lookup; [lia..|].
      destruct (decide (ns' = ns)) as [->|Hns'].
      * rewrite Erow in Hr1. injection Hr1 as <-.
        eexists. split; [apply list_lookup_insert_eq; lia|].
        destruct (decide (im' = im)) as [->|Him''].
        -- rewrite Eback in Eback'. injection Eback' as <-.
           exfalso. apply Hne. split; [|reflexivity].
           exact (forward_injective i' i m ns Hi' Hi Hm Ens' Ens).
        -- rewrite list_lookup_insert_ne by lia. assumption.
      * exists r. split; [|assumption].
        rewrite list_lookup_insert_ne by lia. assumption.
Qed.

Lemma build_inverse_spec :
  0 <= size ->
  exists inverse, build_inverse forward size = Ret inverse /\
    shape inverse /\ inverts (fun i _ => i ∈ range size) inverse.
Proof.
  intros Hsize. unfold build_inverse.
  apply (foldM_prefix
    (fun pre inverse => shape inverse /\ inverts (fun i _ => i ∈ pre) inverse)).
  - intros pre i post inverse Hl [Hshape Hinv].
    assert (0 <= i < size) as Hi.
    { apply elem_of_range. rewrite Hl. apply elem_of_app. right. left. }
    destruct (foldM_prefix
      (fun preI inverse => shape inverse /\
         inverts (fun i' m' => i' ∈ pre \/ (i' = i /\ m' ∈ preI)) inverse)
      (inverse_step i) (range N_MOVE)) with (s := inverse)
      as (inverse' & E & Hshape' & Hinv').
    + intros preI m postI s Hl' [Hs Hi'].
      assert (0 <= m < N_MOVE) as Hm.
      { apply elem_of_range. rewrite Hl'. apply elem_of_app. right. left. }
      destruct (inverse_step_inverts _ i m s Hi Hm Hs Hi')
        as (s' & E & Hs' & Hi'').
      exists s'. split; [assumption|]. split; [assumption|].
      intros a b Hab Ha Hb. apply Hi''; [|assumption..].
      destruct Hab as [Hab|[-> Hab]]; [tauto|].
      apply elem_of_app in Hab as [Hab|Hab]; [tauto|].
      apply list_elem_of_singleton in Hab. tauto.
    + split; [assumption|]. intros a b [Hab|[_ Hab]] Ha Hb.
      * now apply Hinv.
      * now apply elem_of_nil in Hab.
    + exists inverse'. split; [exact E|]. split; [assumption|].
      intros a b Hab Ha Hb. apply Hinv'; [|assumption..].
      apply elem_of_app in Hab as [Hab|Hab]; [tauto|].
      apply list_elem_of_singleton in Hab. right. split; [assumption|].
      now apply elem_of_range.
  - split.
    + split; [now apply length_repeat_list|].
      unfold repeat_list. apply Forall_replicate. apply length_replicate.
    + intros a b Hab. now apply elem_of_nil in Hab.
Qed.

End Inverse.

(** The inverse table built from a forward table whose columns are
    injective maps of [0, size) into itself undoes it: after move [m] from
    state [i], the entry for the inverse move leads back to [i]. *)
Theorem build_inverse_inverts (forward : list (list Z)) (size : Z) :
  0 <= size ->
  (forall i m, 0 <= i < size -> 0 <= m < N_MOVE ->
     exists ns, getitem2 forward i m = Ret ns /\ 0 <= ns < size) ->
  (forall i i' m ns, 0 <= i < size -> 0 <= i' < size -> 0 <= m < N_MOVE ->
     getitem2 forward i m = Ret ns -> getitem2 forward i' m = Ret ns ->
     i = i') ->
  exists inverse, build_inverse forward size = Ret inverse /\
    forall i m, 0 <= i < size -> 0 <= m < N_MOVE ->
    exists ns im, getitem2 forward i m = Ret ns /\
      getitem inverse_move m = Ret im /\ getitem2 inverse ns im = Ret i.
Proof.
  intros Hsize Hfw Hinj.
  destruct (build_inverse_spec forward size Hfw Hinj Hsize)
    as (inverse & E & _ & Hinv).
  exists inverse. split; [exact E|]. intros i m Hi Hm.
  apply Hinv; [|assumption..]. now apply elem_of_range.
Qed.

Definition swap_table : list (list Z) := [repeat_list 1 18; repeat_list 0 18].

Lemma swap_table_entry (i m : Z) :
  0 <= i < 2 -> 0 <= m < N_MOVE -> getitem2 swap_table i m = Ret (1 - i).
Proof.
  intros Hi Hm. apply elem_of_range in Hi, Hm. vm_compute in Hi, Hm.
  repeat (apply elem_of_cons in Hi as [->|Hi]);
    [| |now apply elem_of_nil in Hi];
    repeat (apply elem_of_cons in Hm as [->|Hm]);
    solve [reflexivity | now apply elem_of_nil in Hm].
Qed.

Lemma build_inverse_inverts_witness :
  exists inverse, build_inverse swap_table 2 = Ret inverse /\
    forall i m, 0 <= i < 2 -> 0 <= m < N_MOVE ->
    exists ns im, getitem2 swap_table i m = Ret ns /\
      getitem inverse_move m = Ret im /\ getitem2 inverse ns im = Ret i.
Proof.
  apply (build_inverse_inverts swap_table 2); [lia| |].
  - intros i m Hi Hm. exists (1 - i).
    split; [now apply swap_table_entry|lia].
  - intros i i' m ns Hi Hi' Hm.
    rewrite !swap_table_entry by assumption. intros [= <-] [= H]. lia.
Defined.

(** *** Moves on coordinates *)

Lemma lor_ge_l (a b : Z) : 0 <= a -> 0 <= b -> a <= Z.lor a b.
Proof.
  intros Ha Hb.
  assert (Z.land a (Z.ldiff b a) = 0) as H0.
  { apply Z.bits_inj'. intros n Hn.
    rewrite Z.land_spec, Z.ldiff_spec, Z.bits_0.
    now destruct (Z.testbit a n), (Z.testbit b n). }
  assert (Z.lor a b = Z.lor a (Z.ldiff b a)) as ->.
  { apply Z.bits_inj'. intros n Hn.
    rewrite !Z.lor_spec, Z.ldiff_spec.
    now destruct (Z.testbit a n), (Z.testbit b n). }
  rewrite <- Z.lxor_lor, <- Z.add_nocarry_lxor by assumption.
  assert (0 <= Z.ldiff b a) by (apply Z.ldiff_nonneg; lia). lia.
Qed.

Lemma lor_below (a b n : Z) :
  0 <= a -> 0 <= b -> Z.lor a b < n -> a < n /\ b < n.
Proof.
  intros Ha Hb H. pose proof (lor_ge_l a b Ha Hb).
  pose proof (lor_ge_l b a Hb Ha) as H'. rewrite Z.lor_comm in H'. lia.
Qed.

(** A move table of a coordinate: one row of [N_MOVE] entries per value,
    each entry a value of the coordinate again. *)
Definition move_table_ok (t : list (list Z)) : Prop :=
  Forall (fun row => length row = 18%nat /\
            Forall (fun x => 0 <= x < Z.of_nat (length t)) row) t.

Definition merge_table_ok (T : Tables) : Prop :=
  forall a b,
    0 <= a < Z.min 336 (Z.of_nat (length (URtoUL_Move T))) ->
    0 <= b < Z.min 336 (Z.of_nat (length (UBtoDF_Move T))) ->
    exists v, getitem2 (MergeURtoULandUBtoDF T) a b = Ret v /\
      0 <= v < Z.of_nat (length (URtoDF_Move T)).

Definition move_tables_ok (T : Tables) : Prop :=
  move_table_ok (twistMove T) /\ move_table_ok (flipMove T) /\
  move_table_ok (FRtoBR_Move T) /\ move_table_ok (URFtoDLF_Move T) /\
  move_table_ok (URtoUL_Move T) /\ move_table_ok (UBtoDF_Move T) /\
  merge_table_ok T.

Definition below {A} (x : Z) (t : list A) : Prop :=
  0 <= x < Z.of_nat (length t).

Definition coord_ok (T : Tables) (c : CoordCube) : Prop :=
  below (c_twist c) (twistMove T) /\ below (c_flip c) (flipMove T) /\
  below (c_parity c) parityMove /\ below (c_FRtoBR c) (FRtoBR_Move T) /\
  below (c_URFtoDLF c) (URFtoDLF_Move T) /\
  below (c_URtoUL c) (URtoUL_Move T) /\ below (c_UBtoDF c) (UBtoDF_Move T) /\
  below (c_URtoDF c) (URtoDF_Move T).

Lemma move_table_entry (t : list (list Z)) (x m : Z) :
  move_table_ok t -> below x t -> 0 <= m < N_MOVE ->
  exists y, getitem2 t x m = Ret y /\ below y t.
Proof.
  intros Ht Hx Hm. unfold below in *. unfold N_MOVE in Hm.
  destruct (lookup_lt_is_Some_2 t (Z.to_nat x)) as [row Erow]; [lia|].
  destruct (Forall_lookup_1 _ _ _ _ Ht Erow) as [Hlen Hrow].
  destruct (lookup_lt_is_Some_2 row (Z.to_nat m)) as [y Ey]; [lia|].
  exists y. split.
  - apply getitem2_lookup; [lia..|]. eauto.
  - exact (Forall_lookup_1 _ _ _ _ Hrow Ey).
Qed.

Lemma parityMove_ok : move_table_ok parityMove.
Proof.
  unfold move_table_ok, parityMove.
  repeat first [apply List.Forall_cons | apply List.Forall_nil
               | split; [reflexivity|] | (cbn; lia)].
Qed.

(** With move tables that map each coordinate into its range, a move on an
    object whose coordinates are in range raises nothing and leaves every
    coordinate in range; the merge table is read only inside its first 336
    rows and columns. *)
Theorem move_keeps_coordinates_in_range (T : Tables) (c : CoordCube) (m : Z) :
  move_tables_ok T -> coord_ok T c -> 0 <= m < N_MOVE ->
  exists c', move T c m = Ret c' /\ coord_ok T c'.
Proof.
  intros (H1 & H2 & H3 & H4 & H5 & H6 & HM)
         (C1 & C2 & C3 & C4 & C5 & C6 & C7 & C8) Hm.
  destruct (move_table_entry _ _ m H1 C1 Hm) as (y1 & E1 & B1).
  destruct (move_table_entry _ _ m H2 C2 Hm) as (y2 & E2 & B2).
  destruct (move_table_entry _ _ m parityMove_ok C3 Hm) as (y3 & E3 & B3).
  destruct (move_table_entry _ _ m H3 C4 Hm) as (y4 & E4 & B4).
  destruct (move_table_entry _ _ m H4 C5 Hm) as (y5 & E5 & B5).
  destruct (move_table_entry _ _ m H5 C6 Hm) as (y6 & E6 & B6).
  destruct (move_table_entry _ _ m H6 C7 Hm) as (y7 & E7 & B7).
  unfold move. rewrite E1, E2, E3, E4, E5, E6, E7. cbn [mbind res_bind].
  destruct (Z.lor y6 y7 <? 336) eqn:G.
  - apply Z.ltb_lt in G. unfold below in *.
    apply lor_below in G as [G6 G7]; [|lia..].
    destruct (HM y6 y7) as (v & Ev & Hv); [lia..|].
    rewrite Ev. cbn [mbind res_bind]. eexists. split; [reflexivity|].
    unfold coord_ok, below in *. cbn [c_twist c_flip c_parity c_FRtoBR c_URFtoDLF c_URtoUL c_UBtoDF c_URtoDF]. lia.
  - cbn [mbind res_bind]. eexists. split; [reflexivity|].
    unfold coord_ok, below in *. cbn [c_twist c_flip c_parity c_FRtoBR c_URFtoDLF c_URtoUL c_UBtoDF c_URtoDF]. lia.
Qed.

Lemma example_move_tables_ok : move_tables_ok Example.tables.
Proof.
  assert (forall t, t = [Example.zrow] \/
            t = [[1;1;1;0;0;0;0;0;0;0;0;0;0;0;0;0;0;0]; Example.zrow] ->
            move_table_ok t) as Hrow.
  { intros t [-> | ->]; unfold move_table_ok;
      repeat first [apply List.Forall_cons | apply List.Forall_nil
                   | split; [reflexivity|] | (cbn; lia)]. }
  repeat split; try (apply Hrow; cbn; tauto).
  intros a b Ha Hb. cbn in Ha, Hb.
  assert (a = 0) as -> by lia. assert (b = 0) as -> by lia.
  exists 0. split; [reflexivity|cbn; lia].
Qed.

Lemma move_keeps_coordinates_in_range_witness :
  exists c', move Example.tables (mkCoord 0 1 0 0 0 0 0 0) 0 = Ret c' /\
    coord_ok Example.tables c'.
Proof.
  apply (move_keeps_coordinates_in_range Example.tables
           (mkCoord 0 1 0 0 0 0 0 0) 0);
    [exact example_move_tables_ok|unfold coord_ok, below; cbn; lia|
     unfold N_MOVE; lia].
Defined.

End CoordcubeTables.

(** ** [search.py]: the phase-2 state, the path and the table coding *)
Module SearchPieces.
Import Py Coordcube Search PyFacts BitcubeFacts CoordcubeFacts SearchFacts BitcubeRoundTrips.
Import SearchCompress.

(** *** The packed phase-2 state *)

Definition pack_phase2 (a b c d : Z) : Z :=
  Z.lor (Z.lor (Z.lor (Z.shiftl a 24) (Z.shiftl b 12)) (Z.shiftl c 8)) d.

Lemma lor_disjoint_add (k y n : Z) :
  0 <= n -> 0 <= y < 2 ^ n -> Z.lor (k * 2 ^ n) y = k * 2 ^ n + y.
Proof.
  intros Hn Hy.
  assert (Z.land (k * 2 ^ n) y = 0) as H0.
  { apply Z.bits_inj'. intros m Hm. rewrite Z.land_spec, Z.bits_0.
    destruct (Z.lt_ge_cases m n) as [Hlt|Hge].
    - rewrite Z.mul_pow2_bits_low by lia. reflexivity.
    - rewrite <- (Z.mod_small y (2 ^ n)) by lia.
      rewrite Z.mod_pow2_bits_high by lia. apply andb_false_r. }
  rewrite <- Z.lxor_lor by assumption. symmetry.
  now apply Z.add_nocarry_lxor.
Qed.

Lemma pack_phase2_sum (a b c d : Z) :
  0 <= b < 4096 -> 0 <= c <= 1 -> 0 <= d < 256 ->
  pack_phase2 a b c d = a * 16777216 + b * 4096 + c * 256 + d.
Proof.
  intros Hb Hc Hd. unfold pack_phase2.
  rewrite !Z.shiftl_mul_pow2 by lia.
  change (2 ^ 24) with 16777216. change (2 ^ 12) with 4096.
  change (2 ^ 8) with 256.
  replace (a * 16777216) with (a * 2 ^ 24) by reflexivity.
  rewrite (lor_disjoint_add a (b * 4096) 24) by (change (2 ^ 24) with 16777216; lia).
  change (2 ^ 24) with 16777216.
  replace (a * 16777216 + b * 4096) with ((a * 4096 + b) * 2 ^ 12)
    by (change (2 ^ 12) with 4096; lia).
  rewrite (lor_disjoint_add _ (c * 256) 12) by (change (2 ^ 12) with 4096; lia).
  change (2 ^ 12) with 4096.
  replace ((a * 4096 + b) * 4096 + c * 256)
    with ((a * 65536 + b * 16 + c) * 2 ^ 8) by (change (2 ^ 8) with 256; lia).
  rewrite (lor_disjoint_add _ d 8) by (change (2 ^ 8) with 256; lia).
  change (2 ^ 8) with 256. lia.
Qed.

Lemma unpack_phase2 (a b c d : Z) :
  0 <= a < 65536 -> 0 <= b < 4096 -> 0 <= c <= 1 -> 0 <= d < 256 ->
  let h := pack_phase2 a b c d in
  Z.land (Z.shiftr h 24) 0xFFFF = a /\ Z.land (Z.shiftr h 12) 0xFFF = b /\
  Z.land (Z.shiftr h 8) 1 = c /\ Z.land h 0xFF = d.
Proof.
  intros Ha Hb Hc Hd h. subst h. rewrite pack_phase2_sum by assumption.
  change 0xFFFF with (Z.ones 16). change 0xFFF with (Z.ones 12).
  change (Z.land ?x 1) with (Z.land x (Z.ones 1)). change 0xFF with (Z.ones 8).
  rewrite !Z.land_ones, !Z.shiftr_div_pow2 by lia.
  change (2 ^ 24) with 16777216. change (2 ^ 12) with 4096.
  change (2 ^ 8) with 256. change (2 ^ 16) with 65536. change (2 ^ 1) with 2.
  repeat split; Z.div_mod_to_equations; lia.
Qed.

(** On the packed form of four coordinates that fit their bit fields (16,
    12, 1 and 8 bits), [apply_phase2_move] moves each coordinate through its
    own table and packs the results again. *)
Theorem apply_phase2_move_fieldwise (T : Tables) (a b c d mv : Z) :
  0 <= a < 65536 -> 0 <= b < 4096 -> 0 <= c <= 1 -> 0 <= d < 256 ->
  apply_phase2_move T (pack_phase2 a b c d) mv =
    (a' ← getitem2 (URFtoDLF_Move T) a mv;
     b' ← getitem2 (FRtoBR_Move T) b mv;
     c' ← getitem2 parityMove c mv;
     d' ← getitem2 (URtoDF_Move T) d mv;
     Ret (pack_phase2 a' b' c' d')).
Proof.
  intros Ha Hb Hc Hd.
  destruct (unpack_phase2 a b c d Ha Hb Hc Hd) as (Ea & Eb & Ec & Ed).
  unfold apply_phase2_move. cbv zeta. rewrite Ea, Eb, Ec, Ed. reflexivity.
Qed.

Lemma get_phase2_hash_pack (sr : Search) (depth a b c d : Z) :
  getitem (URFtoDLF sr) depth = Ret a -> getitem (FRtoBR sr) depth = Ret b ->
  getitem (parity sr) depth = Ret c -> getitem (URtoDF sr) depth = Ret d ->
  get_phase2_hash sr depth = Ret (pack_phase2 a b c d).
Proof.
  intros Ea Eb Ec Ed. unfold get_phase2_hash.
  rewrite Ea, Eb, Ec, Ed. reflexivity.
Qed.

(** The hash does not tell apart the states [(a, b, 0, d + 256)] and
    [(a, b, 1, d)]: bit 8 of [URtoDF] falls on the parity bit. *)
Theorem get_phase2_hash_collision (sr sr' : Search) (depth a b d : Z) :
  0 <= d < 256 ->
  getitem (URFtoDLF sr) depth = Ret a -> getitem (FRtoBR sr) depth = Ret b ->
  getitem (parity sr) depth = Ret 0 -> getitem (URtoDF sr) depth = Ret (d + 256) ->
  getitem (URFtoDLF sr') depth = Ret a -> getitem (FRtoBR sr') depth = Ret b ->
  getitem (parity sr') depth = Ret 1 -> getitem (URtoDF sr') depth = Ret d ->
  get_phase2_hash sr depth = get_phase2_hash sr' depth.
Proof.
  intros Hd E1 E2 E3 E4 E1' E2' E3' E4'.
  rewrite (get_phase2_hash_pack sr depth a b 0 (d + 256)) by assumption.
  rewrite (get_phase2_hash_pack sr' depth a b 1 d) by assumption.
  f_equal. unfold pack_phase2.
  generalize (Z.lor (Z.shiftl a 24) (Z.shiftl b 12)) as x. intros x.
  change (Z.shiftl 0 8) with 0. change (Z.shiftl 1 8) with (1 * 2 ^ 8).
  rewrite Z.lor_0_r, <- (Z.lor_assoc x). f_equal.
  rewrite lor_disjoint_add by (change (2 ^ 8) with 256; lia).
  change (2 ^ 8) with 256. lia.
Qed.

Lemma apply_phase2_move_fieldwise_witness :
  apply_phase2_move Example.tables (pack_phase2 0 0 1 0) 0 = Ret 0.
Proof.
  rewrite (apply_phase2_move_fieldwise Example.tables 0 0 1 0 0) by lia.
  reflexivity.
Defined.

Lemma get_phase2_hash_collision_witness :
  get_phase2_hash (set_URtoDF init (<[0%nat := 256]> (URtoDF init))) 0 =
  get_phase2_hash (set_parity init (<[0%nat := 1]> (parity init))) 0.
Proof.
  apply (get_phase2_hash_collision _ _ 0 0 0 0); [lia|reflexivity..].
Defined.

(** *** Writing a phase-2 path *)

Lemma append_step_ok (sr : Search) (i a p : Z) (st : Z * Search) :
  (ax' ← setitem (ax sr) i a; po' ← setitem (po sr) i p;
   Ret (i + 1, set_po (set_ax sr ax') po')) = Ret st ->
  exists ax' po', setitem (ax sr) i a = Ret ax' /\
    setitem (po sr) i p = Ret po' /\ st = (i + 1, set_po (set_ax sr ax') po').
Proof.
  destruct (setitem (ax sr) i a) as [|ax'] eqn:E1; [discriminate|].
  cbn [mbind res_bind].
  destruct (setitem (po sr) i p) as [|po'] eqn:E2; [discriminate|].
  cbn [mbind res_bind]. intros [= <-]. eauto.
Qed.

Lemma append_loop_spec (path : list (Z * Z)) :
  forall (dp : Z) (sr : Search) (j : Z) (sr' : Search),
  0 <= dp ->
  foldM (fun '(i, sr) '(a, p) =>
      ax' ← setitem (ax sr) i a;
      po' ← setitem (po sr) i p;
      Ret (i + 1, set_po (set_ax sr ax') po'))
    path (dp, sr) = Ret (j, sr') ->
  (forall (k : nat) a p, path !! k = Some (a, p) ->
     getitem (ax sr') (dp + Z.of_nat k) = Ret a /\
     getitem (po sr') (dp + Z.of_nat k) = Ret p) /\
  (forall i, 0 <= i < dp ->
     getitem (ax sr') i = getitem (ax sr) i /\
     getitem (po sr') i = getitem (po sr) i) /\
  (forall i, dp + Z.of_nat (length path) <= i ->
     getitem (ax sr') i = getitem (ax sr) i /\
     getitem (po sr') i = getitem (po sr) i) /\
  (path <> [] ->
   dp + Z.of_nat (length path) <= Z.of_nat (length (ax sr)) /\
   dp + Z.of_nat (length path) <= Z.of_nat (length (po sr))).
Proof.
  induction path as [|[a p] path IH]; intros dp sr j sr' Hdp H.
  - cbn in H. injection H as <- <-.
    split; [intros k a p Hk; discriminate|]. now repeat split.
  - cbn [foldM] in H.
    match type of H with mbind _ ?e = _ =>
      destruct e as [|st] eqn:E; [discriminate|] end.
    cbn [mbind res_bind] in H.
    apply append_step_ok in E as (ax' & po' & E1 & E2 & ->).
    apply IH in H as (Hin & Hlo & Hhi & La); [|lia].
    destruct sr. cbn [Search.ax Search.po set_ax set_po] in *.
    pose proof (setitem_nonneg _ _ _ _ Hdp E1) as [-> L1].
    pose proof (setitem_nonneg _ _ _ _ Hdp E2) as [-> L2].
    cbn [length].
    split; [|split; [|split]].
    4:{ intros _. destruct path as [|x path]; [cbn [length]; lia|].
        destruct (La ltac:(discriminate)) as [La' Lp'].
        rewrite length_insert in La', Lp'. cbn [length] in *. lia. }
    + intros [|k] a' p' Hk.
      * injection Hk as <- <-. replace (dp + Z.of_nat 0) with dp by lia.
        destruct (Hlo dp) as [-> ->]; [lia|].
        split; eapply getitem_setitem_same; eassumption.
      * replace (dp + Z.of_nat (S k)) with (dp + 1 + Z.of_nat k) by lia.
        now apply Hin.
    + intros i Hi. destruct (Hlo i) as [-> ->]; [lia|].
      split; eapply getitem_setitem_other; try eassumption; lia.
    + intros i Hi. destruct (Hhi i) as [-> ->]; [lia|].
      split; eapply getitem_setitem_other; try eassumption; lia.
Qed.

(** When [append_phase2_moves] returns, from a start index that is not
    negative, the path fits in the arrays, its moves are read back from
    [ax] and [po] at the indices from [depthPhase1] on, and the entries
    before and after them are as they were. *)
Theorem append_phase2_moves_read_back (sr sr' : Search) (dp : Z)
    (path : list (Z * Z)) :
  0 <= dp -> append_phase2_moves sr dp path = Ret sr' ->
  (path <> [] -> dp + Z.of_nat (length path) <= Z.of_nat (length (ax sr))) /\
  (forall (k : nat) a p, path !! k = Some (a, p) ->
     getitem (ax sr') (dp + Z.of_nat k) = Ret a /\
     getitem (po sr') (dp + Z.of_nat k) = Ret p) /\
  (forall i, 0 <= i < dp \/ dp + Z.of_nat (length path) <= i ->
     getitem (ax sr') i = getitem (ax sr) i /\
     getitem (po sr') i = getitem (po sr) i).
Proof.
  intros Hdp H. unfold append_phase2_moves in H.
  match type of H with mbind _ ?e = _ =>
    destruct e as [|[j s]] eqn:E; [discriminate|] end.
  cbn [mbind res_bind] in H. injection H as ->.
  apply append_loop_spec in E as (Hin & Hlo & Hhi & La); [|assumption].
  split; [intros Hne; now apply La|]. split; [assumption|].
  intros i [Hi|Hi]; auto.
Qed.

Lemma append_phase2_moves_read_back_witness :
  exists sr', append_phase2_moves init 29 [(3, 1); (0, 2)] = Ret sr' /\
    getitem (ax sr') 30 = Ret 0 /\ getitem (po sr') 30 = Ret 2.
Proof.
  eexists. split; [reflexivity|].
  refine (proj1 (proj2 (append_phase2_moves_read_back init _ 29
                          [(3, 1); (0, 2)] _ eq_refl)) 1%nat 0 2 eq_refl).
  lia.
Defined.

(** A path that is not empty and does not fit in the arrays raises
    [IndexError]. *)
Theorem append_phase2_moves_overflow (sr : Search) (dp : Z)
    (path : list (Z * Z)) :
  0 <= dp -> path <> [] ->
  Z.of_nat (length (ax sr)) < dp + Z.of_nat (length path) ->
  append_phase2_moves sr dp path = Raise IndexError.
Proof.
  intros Hdp Hne Hlen.
  destruct (append_phase2_moves sr dp path) as [e|sr'] eqn:E.
  - f_equal. unfold append_phase2_moves in E.
    match type of E with mbind _ ?m = _ =>
      destruct m as [e'|[j s]] eqn:E'; [|discriminate] end.
    cbn [mbind res_bind] in E. injection E as <-.
    eapply foldM_raises; [|exact E'].
    intros [i s] [a p] e0 H.
    destruct (setitem (ax s) i a) eqn:E1.
    + cbn [mbind res_bind] in H. injection H as <-.
      eapply setitem_raises; eassumption.
    + cbn [mbind res_bind] in H. destruct (setitem (po s) i p) eqn:E2.
      * cbn [mbind res_bind] in H. injection H as <-.
        eapply setitem_raises; eassumption.
      * discriminate.
  - unfold append_phase2_moves in E.
    match type of E with mbind _ ?m = _ =>
      destruct m as [|[j s]] eqn:E'; [discriminate|] end.
    apply append_loop_spec in E' as (_ & _ & _ & La); [|assumption].
    destruct (La Hne). lia.
Qed.

Lemma append_phase2_moves_overflow_witness :
  append_phase2_moves init 30 [(3, 1); (0, 2)] = Raise IndexError.
Proof.
  apply (append_phase2_moves_overflow init 30 [(3, 1); (0, 2)]);
    [lia|discriminate|vm_compute; reflexivity].
Defined.

(** *** Delta coding of move tables *)

Lemma decompress_move_table_snoc (c : list (Z * list Z)) (base : Z) (deltas : list Z) :
  decompress_move_table (c ++ [(base, deltas)]) =
  decompress_move_table c ++ [map (fun d => base + d) deltas].
Proof. unfold decompress_move_table. now rewrite fold_left_app. Qed.

Lemma compress_loop (table : list (list Z)) :
  Forall (fun row => row <> []) table ->
  forall acc, exists c,
    foldM (fun compressed row =>
        base ← getitem row 0;
        Ret (compressed ++ [(base, map (fun v => v - base) row)]))
      table acc = Ret (acc ++ c) /\
    length c = length table /\
    decompress_move_table (acc ++ c) = decompress_move_table acc ++ table.
Proof.
  induction 1 as [|row table Hrow _ IH]; intros acc.
  - exists []. rewrite !app_nil_r. now repeat split.
  - destruct row as [|base row]; [congruence|].
    cbn [foldM]. change (getitem (base :: row) 0) with (Ret (A := Z) base).
    cbn [mbind res_bind].
    destruct (IH (acc ++ [(base, map (fun v => v - base) (base :: row))]))
      as (c & E & L & D).
    exists ((base, map (fun v => v - base) (base :: row)) :: c).
    rewrite <- app_assoc in E, D. cbn [app] in E, D.
    split; [exact E|]. split; [cbn [length]; now rewrite L|].
    rewrite D, decompress_move_table_snoc, <- app_assoc. cbn [app]. do 2 f_equal.
    rewrite map_map. rewrite <- (map_id (base :: row)) at 2.
    apply map_ext. intros v. lia.
Qed.

(** Delta coding loses nothing: a table with no empty row is compressed to
    one pair per row, and decompressing the pairs gives the table back. A
    table with an empty row cannot be compressed: reading its first entry
    raises [IndexError]. *)
Theorem decompress_compress_move_table (table : list (list Z)) :
  (Forall (fun row => row <> []) table ->
   exists c, compress_move_table table = Ret c /\
     length c = length table /\ decompress_move_table c = table) /\
  (Exists (fun row => row = []) table ->
   compress_move_table table = Raise IndexError).
Proof.
  split.
  - intros H. destruct (compress_loop table H []) as (c & E & L & D).
    exists c. now repeat split.
  - unfold compress_move_table.
    assert (forall acc, Exists (fun row : list Z => row = []) table ->
              foldM (fun compressed row =>
                  base ← getitem row 0;
                  Ret (compressed ++ [(base, map (fun v => v - base) row)]))
                table acc = Raise IndexError) as Hacc; [|apply Hacc].
    induction table as [|row table IH]; intros acc H.
    + now apply Exists_nil in H.
    + cbn [foldM]. destruct row as [|base row]; [reflexivity|].
      change (getitem (base :: row) 0) with (Ret (A := Z) base).
      cbn [mbind res_bind]. apply IH.
      apply Exists_cons in H as [H|H]; [discriminate|assumption].
Qed.

Lemma decompress_compress_move_table_witness :
  (exists c, compress_move_table [[5; 7; 2]; [0; 0; 9]] = Ret c /\
     length c = 2%nat /\ decompress_move_table c = [[5; 7; 2]; [0; 0; 9]]) /\
  compress_move_table [[5; 7; 2]; []] = Raise IndexError.
Proof.
  split.
  - apply (proj1 (decompress_compress_move_table [[5; 7; 2]; [0; 0; 9]])).
    repeat constructor; discriminate.
  - apply (proj2 (decompress_compress_move_table [[5; 7; 2]; []])).
    apply Exists_cons_tl, Exists_cons_hd. reflexivity.
Defined.

(** *** The bidirectional phase 2 *)

Lemma forC_fuel {R A S} (f : S -> A -> ctl R S) :
  (forall s x, f s x <> OutOfFuel) ->
  forall l s, forC f l s <> OutOfFuel.
Proof.
  intros Hf. induction l as [|x l IH]; intros s; [discriminate|].
  cbn [forC]. destruct (f s x) as [| | s'|] eqn:E; cbn [mbind ctl_bind];
    try discriminate; [apply IH|]. now apply Hf in E.
Qed.

Lemma lift_fuel {R A} (m : res A) : @lift R A m <> OutOfFuel.
Proof. now destruct m. Qed.

Lemma expand_forward_fuel (T : Tables) (dp : Z) (sr : Search)
    (forward backward : pdict) (f_visited : gset Z) :
  expand_forward T dp sr forward backward f_visited <> OutOfFuel.
Proof.
  unfold expand_forward.
  match goal with |- mbind _ ?m <> _ =>
    assert (m <> OutOfFuel) as H; [|destruct m as [| |[? ?]|]; now cbn] end.
  apply forC_fuel. intros acc [state [d path]].
  apply forC_fuel. intros acc' mv.
  apply forC_fuel. intros [fv nf] p.
  destruct (is_move_redundant _ _ _); [discriminate|].
  destruct (apply_phase2_move T state (mv + p - 1)) as [|ns];
    cbn [lift mbind ctl_bind]; [discriminate|].
  destruct (decide (ns ∈ fv)); [discriminate|].
  destruct (dict_get backward ns) as [[b_d b_path]|]; [|discriminate].
  destruct (append_phase2_moves _ _ _); discriminate.
Qed.

(** With room for a phase-2 move, [bidirectional_totalDepth] ends in its
    first round: it returns [depthPhase1 + 1] and leaves the object as it
    was, writing no move, or it raises. *)
Theorem bidirectional_totalDepth_with_budget (T : Tables) (fuel : nat)
    (sr : Search) (dp maxDepth : Z) :
  dp < maxDepth ->
  bidirectional_totalDepth T (S fuel) sr dp maxDepth = Return (dp + 1, sr) \/
  exists e, bidirectional_totalDepth T (S fuel) sr dp maxDepth = Exn e.
Proof.
  intros Hb. unfold bidirectional_totalDepth.
  set (mdp2 := Z.min 10 (maxDepth - dp)).
  destruct (get_phase2_hash sr dp) as [e|h]; cbn [lift mbind ctl_bind];
    [right; now exists e|].
  cbn [bidirectional_loop nonempty min_depth fold_left andb negb].
  destruct (0 <? mdp2) eqn:C; [|apply Z.ltb_ge in C; lia].
  pose proof (expand_forward_first T dp sr h {[h]}) as Hfw.
  pose proof (expand_forward_fuel T dp sr [(h, (0, []))] [(0, (0, []))] {[h]})
    as Hfuel.
  destruct (expand_forward T dp sr [(h, (0, []))] [(0, (0, []))] {[h]})
    as [e|[s sr']|[forward f_visited]|]; cbn [mbind ctl_bind].
  - right. now exists e.
  - destruct Hfw as [-> ->]. now left.
  - right. exists AttributeError.
    rewrite expand_backward_raises. reflexivity.
  - congruence.
Qed.

Definition odd_parity : Search :=
  set_parity init (<[0%nat := 1]> (parity init)).

Lemma bidirectional_totalDepth_with_budget_witness :
  bidirectional_totalDepth Example.tables 1 odd_parity 0 5
    = Return (0 + 1, odd_parity) \/
  exists e, bidirectional_totalDepth Example.tables 1 odd_parity 0 5 = Exn e.
Proof.
  apply (bidirectional_totalDepth_with_budget Example.tables 0 odd_parity 0 5).
  lia.
Defined.

(** Without room for a phase-2 move neither frontier is expanded and
    neither is empty, so the [while True] loop never ends: whatever the
    number of rounds allowed, the call has not returned. *)
Theorem bidirectional_totalDepth_without_budget (T : Tables) (sr : Search)
    (dp maxDepth h : Z) :
  maxDepth <= dp -> get_phase2_hash sr dp = Ret h ->
  forall fuel, bidirectional_totalDepth T fuel sr dp maxDepth = OutOfFuel.
Proof.
  intros Hb Hh fuel. unfold bidirectional_totalDepth. rewrite Hh.
  cbn [lift mbind ctl_bind]. apply bidirectional_loop_stuck. lia.
Qed.

Lemma bidirectional_totalDepth_without_budget_witness :
  bidirectional_totalDepth Example.tables 1000 init 3 3 = OutOfFuel.
Proof.
  refine (bidirectional_totalDepth_without_budget Example.tables init 3 3 0
            _ _ 1000%nat); [lia|reflexivity].
Defined.

(** *** The solution string *)

(** A move whose power entry is 0, as in a fresh object, has no suffix:
    [po_to_s[0]] is [None], and adding it to the string raises
    [TypeError]. *)
Theorem solutionToString_power_0 (sr : Search) (len : Z) (d : option Z)
    (i a : Z) (face : string) :
  0 <= i < len ->
  (forall j, 0 <= j < i -> exists b p face t,
     getitem (ax sr) j = Ret b /\ getitem ax_to_s b = Ret face /\
     getitem (po sr) j = Ret p /\ getitem po_to_s p = Ret (Some t)) ->
  getitem (ax sr) i = Ret a -> getitem ax_to_s a = Ret face ->
  getitem (po sr) i = Ret 0 ->
  solutionToString sr len d = Raise TypeError.
Proof.
  intros Hi Hbefore Ea Ef Ep. unfold solutionToString.
  assert (i ∈ range len) as Hin by now apply elem_of_range.
  assert (exists l1 l2, range len = l1 ++ i :: l2 /\
            forall j, j ∈ l1 -> 0 <= j < i) as (l1 & l2 & -> & Hl1).
  { unfold range. exists (map Z.of_nat (seq 0 (Z.to_nat i))),
      (map Z.of_nat (seq (S (Z.to_nat i)) (Z.to_nat len - S (Z.to_nat i)))).
    split.
    - replace (Z.to_nat len)
        with (Z.to_nat i + S (Z.to_nat len - S (Z.to_nat i)))%nat at 1 by lia.
      rewrite seq_app, map_app. cbn [seq map Nat.add]. do 2 f_equal. lia.
    - intros j Hj. apply list_elem_of_fmap in Hj as (k & -> & Hk).
      apply elem_of_seq in Hk. lia. }
  clear Hin.
  match goal with |- foldM ?f ?l _ = _ =>
    assert (forall s, foldM f l s = Raise TypeError) as Hs; [|apply Hs] end.
  induction l1 as [|j l1 IH]; intros s.
  - cbn [app foldM]. rewrite Ea. cbn [mbind res_bind]. rewrite Ef.
    cbn [mbind res_bind]. rewrite Ep. reflexivity.
  - cbn [app foldM].
    destruct (Hbefore j) as (b & p & f & t & E1 & E2 & E3 & E4).
    { apply Hl1. left. }
    rewrite E1. cbn [mbind res_bind]. rewrite E2. cbn [mbind res_bind].
    rewrite E3. cbn [mbind res_bind]. rewrite E4. cbn [mbind res_bind].
    apply IH. intros k Hk. apply Hl1. now right.
Qed.

Lemma solutionToString_power_0_witness :
  solutionToString init 1 None = Raise TypeError.
Proof.
  apply (solutionToString_power_0 init 1 None 0 0 "U");
    [lia|intros j Hj; lia|reflexivity..].
Defined.

End SearchPieces.

(** ** [bit_tables.py]: the lookup tables *)
Module BitTablesFacts.
Import Py PyFacts BitcubeFacts BitTables.

(** *** The binomial and factorial tables *)

Definition loaded_cnk : cnk_table :=
  Eval vm_compute in
    match _precompute_cnk 12 ∅ with Ret t => t | Raise _ => ∅ end.

Lemma loaded_cnk_eq : _precompute_cnk 12 ∅ = Ret loaded_cnk.
Proof. vm_compute. reflexivity. Qed.

Lemma loaded_cnk_inside :
  forallb (fun n => forallb (fun k =>
      fast_cnk loaded_cnk n k * factZ (Z.to_nat k) * factZ (Z.to_nat (n - k))
      =? factZ (Z.to_nat n)) (range (n + 1))) (range 13) = true.
Proof. vm_compute. reflexivity. Qed.

Lemma loaded_cnk_rows (n : Z) (row : gmap Z Z) :
  loaded_cnk !! n = Some row -> 0 <= n <= 12.
Proof.
  intros H. apply elem_of_map_to_list in H.
  apply (list_elem_of_fmap_2 fst) in H. cbn [fst] in H.
  vm_compute in H.
  repeat (apply elem_of_cons in H as [->|H]); try lia.
  now apply elem_of_nil in H.
Qed.

(** The table that [_precompute_cnk(12)] builds on module load holds the
    binomial coefficients: for [0 <= k <= n /\ n <= 12], [fast_cnk(n, k)] times
    [k!] times [(n - k)!] is [n!]; everywhere else [fast_cnk] is 0. *)
Theorem fast_cnk_binomial :
  exists table, _precompute_cnk 12 ∅ = Ret table /\
    forall n k,
      (0 <= k <= n /\ n <= 12 ->
       fast_cnk table n k * factZ (Z.to_nat k) * factZ (Z.to_nat (n - k))
       = factZ (Z.to_nat n)) /\
      (~ (0 <= k <= n /\ n <= 12) -> fast_cnk table n k = 0).
Proof.
  exists loaded_cnk. split; [exact loaded_cnk_eq|]. intros n k. split.
  - intros H. pose proof loaded_cnk_inside as Hall.
    rewrite forallb_forall in Hall.
    assert (n ∈ range 13) as Hn by (apply elem_of_range; lia).
    apply list_elem_of_In, Hall in Hn. rewrite forallb_forall in Hn.
    assert (k ∈ range (n + 1)) as Hk by (apply elem_of_range; lia).
    apply list_elem_of_In, Hn in Hk. now apply Z.eqb_eq in Hk.
  - intros H. unfold fast_cnk.
    destruct ((k >? n) || (k <? 0)) eqn:G; [reflexivity|].
    apply orb_false_iff in G as [G1 G2].
    destruct (loaded_cnk !! n) as [row|] eqn:E.
    + apply loaded_cnk_rows in E. lia.
    + reflexivity.
Qed.

(** [fast_factorial] is the factorial from 0 to 12 and [None] from 13 on; a
    negative argument down to -13 is an index from the end of the table, and
    below that the lookup raises [IndexError]. *)
Theorem fast_factorial_cases (n : Z) :
  (0 <= n <= 12 -> fast_factorial n = Ret (Some (factZ (Z.to_nat n)))) /\
  (13 <= n -> fast_factorial n = Ret None) /\
  (-13 <= n < 0 -> fast_factorial n = Ret (Some (factZ (Z.to_nat (n + 13))))) /\
  (n < -13 -> fast_factorial n = Raise IndexError).
Proof.
  repeat split; intros H.
  - assert (n ∈ range 13) as Hn by (apply elem_of_range; lia).
    vm_compute in Hn.
    repeat (apply elem_of_cons in Hn as [->|Hn]); try reflexivity.
    now apply elem_of_nil in Hn.
  - unfold fast_factorial.
    destruct (n <? Z.of_nat (length _FACTORIAL)) eqn:G; [|reflexivity].
    apply Z.ltb_lt in G. cbn in G. lia.
  - assert (n + 13 ∈ range 13) as Hn by (apply elem_of_range; lia).
    remember (n + 13) as m eqn:Em. assert (n = m - 13) as -> by lia.
    clear Em H. vm_compute in Hn.
    repeat (apply elem_of_cons in Hn as [->|Hn]); try reflexivity.
    now apply elem_of_nil in Hn.
  - unfold fast_factorial.
    destruct (n <? Z.of_nat (length _FACTORIAL)) eqn:G;
      [|apply Z.ltb_ge in G; cbn in G; lia].
    unfold getitem, norm_index. cbn [length _FACTORIAL].
    destruct ((0 <=? n) && (n <? Z.of_nat 13)) eqn:G1;
      [apply andb_true_iff in G1; lia|].
    destruct ((- Z.of_nat 13 <=? n) && (n <? 0)) eqn:G2;
      [apply andb_true_iff in G2 as [G2 _]; apply Z.leb_le in G2; cbn in G2; lia|].
    reflexivity.
Qed.

End BitTablesFacts.

(** ** [__init__.py]: what [solve] reports *)
Module SolveFacts.
Import Py Coordcube Search PyFacts SearchFacts Solve.

(** *** The entry point *)

Definition face_letter (c : ascii) : Prop :=
  In c ["U"; "R"; "F"; "D"; "L"; "B"]%char.

Definition starts_with_face (s : string) : Prop :=
  exists c rest, s = String c rest /\ face_letter c.

Lemma strip_face (s : string) : starts_with_face s -> starts_with_face (strip s).
Proof.
  intros (c & rest & -> & Hc). unfold strip.
  assert (is_space c = false) as Hs.
  { destruct Hc as [<-|[<-|[<-|[<-|[<-|[<-|[]]]]]]]; reflexivity. }
  cbn [lstrip]. rewrite Hs. cbn [rstrip]. rewrite Hs.
  destruct (rstrip rest); eexists _, _; split; (reflexivity || assumption).
Qed.

Lemma face_not_error (s : string) :
  starts_with_face s -> String.prefix "Error" s = false.
Proof.
  intros (c & rest & -> & Hc).
  destruct Hc as [<-|[<-|[<-|[<-|[<-|[<-|[]]]]]]]; reflexivity.
Qed.

Lemma solutionToString_face (sr : Search) (len : Z) (d : option Z) (str : string) :
  solutionToString sr len d = Ret str ->
  str = ""%string \/ starts_with_face str.
Proof.
  unfold solutionToString.
  match goal with |- foldM ?f ?l _ = _ -> _ =>
    assert (forall l0 s r, (s = ""%string \/ starts_with_face s) ->
              foldM f l0 s = Ret r -> r = ""%string \/ starts_with_face r) as Hl
  end.
  { induction l0 as [|i l0 IH]; intros s r Hs H.
    - cbn in H. now injection H as <-.
    - cbn [foldM] in H.
      rbind_in H. do 4 rbind_in E. destruct a3 as [t|]; [|discriminate].
      cbn [mbind res_bind] in E. injection E as <-. revert H. apply IH. right.
      assert (starts_with_face (s +:+ a1 +:+ t)) as Hf.
      { destruct Hs as [->|(c & rest & -> & Hc)].
        - match goal with Hg : getitem ax_to_s _ = Ret a1 |- _ =>
            apply getitem_elem_of in Hg; unfold ax_to_s in Hg;
            repeat (apply elem_of_cons in Hg as [->|Hg]);
            try (eexists _, _; split; [reflexivity|]; cbn; tauto);
            now apply elem_of_nil in Hg
          end.
        - eexists _, _. split; [reflexivity|assumption]. }
      destruct Hf as (c & rest & -> & Hc).
      destruct d as [d|]; [destruct (i =? d - 1)|];
        eexists _, _; (split; [reflexivity|assumption]). }
  intros H. eapply Hl; [|exact H]. now left.
Qed.

Lemma solution_after_verify (T : Tables) (elapsed : nat -> Z) (fe : Frontend)
    (fuel : nat) (self : Search) (facelets : string) (maxDepth timeOut : Z)
    (useSeparator : bool) (str : string) :
  check_input facelets = true -> fe_verify fe facelets = Ret 0 ->
  solution T elapsed fe fuel self facelets maxDepth timeOut useSeparator
    = Return str ->
  search_error str \/ starts_with_face str.
Proof.
  intros Hc Hv H. unfold solution in H.
  destruct (solution_search T elapsed fe fuel self facelets maxDepth timeOut)
    as [|[msg|sr s d]|[]|] eqn:Es; try discriminate.
  - injection H as ->. left.
    unfold solution_search in Es. rewrite Hc, Hv in Es.
    cbn [negb lift mbind ctl_bind Z.eqb] in Es.
    do 12 bind_in Es.
    match type of Es with solve_loop _ _ _ _ _ ?st = _ =>
      pose proof (solve_loop_spec T elapsed maxDepth timeOut fuel st) as Hl
    end.
    rewrite Es in Hl. apply Hl; proj; try lia.
    intros k a' b' Hk. lia.
  - destruct (solutionToString sr s (if useSeparator then Some d else None))
      as [|str'] eqn:Estr; [discriminate|].
    injection H as ->. right.
    destruct (solutionToString_face _ _ _ _ Estr) as [->|Hf]; [|assumption].
    exfalso.
    pose proof (solution_search_spec T elapsed maxDepth timeOut fe fuel self
                  facelets) as Hs.
    rewrite Es in Hs. destruct Hs as (K1 & K2 & _).
    apply solutionToString_count in Estr. cbn in Estr. lia.
Qed.

(** A string that [solve] returns comes after [verify] found the cube
    valid, and it starts with a face letter: it is not empty and not an
    error message. *)
Theorem solve_returns_moves (T : Tables) (elapsed : nat -> Z) (fe : Frontend)
    (fuel : nat) (facelets : string) (max_depth timeOut : Z) (moves : string) :
  solve T elapsed fe fuel facelets max_depth timeOut = Solved moves ->
  verify fe facelets = Ret 0 /\ starts_with_face moves.
Proof.
  unfold solve. intros H.
  destruct (verify fe facelets) as [|err] eqn:Ev; [discriminate|].
  destruct (err =? 0) eqn:Ez; cbn [negb] in H; [|discriminate].
  apply Z.eqb_eq in Ez. subst err. split; [reflexivity|].
  destruct (solution T elapsed fe fuel init facelets max_depth timeOut false)
    as [|result|[]|] eqn:Es; try discriminate.
  cbv zeta in H.
  destruct (String.prefix "Error" (strip result)) eqn:Ep; [discriminate|].
  injection H as <-.
  unfold verify in Ev.
  destruct (check_input facelets) eqn:Ec; cbn [negb] in Ev; [|discriminate].
  destruct (solution_after_verify _ _ _ _ _ _ _ _ _ _ Ec Ev Es) as [[->| ->]|Hf];
    [discriminate..|].
  now apply strip_face.
Qed.

(** The [ValueError]s of [solve]: the code of [verify] when it is not 0;
    after that, of the error strings of [solution], only "Error 7" (no
    solution within the depth) and "Error 8" (time out) are left, the
    input errors 1 to 6 having been caught by [verify]. *)
Theorem solve_value_errors (T : Tables) (elapsed : nat -> Z) (fe : Frontend)
    (fuel : nat) (facelets : string) (max_depth timeOut : Z) (msg : string) :
  solve T elapsed fe fuel facelets max_depth timeOut = ValueError msg ->
  (exists err, verify fe facelets = Ret err /\ err <> 0 /\
     msg = ("Cube definition invalid, verify() error code " ++ pretty err)%string) \/
  (verify fe facelets = Ret 0 /\
     (msg = "Error 7"%string \/ msg = "Error 8"%string)).
Proof.
  unfold solve. intros H.
  destruct (verify fe facelets) as [|err] eqn:Ev; [discriminate|].
  destruct (err =? 0) eqn:Ez; cbn [negb] in H.
  - apply Z.eqb_eq in Ez. subst err. right. split; [reflexivity|].
    destruct (solution T elapsed fe fuel init facelets max_depth timeOut false)
      as [|result|[]|] eqn:Es; try discriminate.
    cbv zeta in H.
    destruct (String.prefix "Error" (strip result)) eqn:Ep; [|discriminate].
    injection H as <-.
    unfold verify in Ev.
    destruct (check_input facelets) eqn:Ec; cbn [negb] in Ev; [|discriminate].
    destruct (solution_after_verify _ _ _ _ _ _ _ _ _ _ Ec Ev Es)
      as [[->| ->]|Hf]; [now left|now right|].
    apply strip_face, face_not_error in Hf. congruence.
  - injection H as <-. left. exists err. apply Z.eqb_neq in Ez. now repeat split.
Qed.

Lemma solve_returns_moves_witness :
  verify Example.frontend Example.solved_facelets = Ret 0 /\
  starts_with_face "R U".
Proof.
  apply (solve_returns_moves Example.tables (fun _ => 0) Example.frontend 60
           Example.solved_facelets 24 1000 "R U").
  vm_compute. reflexivity.
Defined.

Lemma solve_value_errors_witness :
  (exists err, verify Example.frontend_UD Example.solved_facelets = Ret err /\
     err <> 0 /\
     "Error 7"%string =
     ("Cube definition invalid, verify() error code " ++ pretty err)%string) \/
  (verify Example.frontend_UD Example.solved_facelets = Ret 0 /\
     ("Error 7" = "Error 7" \/ "Error 7" = "Error 8")%string).
Proof.
  apply (solve_value_errors Example.tables_UD (fun _ => 0) Example.frontend_UD
           200 Example.solved_facelets 1 1000 "Error 7").
  vm_compute. reflexivity.
Defined.

End SolveFacts.

(** ** [bitcube.py]: the native multiplication *)
Module BitcubeMultiply.
Import Py Bitcube PyFacts BitcubeFacts SearchFacts BitcubeRoundTrips.
Import CoordcubeTables SearchPieces.

(** *** The native multiplication stays in range *)

(** The two permutation codes of a packed cube are ranks: below [8!] and
    below [12!]. *)
Definition packed_ok (b : BitPackedCubieCube) : Prop :=
  0 <= pc b < 40320 /\ 0 <= pe b < 479001600.

Lemma int_to_perm_perm (n : nat) (code : Z) :
  (n <= 13)%nat -> 0 <= code < factZ n ->
  exists r, int_to_perm code (Z.of_nat n) = Ret r /\ r ≡ₚ range (Z.of_nat n).
Proof.
  intros Hn Hc.
  destruct (all_unused n) as [Hall Hrem].
  destruct (decode_steps n Hn n (replicate n false) [] code)
    as (q & c & e & Hdec & Hlq & Hnd & Hq & Henc).
  { apply length_replicate. }
  { rewrite Hall. unfold zseq. now rewrite length_map, length_seq. }
  { assumption. }
  exists (rev q). split.
  - rewrite int_to_perm_unfold, range_zseq. rewrite Hall in Hdec.
    rewrite Hdec. reflexivity.
  - rewrite <- Permutation_rev. apply NoDup_Permutation; [assumption| |].
    + rewrite range_zseq. apply (NoDup_fmap_2 Z.of_nat), NoDup_seq.
    + intros y. rewrite (Hq y), range_zseq. symmetry. apply Hrem.
Qed.

Lemma perm_length (l : list Z) (n : nat) :
  l ≡ₚ range (Z.of_nat n) -> length l = n.
Proof.
  intros H. apply Permutation_length in H. rewrite H. unfold range.
  rewrite length_map, length_seq. lia.
Qed.

Lemma perm_entry (l : list Z) (n : nat) (i : Z) :
  l ≡ₚ range (Z.of_nat n) -> 0 <= i < Z.of_nat n ->
  exists x, getitem l i = Ret x /\ 0 <= x < Z.of_nat n.
Proof.
  intros H Hi. pose proof (perm_length l n H) as Hl.
  destruct (lookup_lt_is_Some_2 l (Z.to_nat i)) as [x Hx]; [lia|].
  exists x. split; [now apply getitem_lookup|].
  apply elem_of_range. rewrite <- H. eapply list_elem_of_lookup_2; eassumption.
Qed.

Lemma collect_loop (d p : list Z) (l xs : list Z) :
  Forall2 (fun i x => exists j, getitem d i = Ret j /\ getitem p j = Ret x) l xs ->
  forall acc,
    foldM (fun acc i => j ← getitem d i; x ← getitem p j; Ret (acc ++ [x]))
          l acc = Ret (acc ++ xs).
Proof.
  induction 1 as [|i x l xs (j & Hj & Hx) _ IH]; intros acc.
  - now rewrite app_nil_r.
  - cbn [foldM]. rewrite Hj. cbn [mbind res_bind]. rewrite Hx.
    cbn [mbind res_bind]. rewrite IH, <- app_assoc. reflexivity.
Qed.

Lemma map_lookup_range (l : list Z) :
  map (fun j => default 0 (l !! Z.to_nat j)) (range (Z.of_nat (length l))) = l.
Proof.
  apply list_eq. intros k. unfold range. rewrite Nat2Z.id.
  rewrite !list_lookup_fmap.
  destruct (l !! k) as [x|] eqn:E.
  - rewrite lookup_seq_lt by (apply lookup_lt_Some in E; lia).
    cbn. rewrite Nat2Z.id, E. reflexivity.
  - rewrite lookup_seq_ge by (apply lookup_ge_None in E; lia). reflexivity.
Qed.

(** [[p[d[i]] for i in range(n)]] of two permutations is a permutation. *)
Lemma compose_perm (p d : list Z) (n : nat) :
  p ≡ₚ range (Z.of_nat n) -> d ≡ₚ range (Z.of_nat n) ->
  exists l,
    foldM (fun acc i => j ← getitem d i; x ← getitem p j; Ret (acc ++ [x]))
          (range (Z.of_nat n)) [] = Ret l /\
    l ≡ₚ range (Z.of_nat n).
Proof.
  intros Hp Hd.
  pose proof (perm_length p n Hp) as Lp. pose proof (perm_length d n Hd) as Ld.
  set (f := fun j => default 0 (p !! Z.to_nat j)).
  exists (map f d). split.
  - apply (collect_loop d p (range (Z.of_nat n)) (map f d) ).
    apply Forall2_same_length_lookup_2.
    { rewrite length_map, Ld. unfold range. rewrite length_map, length_seq. lia. }
    intros k i x Hi Hx. unfold range in Hi. rewrite list_lookup_fmap in Hi.
    destruct (seq 0 (Z.to_nat (Z.of_nat n)) !! k) as [k'|] eqn:Ek; [|discriminate].
    apply lookup_seq in Ek as [-> Hk]. cbn in Hi. injection Hi as <-.
    rewrite list_lookup_fmap in Hx.
    destruct (d !! k) as [j|] eqn:Ej; [|discriminate]. cbn in Hx.
    injection Hx as <-. exists j. split.
    { apply getitem_lookup; [lia|]. now rewrite Nat2Z.id. }
    assert (0 <= j < Z.of_nat n) as Hj.
    { apply elem_of_range. rewrite <- Hd. eapply list_elem_of_lookup_2; eassumption. }
    destruct (lookup_lt_is_Some_2 p (Z.to_nat j)) as [x Hx]; [lia|].
    subst f. cbn beta. rewrite Hx. apply getitem_lookup; [lia|assumption].
  - rewrite Hd. subst f. rewrite <- Lp, map_lookup_range. rewrite Lp. exact Hp.
Qed.

Lemma decode_ok (b : BitPackedCubieCube) :
  exists co eo, _decode_orientations b = Ret (co, eo) /\
    twists_ok co /\ flips_ok eo.
Proof.
  rewrite decode_orientations_eq. eexists _, _. split; [reflexivity|].
  unfold twists_ok, flips_ok, twists_of, flips_of.
  cbn [digits3 rev app fold_right].
  generalize (Z.shiftr (orie b) 12) as c. intros c.
  split; [split; [reflexivity|split]|split; [reflexivity|]].
  - assert (forall x, 0 <= x `mod` 3 <= 2) as H3
      by (intros x; pose proof (Z.mod_pos_bound x 3); lia).
    repeat (apply List.Forall_cons; [apply H3|]). apply List.Forall_nil.
  - Z.div_mod_to_equations. lia.
  - apply Forall_rev, Forall_map, Forall_forall. intros i _. apply land_1_bit.
Qed.

(** The loop that fills [new_co], then [new_co[7]]. *)
Lemma twist_loop (d_co co d_perm : list Z) :
  length d_co = 8%nat -> length co = 8%nat -> d_perm ≡ₚ range 8 ->
  exists new_co,
    (l ← foldM (fun new_co i =>
         d ← getitem d_co i; j ← getitem d_perm i; c ← getitem co j;
         setitem new_co i ((d + c) `mod` 3)) (range 8) (repeat_list 0 8);
     setitem l 7 ((- fold_right Z.add 0 (take 7 l)) `mod` 3)) = Ret new_co /\
    twists_ok new_co.
Proof.
  intros Ld Lc Hd.
  destruct (foldM_prefix
    (fun (_ : list Z) (l : list Z) =>
       length l = 8%nat /\ Forall (fun x => 0 <= x <= 2) l)
    (fun new_co i =>
       d ← getitem d_co i; j ← getitem d_perm i; c ← getitem co j;
       setitem new_co i ((d + c) `mod` 3)) (range 8)) with (s := repeat_list 0 8)
    as (l & E & Ll & Hl).
  - intros pre i post l Hsplit [Ll Hl].
    assert (0 <= i < 8) as Hi.
    { apply elem_of_range. rewrite Hsplit. apply elem_of_app. right. left. }
    destruct (lookup_lt_is_Some_2 d_co (Z.to_nat i)) as [d Ed]; [lia|].
    destruct (perm_entry d_perm 8 i Hd Hi) as (j & Ej & Hj).
    destruct (lookup_lt_is_Some_2 co (Z.to_nat j)) as [c Ec]; [lia|].
    rewrite (getitem_lookup d_co i d) by (lia || assumption).
    cbn [mbind res_bind]. rewrite Ej. cbn [mbind res_bind].
    rewrite (getitem_lookup co j c) by (lia || assumption).
    cbn [mbind res_bind]. rewrite setitem_lookup by lia.
    eexists. split; [reflexivity|]. split; [now rewrite length_insert|].
    apply Forall_insert; [assumption|].
    pose proof (Z.mod_pos_bound (d + c) 3). lia.
  - split; [reflexivity|]. unfold repeat_list.
    apply Forall_replicate. lia.
  - rewrite E. cbn [mbind res_bind]. rewrite setitem_lookup by lia.
    eexists. split; [reflexivity|].
    destruct l as [|x0 [|x1 [|x2 [|x3 [|x4 [|x5 [|x6 [|x7 [|]]]]]]]]];
      try discriminate Ll.
    cbn [take fold_right Z.to_nat Pos.to_nat Pos.iter_op Init.Nat.add].
    change (Z.to_nat 7) with 7%nat. cbn [take fold_right insert list_insert].
    repeat match goal with
           | H : Forall _ (_ :: _) |- _ => apply Forall_cons in H as [? H]
           end.
    split; [reflexivity|]. split.
    + repeat (apply List.Forall_cons; [lia|]).
      apply List.Forall_cons; [|apply List.Forall_nil].
      match goal with |- 0 <= ?x `mod` 3 <= 2 =>
        pose proof (Z.mod_pos_bound x 3); lia end.
    + cbn [fold_right]. Z.div_mod_to_equations. lia.
Qed.

Lemma lxor_bit (d e : Z) : 0 <= d <= 1 -> 0 <= e <= 1 -> 0 <= Z.lxor d e <= 1.
Proof.
  intros Hd He. assert (d = 0 \/ d = 1) as [->| ->] by lia;
    assert (e = 0 \/ e = 1) as [->| ->] by lia; vm_compute; split; discriminate.
Qed.

(** The loop that fills [new_eo]. *)
Lemma flip_loop (d_eo eo d_perm : list Z) :
  flips_ok d_eo -> flips_ok eo -> d_perm ≡ₚ range 12 ->
  exists new_eo,
    foldM (fun new_eo i =>
        d ← getitem d_eo i; j ← getitem d_perm i; e ← getitem eo j;
        setitem new_eo i (Z.lxor d e)) (range 12) (repeat_list 0 12)
      = Ret new_eo /\
    flips_ok new_eo.
Proof.
  intros [Ld Hde] [Le He] Hd.
  apply (foldM_prefix
    (fun (_ : list Z) (l : list Z) =>
       length l = 12%nat /\ Forall (fun x => 0 <= x <= 1) l)).
  - intros pre i post l Hsplit [Ll Hl].
    assert (0 <= i < 12) as Hi.
    { apply elem_of_range. rewrite Hsplit. apply elem_of_app. right. left. }
    destruct (lookup_lt_is_Some_2 d_eo (Z.to_nat i)) as [d Ed]; [lia|].
    destruct (perm_entry d_perm 12 i Hd Hi) as (j & Ej & Hj).
    destruct (lookup_lt_is_Some_2 eo (Z.to_nat j)) as [e Ee]; [lia|].
    rewrite (getitem_lookup d_eo i d) by (lia || assumption).
    cbn [mbind res_bind]. rewrite Ej. cbn [mbind res_bind].
    rewrite (getitem_lookup eo j e) by (lia || assumption).
    cbn [mbind res_bind]. rewrite setitem_lookup by lia.
    eexists. split; [reflexivity|]. split; [now rewrite length_insert|].
    apply Forall_insert; [assumption|]. apply lxor_bit.
    + exact (Forall_lookup_1 _ _ _ _ Hde Ed).
    + exact (Forall_lookup_1 _ _ _ _ He Ee).
  - split; [reflexivity|]. unfold repeat_list. apply Forall_replicate. lia.
Qed.

Lemma encode_range (co eo : list Z) :
  twists_ok co -> flips_ok eo ->
  exists w, _encode_orientations co eo = Ret w /\ 0 <= w < 2187 * 4096.
Proof.
  intros Hco Heo.
  destruct (pack_coro_twists co Hco) as (c & Ec & Hc & _).
  destruct (pack_flips eo Heo) as (e & Ee & He & _).
  unfold _encode_orientations. rewrite Ec. cbn [mbind res_bind]. rewrite Ee.
  eexists. split; [reflexivity|].
  rewrite Z.shiftl_mul_pow2 by lia.
  rewrite lor_disjoint_add by (change (2 ^ 12) with 4096; lia).
  change (2 ^ 12) with 4096. lia.
Qed.

(** On a cube and a move delta whose permutation codes are ranks (below
    [8!] and [12!]), [multiply_native] raises nothing, and the codes of the
    product are ranks again; its orientation word is below [2187 * 4096]. *)
Theorem multiply_native_in_range (MOVE_DELTA : list BitPackedCubieCube)
    (b delta : BitPackedCubieCube) (axis power : Z) :
  getitem MOVE_DELTA (axis * 3 + power `mod` 3 - 1) = Ret delta ->
  packed_ok b -> packed_ok delta ->
  exists b', multiply_native MOVE_DELTA b axis power = Ret b' /\
    packed_ok b' /\ 0 <= orie b' < 2187 * 4096.
Proof.
  intros Hdelta [Hbc Hbe] [Hdc Hde].
  destruct (int_to_perm_perm 8 (pc b)) as (perm_c & E1 & P1); [lia|exact Hbc|].
  destruct (int_to_perm_perm 12 (pe b)) as (perm_e & E2 & P2); [lia|exact Hbe|].
  destruct (int_to_perm_perm 8 (pc delta)) as (d_perm_c & E3 & P3);
    [lia|exact Hdc|].
  destruct (int_to_perm_perm 12 (pe delta)) as (d_perm_e & E4 & P4);
    [lia|exact Hde|].
  destruct (compose_perm perm_c d_perm_c 8 P1 P3) as (new_c & E5 & P5).
  destruct (compose_perm perm_e d_perm_e 12 P2 P4) as (new_e & E6 & P6).
  pose proof (perm_length new_c 8 P5) as L5.
  pose proof (perm_length new_e 12 P6) as L6.
  destruct (rank_and_round_trip new_c) as (new_pc & E7 & R7 & _);
    [lia|now rewrite L5|].
  destruct (rank_and_round_trip new_e) as (new_pe & E8 & R8 & _);
    [lia|now rewrite L6|].
  rewrite L5 in R7. rewrite L6 in R8.
  destruct (decode_ok b) as (co & eo & E9 & Hco & Heo).
  destruct (decode_ok delta) as (d_co & d_eo & E10 & Hdco & Hdeo).
  destruct (twist_loop d_co co d_perm_c) as (new_co & E11 & Hnco);
    [apply Hdco|apply Hco|exact P3|].
  destruct (flip_loop d_eo eo d_perm_e Hdeo Heo P4) as (new_eo & E12 & Hneo).
  destruct (encode_range new_co new_eo Hnco Hneo) as (w & E13 & Hw).
  exists (mkBit new_pc new_pe w). split.
  - unfold multiply_native. rewrite Hdelta. cbn [mbind res_bind].
    change (Z.of_nat 8) with 8 in *. change (Z.of_nat 12) with 12 in *.
    rewrite E1. cbn [mbind res_bind]. rewrite E2. cbn [mbind res_bind].
    rewrite E3. cbn [mbind res_bind]. rewrite E4. cbn [mbind res_bind].
    rewrite E5. cbn [mbind res_bind]. rewrite E6. cbn [mbind res_bind].
    rewrite E7. cbn [mbind res_bind]. rewrite E8. cbn [mbind res_bind].
    rewrite E9. cbn [mbind res_bind]. rewrite E10. cbn [mbind res_bind].
    destruct (foldM _ (range 8) (repeat_list 0 8)) as [|l] eqn:El;
      [discriminate|].
    cbn [mbind res_bind] in E11 |- *. rewrite E11. cbn [mbind res_bind].
    rewrite E12. cbn [mbind res_bind]. rewrite E13. reflexivity.
  - split; [|exact Hw]. split; cbn [pc pe]; [exact R7|exact R8].
Qed.

Lemma multiply_native_in_range_witness :
  exists b', multiply_native [mkBit 0 0 0] (mkBit 5 7 0) 0 1 = Ret b' /\
    packed_ok b' /\ 0 <= orie b' < 2187 * 4096.
Proof.
  apply (multiply_native_in_range [mkBit 0 0 0] (mkBit 5 7 0) (mkBit 0 0 0) 0 1);
    [reflexivity|unfold packed_ok; cbn; lia..].
Defined.

End BitcubeMultiply.

(** ** [coordcube.py]: the size of the caches *)
Module CoordcubeBounds.
Import Py Coordcube PyFacts CoordcubeFacts CoordcubeCache.

(** *** The caches stay bounded *)

Lemma size_insert_le `{Countable K} {A} (m : gmap K A) (k : K) (v : A) :
  (size (<[k := v]> m) <= S (size m))%nat.
Proof.
  destruct (m !! k) eqn:E.
  - rewrite map_size_insert_Some by eauto. lia.
  - rewrite map_size_insert_None by assumption. lia.
Qed.

Lemma size_delete_le `{Countable K} {A} (m : gmap K A) (k : K) :
  (size (delete k m) <= size m)%nat.
Proof.
  destruct (m !! k) eqn:E.
  - rewrite map_size_delete_Some by eauto. lia.
  - rewrite map_size_delete_None by assumption. lia.
Qed.

Lemma getPruning_size (bytes bytes' : byte_cache) (table : pylist) (i r : Z) :
  Z.of_nat (size bytes) <= 200000 ->
  getPruning bytes table i = Ret (r, bytes') ->
  Z.of_nat (size bytes') <= 200000.
Proof.
  intros Hs. unfold getPruning. cbv zeta.
  destruct (bytes !! (obj_id table, Z.shiftr i 1)) as [b|].
  - cbn [mbind res_bind]. now intros [= _ <-].
  - destruct (getitem (items table) (Z.shiftr i 1)) as [|b]; [discriminate|].
    cbn [mbind res_bind]. intros [= _ <-].
    destruct (Z.ltb_spec (Z.of_nat (size bytes)) 200000); [|assumption].
    pose proof (size_insert_le bytes (obj_id table, Z.shiftr i 1) b). lia.
Qed.

(** The two caches never grow past their limits: a byte cache of at most
    200000 entries and an index cache of at most 10000 entries are so again
    after [getPruning], [setPruning] and [getPruning_cached]. *)
Theorem pruning_caches_bounded (bytes : byte_cache) (cache : gmap Z Z)
    (table : pylist) (i v : Z) :
  Z.of_nat (size bytes) <= 200000 -> Z.of_nat (size cache) <= 10000 ->
  (forall r bytes', getPruning bytes table i = Ret (r, bytes') ->
     Z.of_nat (size bytes') <= 200000) /\
  (forall table' bytes', setPruning bytes table i v = Ret (table', bytes') ->
     Z.of_nat (size bytes') <= 200000) /\
  (forall r bytes' cache',
     getPruning_cached bytes cache table i = Ret (r, bytes', cache') ->
     Z.of_nat (size bytes') <= 200000 /\ Z.of_nat (size cache') <= 10000).
Proof.
  intros Hb Hc. split; [|split].
  - intros r bytes'. now apply getPruning_size.
  - intros table' bytes'. unfold setPruning. cbv zeta.
    destruct (getitem (items table) (Z.shiftr i 1)) as [|old]; [discriminate|].
    cbn [mbind res_bind].
    destruct (setitem (items table) (Z.shiftr i 1) _) as [|items'];
      [discriminate|].
    cbn [mbind res_bind]. intros [= _ <-].
    pose proof (size_delete_le bytes (obj_id table, Z.shiftr i 1)). lia.
  - intros r bytes' cache'. unfold getPruning_cached.
    destruct (cache !! i) as [r0|]; [now intros [= _ <- <-]|].
    destruct (getPruning bytes table i) as [|[res b']] eqn:E; [discriminate|].
    cbn [mbind res_bind]. intros [= _ <- <-].
    split; [eapply getPruning_size; eassumption|].
    destruct (Z.ltb_spec (Z.of_nat (size cache)) 10000); [|assumption].
    pose proof (size_insert_le cache i res). lia.
Qed.

Lemma pruning_caches_bounded_witness :
  (forall r bytes', getPruning ∅ (mkList 1 [0x53]) 0 = Ret (r, bytes') ->
     Z.of_nat (size bytes') <= 200000) /\
  (forall table' bytes', setPruning ∅ (mkList 1 [0x53]) 0 7 = Ret (table', bytes') ->
     Z.of_nat (size bytes') <= 200000) /\
  (forall r bytes' cache',
     getPruning_cached ∅ ∅ (mkList 1 [0x53]) 0 = Ret (r, bytes', cache') ->
     Z.of_nat (size bytes') <= 200000 /\ Z.of_nat (size cache') <= 10000).
Proof.
  apply (pruning_caches_bounded ∅ ∅ (mkList 1 [0x53]) 0 7);
    vm_compute; discriminate.
Defined.

End CoordcubeBounds.
